(** * Installation order of dev-container Features

    A shallow embedding of [src/spec-configuration/containerFeaturesOrder.ts]
    and the properties of its four components:

    - the soft-order sorter        [computeInstallationOrder],
    - the override post-processor  [computeOverrideInstallationOrder],
    - the hard-dependency builder  [_buildDependencyGraph],
    - the round scheduler          [computeDependsOnInstallationOrder],

    and of the control-manifest cache that the file holds as well:
    [getControlManifest], [updateControlManifest], [sanitizeControlManifest].

    JavaScript objects that the code shares and mutates are kept in explicit
    stores: a reference is an index into the store, object identity is
    equality of indices. *)

From Stdlib Require Import ZArith QArith String Ascii List Permutation Lia Sorted.
From stdpp Require Import base list strings.

Open Scope string_scope.
Open Scope list_scope.
Open Scope nat_scope.

(** ** JavaScript values and built-ins used by the source *)

(** What a call completes with: a returned value, a thrown [Error], or no
    completion within the step budget given to the model of a loop. *)
Inductive Completion (A : Type) : Type :=
| Returned (a : A)
| Thrown (message : string)
| Diverged.
Arguments Returned {A} a.
Arguments Thrown {A} message.
Arguments Diverged {A}.

Definition bind {A B} (c : Completion A) (k : A → Completion B) : Completion B :=
  match c with
  | Returned a => k a
  | Thrown m => Thrown m
  | Diverged => Diverged
  end.

Module JS.

(** [s.split(':')[0]]: the part of [s] before its first colon. *)
Fixpoint split_colon_0 (s : string) : string :=
  match s with
  | EmptyString => EmptyString
  | String c r => if Ascii.eqb c ":"%char then EmptyString else String c (split_colon_0 r)
  end.

(** [l.join(sep)] *)
Definition join (sep : string) (l : list string) : string := String.concat sep l.

(** [a < b] on strings: lexicographic on code units. *)
Definition string_lt (a b : string) : bool := String.ltb a b.

(** [l.includes(x)] on an array of strings. *)
Definition includes (l : list string) (x : string) : bool := existsb (String.eqb x) l.

(** [l.find(p)] *)
Definition Array_find {A} (p : A → bool) (l : list A) : option A := List.find p l.

(** [l.indexOf(x)] on an array of references: the first index, or -1. *)
Fixpoint indexOf (l : list nat) (x : nat) : Z :=
  match l with
  | [] => (-1)%Z
  | y :: r => if Nat.eqb y x then 0%Z
              else let i := indexOf r x in if (i <? 0)%Z then (-1)%Z else (i + 1)%Z
  end.

(** [l.splice(start, 1)]: what is left in the array.  A negative [start]
    counts from the end ([-1] is the last element). *)
Definition splice_1 {A} (l : list A) (start : Z) : list A :=
  let len := Z.of_nat (length l) in
  let from := if (start <? 0)%Z then Z.max (len + start) 0 else Z.min start len in
  take (Z.to_nat from) l ++ drop (S (Z.to_nat from)) l.

(** A [Set] of object references, in insertion order. *)
Definition Set_add (s : list nat) (x : nat) : list nat :=
  if existsb (Nat.eqb x) s then s else s ++ [x].
Definition Set_delete (s : list nat) (x : nat) : list nat :=
  List.filter (fun y => negb (Nat.eqb y x)) s.

(** A [Set] of strings. *)
Definition StrSet_delete (s : list string) (x : string) : list string :=
  List.filter (fun y => negb (String.eqb y x)) s.

(** A [Map] from strings, in insertion order of its keys: [set] on a key
    that is present replaces the value and keeps the key's place. *)
Fixpoint Map_set {V} (m : list (string * V)) (k : string) (v : V) : list (string * V) :=
  match m with
  | [] => [(k, v)]
  | (k', v') :: r => if String.eqb k' k then (k, v) :: r else (k', v') :: Map_set r k v
  end.
Fixpoint Map_get {V} (m : list (string * V)) (k : string) : option V :=
  match m with
  | [] => None
  | (k', v') :: r => if String.eqb k' k then Some v' else Map_get r k
  end.
Definition Map_keys {V} (m : list (string * V)) : list string := map fst m.
Definition Map_values {V} (m : list (string * V)) : list V := map snd m.

(** [l.sort(cmp)].  ECMAScript leaves the algorithm to the engine and asks
    for a stable result; a stable insertion sort stands for it: [x] stays in
    front of [y] when [cmp x y <= 0]. *)
Fixpoint sort_insert {A} (cmp : A → A → Z) (x : A) (l : list A) : list A :=
  match l with
  | [] => [x]
  | y :: r => if (cmp x y <=? 0)%Z then x :: y :: r else y :: sort_insert cmp x r
  end.
Definition sort {A} (cmp : A → A → Z) (l : list A) : list A :=
  foldr (sort_insert cmp) [] l.

(** The same with a comparator that may throw. *)
Fixpoint sort_insert_throwing {A} (cmp : A → A → Completion Z) (x : A) (l : list A)
  : Completion (list A) :=
  match l with
  | [] => Returned [x]
  | y :: r =>
      bind (cmp x y) (fun c =>
        if (c <=? 0)%Z then Returned (x :: y :: r)
        else bind (sort_insert_throwing cmp x r) (fun r' => Returned (y :: r')))
  end.
Fixpoint sort_throwing {A} (cmp : A → A → Completion Z) (l : list A) : Completion (list A) :=
  match l with
  | [] => Returned []
  | x :: r => bind (sort_throwing cmp r) (sort_insert_throwing cmp x)
  end.

(** *** [JSON.stringify] on option values *)

Definition dquote : string := String (ascii_of_nat 34) EmptyString.
Definition backslash : string := String (ascii_of_nat 92) EmptyString.

Definition hex_digit (n : nat) : ascii :=
  match n with
  | 0 => "0" | 1 => "1" | 2 => "2" | 3 => "3" | 4 => "4" | 5 => "5" | 6 => "6" | 7 => "7"
  | 8 => "8" | 9 => "9" | 10 => "a" | 11 => "b" | 12 => "c" | 13 => "d" | 14 => "e" | _ => "f"
  end%char.

(** One code unit of a quoted JSON string. *)
Definition escape_char (c : ascii) : string :=
  let n := nat_of_ascii c in
  if Nat.eqb n 8 then backslash +:+ "b"
  else if Nat.eqb n 9 then backslash +:+ "t"
  else if Nat.eqb n 10 then backslash +:+ "n"
  else if Nat.eqb n 12 then backslash +:+ "f"
  else if Nat.eqb n 13 then backslash +:+ "r"
  else if Nat.eqb n 34 then backslash +:+ dquote
  else if Nat.eqb n 92 then backslash +:+ backslash
  else if Nat.ltb n 32 then backslash +:+ "u00" +:+ String (hex_digit (n / 16)) (String (hex_digit (n mod 16)) EmptyString)
  else String c EmptyString.

Fixpoint escape (s : string) : string :=
  match s with
  | EmptyString => EmptyString
  | String c r => escape_char c +:+ escape r
  end.

Definition quote (s : string) : string := dquote +:+ escape s +:+ dquote.

End JS.


(** ** Data model of the soft path *)

(** Modelled from the spec: the declarations of [OCIRef], [Feature],
    [SourceInformation], [FeatureSet] and [DevContainerConfig] live in modules
    of the repository other than the one embedded here; each record has the
    fields that [containerFeaturesOrder.ts] reads or writes, an optional field
    being an [option]. *)
Record OCIRef := {
  registry : string;
  namespace : string;
  resource : string }.

Record Feature := {
  legacyIds : option (list string);
  currentId : option string;
  installsAfter : option (list string) }.

Record SourceInformation := {
  type : string;
  userFeatureId : string;
  userFeatureIdWithoutVersion : option string;
  featureRef : option OCIRef }.

(** [features_0] is [features[0]], the only element of [features] that the
    source looks at. *)
Record FeatureSet := {
  sourceInformation : SourceInformation;
  features_0 : Feature }.

Record DevContainerConfig := {
  overrideFeatureInstallOrder : option (list string) }.

(** The descriptors belong to the caller: they live in a store, and the
    arrays handed to the engine hold references into it. *)
Abbreviation Store := (list FeatureSet).

#[global] Instance FeatureSet_inhabited : Inhabited FeatureSet :=
  populate {| sourceInformation := {| type := EmptyString; userFeatureId := EmptyString;
                                      userFeatureIdWithoutVersion := None; featureRef := None |};
              features_0 := {| legacyIds := None; currentId := None; installsAfter := None |} |}.

(** A node of the soft-order graph.  [before] and [after] are [Set]s of node
    references; a node reference is the index of the node in the array that
    [features.map] creates. *)
Record FeatureNode := {
  feature : nat;
  before : list nat;
  after : list nat }.

#[global] Instance FeatureNode_inhabited : Inhabited FeatureNode :=
  populate {| feature := 0; before := []; after := [] |}.

Abbreviation Graph := (list FeatureNode).

(** ** Component A: [computeInstallationOrder] *)

Definition userFeatureIdOf (σ : Store) (r : nat) : string :=
  userFeatureId (sourceInformation (σ !!! r)).

(** [feature.sourceInformation.userFeatureId.split(':')[0]] *)
Definition keyOf (σ : Store) (r : nat) : string :=
  JS.split_colon_0 (userFeatureIdOf σ r).

(** [features.map<FeatureNode>(feature => ({ feature, before: new Set(), after: new Set() }))] *)
Definition newNodes (features : list nat) : Graph :=
  map (fun f => {| feature := f; before := []; after := [] |}) features.

(** [.reduce((map, feature) => map.set(key, feature), new Map())] over the new nodes. *)
Definition buildNodesById (σ : Store) (G : Graph) : list (string * nat) :=
  foldl (fun m n => JS.Map_set m (keyOf σ (feature (G !!! n))) n) [] (seq 0 (length G)).

(** The template literal [`${x}`] of an optional string. *)
Definition template (x : option string) : string :=
  match x with Some s => s | None => "undefined" end.

(** The body of the [nodes.map] that registry-qualifies the legacy ids; it
    writes into the descriptor that the node refers to. *)
Definition qualifyLegacyIds (σ : Store) (r : nat) : Store :=
  let fs := σ !!! r in
  let f0 := features_0 fs in
  let si := sourceInformation fs in
  if String.eqb (type si) "oci"
     && match legacyIds f0 with Some l => negb (Nat.eqb (length l) 0) | None => false end
  then
    match featureRef si, legacyIds f0 with
    | Some ref, Some l =>
        let prefix := registry ref +:+ "/" +:+ namespace ref +:+ "/" in
        <[r := {| sourceInformation := si;
                  features_0 := {| legacyIds := Some (map (fun legacyId => prefix +:+ legacyId) l);
                                   currentId := Some (prefix +:+ template (currentId f0));
                                   installsAfter := installsAfter f0 |} |}]> σ
    | _, _ => σ
    end
  else σ.

Definition qualifyAll (σ : Store) (G : Graph) (nodes : list nat) : Store :=
  foldl (fun σ node => qualifyLegacyIds σ (feature (G !!! node))) σ nodes.

Definition hasLegacyId (σ : Store) (G : Graph) (firstId : string) (node : nat) : bool :=
  match legacyIds (features_0 (σ !!! feature (G !!! node))) with
  | Some l => JS.includes l firstId
  | None => false
  end.

Definition hasCurrentId (σ : Store) (G : Graph) (firstId : string) (node : nat) : bool :=
  match currentId (features_0 (σ !!! feature (G !!! node))) with
  | Some c => String.eqb c firstId
  | None => false
  end.

(** The node that an [installsAfter] identifier refers to: by key, else by
    legacy id, else by current id. *)
Definition resolveFirst (σ : Store) (G : Graph) (nodesById : list (string * nat))
    (nodes : list nat) (firstId : string) : option nat :=
  match JS.Map_get nodesById firstId with
  | Some first => Some first
  | None =>
      match JS.Array_find (hasLegacyId σ G firstId) nodes with
      | Some first => Some first
      | None => JS.Array_find (hasCurrentId σ G firstId) nodes
      end
  end.

Definition after_add (x : nat) (n : FeatureNode) : FeatureNode :=
  {| feature := feature n; before := before n; after := JS.Set_add (after n) x |}.
Definition before_add (x : nat) (n : FeatureNode) : FeatureNode :=
  {| feature := feature n; before := JS.Set_add (before n) x; after := after n |}.
Definition after_delete (x : nat) (n : FeatureNode) : FeatureNode :=
  {| feature := feature n; before := before n; after := JS.Set_delete (after n) x |}.

(** [later.after.add(first); first.before.add(later);] *)
Definition addEdge (G : Graph) (later first : nat) : Graph :=
  alter (before_add later) first (alter (after_add first) later G).

(** [later.feature.features[0].installsAfter || []] *)
Definition installsAfterOf (σ : Store) (G : Graph) (later : nat) : list string :=
  default [] (installsAfter (features_0 (σ !!! feature (G !!! later)))).

Definition addEdgesOf (σ : Store) (nodesById : list (string * nat)) (nodes : list nat)
    (G : Graph) (later : nat) : Graph :=
  foldl (fun G firstId =>
           match resolveFirst σ G nodesById nodes firstId with
           | Some first => addEdge G later first
           | None => G
           end) G (installsAfterOf σ G later).

(** The two nested [for] loops that discover the edges. *)
Definition discoverEdges (σ : Store) (nodesById : list (string * nat)) (nodes : list nat)
    (G : Graph) : Graph :=
  foldl (addEdgesOf σ nodesById nodes) G nodes.

(** The [reduce] that collects [{ roots, islands }]. *)
Definition rootsAndIslands (G : Graph) (nodes : list nat) : list nat * list nat :=
  foldl (fun prev node =>
           if Nat.eqb (length (after (G !!! node))) 0 then
             if Nat.eqb (length (before (G !!! node))) 0
             then (prev.1, prev.2 ++ [node])
             else (prev.1 ++ [node], prev.2)
           else prev) ([], []) nodes.

(** [.sort((a, b) => a.sourceInformation.userFeatureId < b.sourceInformation.userFeatureId ? -1 : 1)] *)
Definition sortFeatures (σ : Store) (l : list nat) : list nat :=
  JS.sort (fun a b => if JS.string_lt (userFeatureIdOf σ a) (userFeatureIdOf σ b) then (-1)%Z else 1%Z) l.

(** One turn of [for (const later of first.before)]. *)
Definition visit (first : nat) (st : Graph * list nat) (later : nat) : Graph * list nat :=
  let G := alter (after_delete first) later st.1 in
  if Nat.eqb (length (after (G !!! later))) 0 then (G, st.2 ++ [later]) else (G, st.2).

(** One turn of [for (const first of current)]. *)
Definition visitAll (st : Graph * list nat) (first : nat) : Graph * list nat :=
  foldl (visit first) st (before (st.1 !!! first)).

(** The [while (current.length)] loop; [fuel] bounds the number of layers. *)
Fixpoint peel (fuel : nat) (σ : Store) (G : Graph) (current : list nat)
    (orderedFeatures : list nat) : Completion (Graph * list nat) :=
  match current with
  | [] => Returned (G, orderedFeatures)
  | _ =>
      match fuel with
      | 0 => Diverged
      | S fuel =>
          let st := foldl visitAll (G, []) current in
          peel fuel σ st.1 st.2
               (orderedFeatures ++ sortFeatures σ (map (fun node => feature (G !!! node)) current))
      end
  end.

(** [missing]: the keys of [nodesById] less the keys of the ordered features. *)
Definition missingKeys (σ : Store) (nodesById : list (string * nat))
    (orderedFeatures : list nat) : list string :=
  foldl (fun missing f => JS.StrSet_delete missing (keyOf σ f))
        (JS.Map_keys nodesById) orderedFeatures.

(** The state of the function when the layered peeling starts. *)
Record Prepared := {
  p_store : Store;
  p_nodesById : list (string * nat);
  p_nodes : list nat;
  p_graph : Graph }.

Definition prepare (σ : Store) (features : list nat) : Prepared :=
  let G0 := newNodes features in
  let nodesById := buildNodesById σ G0 in
  let nodes := JS.Map_values nodesById in
  let σ1 := qualifyAll σ G0 nodes in
  {| p_store := σ1; p_nodesById := nodesById; p_nodes := nodes;
     p_graph := discoverEdges σ1 nodesById nodes G0 |}.
Arguments prepare : simpl never.

(** The layers in turn, then the islands: [orderedFeatures] as it is when
    the cycle check starts. *)
Definition layeredOrder (p : Prepared) : Completion (list nat) :=
  let G := p_graph p in
  let ri := rootsAndIslands G (p_nodes p) in
  bind (peel (S (length (p_nodes p))) (p_store p) G ri.1 [])
       (fun r => Returned (r.2 ++ sortFeatures (p_store p)
                                      (map (fun node => feature (G !!! node)) ri.2))).

(** [computeInstallationOrder(features)]: the store after the call and what
    the call completes with. *)
Definition computeInstallationOrder (σ : Store) (features : list nat)
    : Store * Completion (list nat) :=
  let p := prepare σ features in
  (p_store p,
   bind (layeredOrder p)
     (fun orderedFeatures =>
        let missing := missingKeys (p_store p) (p_nodesById p) orderedFeatures in
        if negb (Nat.eqb (length missing) 0)
        then Thrown ("Features declare cyclic dependency: " +:+ JS.join ", " missing)
        else Returned orderedFeatures)).

(** ** Component D: [computeOverrideInstallationOrder] *)

(** [feature.sourceInformation.userFeatureIdWithoutVersion === featureId
     || feature.sourceInformation.userFeatureId === featureId] *)
Definition matchesOverride (σ : Store) (featureId : string) (f : nat) : bool :=
  match userFeatureIdWithoutVersion (sourceInformation (σ !!! f)) with
  | Some s => String.eqb s featureId
  | None => false
  end || String.eqb (userFeatureIdOf σ f) featureId.

(** The [for (const featureId of config.overrideFeatureInstallOrder!)] loop.
    [features] is the caller's array, which [splice] shortens in place; the
    first component of the result is that array when the loop is left. *)
Fixpoint moveToFront (σ : Store) (automaticOrder : list nat) (ids : list string)
    (orderedFeatures features : list nat) : list nat * Completion (list nat) :=
  match ids with
  | [] => (features, Returned (orderedFeatures ++ features))
  | featureId :: ids =>
      match JS.Array_find (matchesOverride σ featureId) automaticOrder with
      | None => (features, Thrown ("Feature " +:+ featureId +:+ " not found"))
      | Some feature =>
          moveToFront σ automaticOrder ids (orderedFeatures ++ [feature])
                      (JS.splice_1 features (JS.indexOf features feature))
      end
  end.

(** [computeOverrideInstallationOrder(config, features)]: the store and the
    caller's array after the call, and what the call completes with. *)
Definition computeOverrideInstallationOrder (σ : Store) (config : DevContainerConfig)
    (features : list nat) : Store * list nat * Completion (list nat) :=
  let r := computeInstallationOrder σ features in
  match r.2 with
  | Returned automaticOrder =>
      match overrideFeatureInstallOrder config with
      | Some ids =>
          let m := moveToFront r.1 automaticOrder ids [] features in
          (r.1, m.1, m.2)
      | None => (r.1, features, Thrown "TypeError: config.overrideFeatureInstallOrder is not iterable")
      end
  | Thrown m => (r.1, features, Thrown m)
  | Diverged => (r.1, features, Diverged)
  end.

(** [computeFeatureInstallationOrder(config, features)] *)
Definition computeFeatureInstallationOrder (σ : Store) (config : DevContainerConfig)
    (features : list nat) : Store * list nat * Completion (list nat) :=
  match overrideFeatureInstallOrder config with
  | Some _ => computeOverrideInstallationOrder σ config features
  | None => let r := computeInstallationOrder σ features in (r.1, features, r.2)
  end.

(** ** Data model of the hard path *)

(** A value of a key of an options record. *)
Inductive OptionValue :=
| OVString (s : string)
| OVBoolean (b : bool)
| OVUndefined.

(** [options?: string | boolean | Record<string, string | boolean | undefined>].
    The entries of a record are listed in the order in which JavaScript
    enumerates its keys, the order of insertion for keys that are not array
    indices. *)
Inductive Options :=
| OUndefined
| OString (s : string)
| OBoolean (b : bool)
| ORecord (entries : list (string * OptionValue)).

(** An [FNode] object; [dependsOn] holds references into the heap of nodes. *)
Record FNode := {
  id : string;
  options : Options;
  dependsOn : list nat }.

#[global] Instance FNode_inhabited : Inhabited FNode :=
  populate {| id := EmptyString; options := OUndefined; dependsOn := [] |}.

Abbreviation Heap := (list FNode).

Definition stringifyValue (v : OptionValue) : option string :=
  match v with
  | OVString s => Some (JS.quote s)
  | OVBoolean b => Some (if b then "true" else "false")
  | OVUndefined => None
  end.

(** A property whose value is [undefined] is left out. *)
Definition stringifyEntry (e : string * OptionValue) : option string :=
  match stringifyValue e.2 with
  | Some s => Some (JS.quote e.1 +:+ ":" +:+ s)
  | None => None
  end.

(** [JSON.stringify(options)]; it is [undefined] ([None]) on [undefined]. *)
Definition JSON_stringify (o : Options) : option string :=
  match o with
  | OUndefined => None
  | OString s => Some (JS.quote s)
  | OBoolean b => Some (if b then "true" else "false")
  | ORecord entries => Some ("{" +:+ JS.join "," (omap stringifyEntry entries) +:+ "}")
  end.

(** [x !== y] on [string | undefined] *)
Definition strict_ne (x y : option string) : bool :=
  match x, y with
  | Some a, Some b => negb (String.eqb a b)
  | None, None => false
  | _, _ => true
  end.

Definition fNodeEquality (a b : FNode) : bool :=
  if negb (String.eqb (id a) (id b)) then false
  else if strict_ne (JSON_stringify (options a)) (JSON_stringify (options b)) then false
  else true.

Inductive LogLevel := Info | Error.

(** What the outside observes of a run: log lines and manifest fetches. *)
Inductive Event :=
| Write (message : string) (level : LogLevel)
| Fetch (identifier : string).

Record Manifest := {
  annotations : option (list (string * string)) }.

(** Modelled from the spec: the collaborators that the module imports
    ([getRef], [fetchOCIFeatureManifestIfExistsFromUserIdentifier],
    [userFeaturesToArray]) and the host's [JSON.parse] and [localeCompare];
    each is a function of its arguments.  [getRef] and the fetch answer
    [None] for [undefined]; a fetch or a parse may also throw, or not
    complete.  [JSON_parse] gives the parsed [dependsOn] object as the list
    of its entries, in the order of [Object.entries]. *)
Record CommonParams := {
  getRef : string → option OCIRef;
  fetchOCIFeatureManifestIfExistsFromUserIdentifier : string → Completion (option Manifest);
  JSON_parse : string → Completion (list (string * Options));
  userFeaturesToArray : DevContainerConfig → option (list (string * Options));
  localeCompare : string → string → Z }.

(** [fNodeStableSort]: calling [localeCompare] on the [undefined] that
    [JSON.stringify] gives for absent options throws a [TypeError]; as an
    argument, [undefined] is converted to a string. *)
Definition fNodeStableSort (params : CommonParams) (a b : FNode) : Completion Z :=
  if negb (String.eqb (id a) (id b)) then Returned (localeCompare params (id a) (id b))
  else if strict_ne (JSON_stringify (options a)) (JSON_stringify (options b)) then
    match JSON_stringify (options a) with
    | Some sa => Returned (localeCompare params sa (template (JSON_stringify (options b))))
    | None => Thrown "TypeError: Cannot read properties of undefined (reading 'localeCompare')"
    end
  else Returned 0%Z.

(** ** Component B: [_buildDependencyGraph] *)

(** The heap of [FNode] objects, the two arrays that the recursive calls
    share, and the events so far. *)
Record BuildState := {
  heap : Heap;
  worklist : list nat;
  acc : list nat;
  events : list Event }.

Definition dependsOn_push (dep : nat) (n : FNode) : FNode :=
  {| id := id n; options := options n; dependsOn := dependsOn n ++ [dep] |}.

(** The [for (const [id, options] of Object.entries(dependsOn))] loop. *)
Fixpoint addDependencies (params : CommonParams) (current : nat)
    (entries : list (string * Options)) (s : BuildState) : BuildState * Completion unit :=
  match entries with
  | [] => (s, Returned tt)
  | (id', options') :: entries =>
      match getRef params id' with
      | None => (s, Thrown ("Invalid reference '" +:+ id' +:+ "'"))
      | Some ref =>
          let dependency := length (heap s) in
          let h := heap s ++ [{| id := resource ref; options := options'; dependsOn := [] |}] in
          addDependencies params current entries
            {| heap := alter (dependsOn_push dependency) current h;
               worklist := worklist s ++ [dependency];
               acc := acc s;
               events := events s |}
      end
  end.

(** How one turn of the [while] loop ends. *)
Inductive Turn :=
| Continue
| CallSelf
| Throws (message : string)
| Hangs.

(** The body of the [while] loop, from [worklist.shift()] to the point where
    the source calls itself. *)
Definition turn (params : CommonParams) (current : nat) (s : BuildState) : BuildState * Turn :=
  if existsb (fun f => fNodeEquality (heap s !!! f) (heap s !!! current)) (acc s) then (s, Continue)
  else
    let cid := id (heap s !!! current) in
    let s1 := {| heap := heap s; worklist := worklist s; acc := acc s;
                 events := events s ++ [Write ("Resolving dependencies for '" +:+ cid +:+ "'...") Info;
                                        Fetch cid] |} in
    match fetchOCIFeatureManifestIfExistsFromUserIdentifier params cid with
    | Diverged => (s1, Hangs)
    | Thrown m => (s1, Throws m)
    | Returned None => (s1, Throws ("Manifest for '" +:+ cid +:+ "' not found"))
    | Returned (Some manifest) =>
        let push := {| heap := heap s1; worklist := worklist s1; acc := acc s1 ++ [current];
                       events := events s1 |} in
        match match annotations manifest with
              | Some a => JS.Map_get a "dev.containers.experimental.dependsOn"
              | None => None
              end with
        | None => (push, Continue)
        | Some dependsOnSerialized =>
            if String.eqb dependsOnSerialized EmptyString then (push, Continue)
            else
              match JSON_parse params dependsOnSerialized with
              | Diverged => (s1, Hangs)
              | Thrown m => (s1, Throws m)
              | Returned entries =>
                  match addDependencies params current entries s1 with
                  | (s2, Returned _) =>
                      ({| heap := heap s2; worklist := worklist s2; acc := acc s2 ++ [current];
                          events := events s2 |}, CallSelf)
                  | (s2, Thrown m) => (s2, Throws m)
                  | (s2, Diverged) => (s2, Hangs)
                  end
              end
        end
    end.

Definition shifted (s : BuildState) (rest : list nat) : BuildState :=
  {| heap := heap s; worklist := rest; acc := acc s; events := events s |}.

(** [_buildDependencyGraph(params, worklist, acc)]: the [while] loop with its
    call to itself on the shared arrays.  The call returns [acc]; [fuel]
    bounds the turns of the loops on one chain of calls. *)
Fixpoint _buildDependencyGraph (fuel : nat) (params : CommonParams) (s : BuildState)
    : BuildState * Completion (list nat) :=
  match worklist s with
  | [] => (s, Returned (acc s))
  | current :: rest =>
      match fuel with
      | 0 => (s, Diverged)
      | S fuel =>
          match turn params current (shifted s rest) with
          | (s', Continue) => _buildDependencyGraph fuel params s'
          | (s', CallSelf) =>
              match _buildDependencyGraph fuel params s' with
              | (s'', Returned _) => _buildDependencyGraph fuel params s''
              | other => other
              end
          | (s', Throws m) => (s', Thrown m)
          | (s', Hangs) => (s', Diverged)
          end
      end
  end.

(** The explicit loop of the design notes: the same turns, taken from the
    queue until it is empty, with no call to itself. *)
Fixpoint buildDependencyGraphLoop (fuel : nat) (params : CommonParams) (s : BuildState)
    : BuildState * Completion (list nat) :=
  match worklist s with
  | [] => (s, Returned (acc s))
  | current :: rest =>
      match fuel with
      | 0 => (s, Diverged)
      | S fuel =>
          match turn params current (shifted s rest) with
          | (s', Throws m) => (s', Thrown m)
          | (s', Hangs) => (s', Diverged)
          | (s', _) => buildDependencyGraphLoop fuel params s'
          end
      end
  end.

(** [buildDependencyGraphFromFeatureRef(params, featureRef)] *)
Definition buildDependencyGraphFromFeatureRef (fuel : nat) (params : CommonParams)
    (featureRef : OCIRef) : BuildState * Completion (list nat) :=
  _buildDependencyGraph fuel params
    {| heap := [{| id := resource featureRef; options := OUndefined; dependsOn := [] |}];
       worklist := [0]; acc := []; events := [] |}.

(** The [userFeatures.map<RootFNode>] of [buildDependencyGraphFromConfig]. *)
Fixpoint rootNodesOf (params : CommonParams) (userFeatures : list (string * Options))
    : Completion Heap :=
  match userFeatures with
  | [] => Returned []
  | (fid, fopts) :: rest =>
      match getRef params fid with
      | None => Thrown ("Invalid reference '" +:+ fid +:+ "'")
      | Some ref =>
          bind (rootNodesOf params rest)
               (fun h => Returned ({| id := resource ref; options := fopts; dependsOn := [] |} :: h))
      end
  end.

(** [buildDependencyGraphFromConfig(params, config)] *)
Definition buildDependencyGraphFromConfig (fuel : nat) (params : CommonParams)
    (config : DevContainerConfig) : BuildState * Completion (list nat) :=
  let s0 := {| heap := []; worklist := []; acc := []; events := [] |} in
  match userFeaturesToArray params config with
  | None => (s0, Thrown "No features found. Nothing to do.")
  | Some userFeatures =>
      match rootNodesOf params userFeatures with
      | Returned rootNodes =>
          _buildDependencyGraph fuel params
            {| heap := rootNodes; worklist := seq 0 (length rootNodes); acc := []; events := [] |}
      | Thrown m => (s0, Thrown m)
      | Diverged => (s0, Diverged)
      end
  end.

(** ** Component C: [computeDependsOnInstallationOrder] *)

Definition idsOf (h : Heap) (l : list nat) : string :=
  JS.join ", " (map (fun n => id (h !!! n)) l).

(** The filter that selects a round. *)
Definition ready (h : Heap) (installationOrder : list nat) (node : nat) : bool :=
  Nat.eqb (length (dependsOn (h !!! node))) 0
  || forallb (fun dep =>
                existsb (fun installed => fNodeEquality (h !!! installed) (h !!! dep))
                        installationOrder)
             (dependsOn (h !!! node)).

(** The [while (worklist.length > 0)] loop of the scheduler; [fuel] bounds
    the number of rounds. *)
Fixpoint rounds (fuel : nat) (params : CommonParams) (h : Heap) (worklist : list nat)
    (installationOrder : list nat) (events : list Event)
    : list Event * Completion (list nat) :=
  match worklist with
  | [] => (events, Returned installationOrder)
  | _ =>
      match fuel with
      | 0 => (events, Diverged)
      | S fuel =>
          let round := List.filter (ready h installationOrder) worklist in
          let events := events ++ [Write ("Round: " +:+ idsOf h round) Info] in
          if Nat.eqb (length round) 0 then
            (events ++ [Write ("Nodes remaining: " +:+ idsOf h worklist) Error],
             Thrown "Circular dependency detected")
          else
            let worklist :=
              List.filter (fun node =>
                             negb (existsb (fun r => fNodeEquality (h !!! r) (h !!! node)) round))
                          worklist in
            match JS.sort_throwing (fun a b => fNodeStableSort params (h !!! a) (h !!! b)) round with
            | Returned round => rounds fuel params h worklist (installationOrder ++ round) events
            | Thrown m => (events, Thrown m)
            | Diverged => (events, Diverged)
            end
      end
  end.

(** The scheduler on the node set that the builder returned. *)
Definition schedule (params : CommonParams) (h : Heap) (worklist : list nat)
    (events : list Event) : list Event * Completion (list nat) :=
  rounds (length worklist) params h worklist []
         (events ++ [Write ("Starting with: " +:+ idsOf h worklist) Info]).

(** [computeDependsOnInstallationOrder(params, config)]: the heap of nodes,
    the events, and what the call completes with. *)
Definition computeDependsOnInstallationOrder (fuel : nat) (params : CommonParams)
    (config : DevContainerConfig) : Heap * list Event * Completion (list nat) :=
  let b := buildDependencyGraphFromConfig fuel params config in
  match b.2 with
  | Returned worklist =>
      let r := schedule params (heap b.1) worklist (events b.1) in
      (heap b.1, r.1, r.2)
  | Thrown m => (heap b.1, events b.1, Thrown m)
  | Diverged => (heap b.1, events b.1, Diverged)
  end.

(** ** Properties stated on the model *)

(** [later] installs after [first]: in [computeInstallationOrder(features)]
    the node of [features[later]] names, in its [installsAfter] list, an
    identifier that the edge discovery resolves to the node of
    [features[first]]. *)
Definition installsAfterEdge (σ : Store) (features : list nat) (later first : nat) : Prop :=
  let p := prepare σ features in
  later ∈ p_nodes p ∧
  ∃ firstId, firstId ∈ installsAfterOf (p_store p) (p_graph p) later ∧
             resolveFirst (p_store p) (p_graph p) (p_nodesById p) (p_nodes p) firstId = Some first.

(** The installs-after edges have no cycle: the nodes can be ranked so that
    every node ranks above the nodes it installs after. *)
Definition acyclic (σ : Store) (features : list nat) : Prop :=
  ∃ rank : nat → nat,
    ∀ later first, installsAfterEdge σ features later first → rank first < rank later.

(** [before] and [after] are inverse views of one edge set. *)
Definition inverseViews (G : Graph) : Prop :=
  ∀ x y, x ∈ before (G !!! y) ↔ y ∈ after (G !!! x).

(** Every [after] entry still has its [before] entry. *)
Definition afterWithinBefore (G : Graph) : Prop :=
  ∀ x y, y ∈ after (G !!! x) → x ∈ before (G !!! y).

(** The mapping that an options record denotes: the value of each key. *)
Definition optionOf (entries : list (string * OptionValue)) (k : string) : option OptionValue :=
  JS.Map_get entries k.

(** The nodes of the graph whose feature is not in [orderedFeatures]: the
    nodes that the peeling has left unresolved. *)
Definition unresolvedNodes (features nodes orderedFeatures : list nat) : list nat :=
  List.filter (fun n => negb (existsb (Nat.eqb (features !!! n)) orderedFeatures)) nodes.

(** The descriptors that the legacy-id rewrite writes to: from a registry,
    with a legacy id and a feature reference. *)
Definition rewritten (fs : FeatureSet) : bool :=
  String.eqb (type (sourceInformation fs)) "oci"
  && match legacyIds (features_0 fs) with Some l => negb (Nat.eqb (length l) 0) | None => false end
  && match featureRef (sourceInformation fs) with Some _ => true | None => false end.

(** Two descriptors that differ at most in their legacy ids and current id. *)
Definition sameButIds (a b : FeatureSet) : Prop :=
  sourceInformation a = sourceInformation b
  ∧ installsAfter (features_0 a) = installsAfter (features_0 b).

(** Every dependency of a node of [out] is equal, for [fNodeEquality], to a
    node that stands earlier in [out]. *)
Definition dependenciesFirst (h : Heap) (out : list nat) : Prop :=
  ∀ i a d, out !! i = Some a → d ∈ dependsOn (h !!! a) →
    ∃ j b, j < i ∧ out !! j = Some b ∧ fNodeEquality (h !!! b) (h !!! d) = true.

(** No node of [l] occurs twice, and no two of them are equal for
    [fNodeEquality]. *)
Definition distinctNodes (h : Heap) (l : list nat) : Prop :=
  NoDup l ∧ ∀ a b, a ∈ l → b ∈ l → fNodeEquality (h !!! a) (h !!! b) = true → a = b.

(** The references of the state point into the heap, and the accumulated
    nodes are distinct. *)
Record BuildInv (s : BuildState) : Prop := {
  bi_acc : ∀ r, r ∈ acc s → r < length (heap s);
  bi_worklist : ∀ r, r ∈ worklist s → r < length (heap s);
  bi_distinct : distinctNodes (heap s) (acc s) }.

(** *** Invariants of the soft path *)

(** The graph during the edge discovery: node [x] wraps [features[x]], the
    two views agree, and the sets hold nodes of the array [nodes], once each. *)
Record GraphInv (features nodes : list nat) (G : Graph) : Prop := {
  gi_length : length G = length features;
  gi_feature : ∀ x, feature (G !!! x) = features !!! x;
  gi_inverse : inverseViews G;
  gi_nodes : ∀ x y, y ∈ after (G !!! x) → x ∈ nodes ∧ y ∈ nodes;
  gi_after_NoDup : ∀ x, NoDup (after (G !!! x));
  gi_before_NoDup : ∀ x, NoDup (before (G !!! x)) }.

(** The state in the middle of a layer of the peeling.  [G0] is the graph
    when the peeling starts, [seen] are the nodes of the earlier layers, [C]
    is the current layer, [st] the graph and the next layer so far;
    [gone y x] says that this layer has already deleted [y] from the [after]
    set of [x]. *)
Record Mid (G0 : Graph) (nodes seen C : list nat) (gone : nat → nat → Prop)
    (st : Graph * list nat) : Prop := {
  mid_before : ∀ x, before (st.1 !!! x) = before (G0 !!! x);
  mid_feature : ∀ x, feature (st.1 !!! x) = feature (G0 !!! x);
  mid_after : ∀ x y, y ∈ after (G0 !!! x) → y ∈ after (st.1 !!! x) ∨ y ∈ seen ∨ gone y x;
  mid_exact : ∀ x y, y ∈ after (st.1 !!! x) →
                     y ∈ after (G0 !!! x) ∧ (y ∉ seen) ∧ (¬ gone y x);
  mid_empty : ∀ x, x ∈ seen ∨ x ∈ C ∨ x ∈ st.2 → after (st.1 !!! x) = [];
  mid_linked : ∀ x, x ∈ seen ∨ x ∈ C ∨ x ∈ st.2 →
                    before (G0 !!! x) ≠ [] ∨ after (G0 !!! x) ≠ [];
  mid_next_nodes : ∀ x, x ∈ st.2 → x ∈ nodes;
  mid_NoDup : NoDup (seen ++ C ++ st.2);
  mid_complete : ∀ x, x ∈ nodes → after (st.1 !!! x) = [] →
                      x ∈ seen ∨ x ∈ C ∨ x ∈ st.2
                      ∨ (before (G0 !!! x) = [] ∧ after (G0 !!! x) = []) }.

(** The state between two layers: [ordered] holds the features of the nodes
    of the layers done, each after all those it installs after. *)
Record Layer (G0 : Graph) (nodes seen current : list nat) (G : Graph)
    (ordered : list nat) : Prop := {
  layer_mid : Mid G0 nodes seen current (fun _ _ => False) (G, []);
  layer_seen_nodes : ∀ x, x ∈ seen → x ∈ nodes;
  layer_current_nodes : ∀ x, x ∈ current → x ∈ nodes;
  layer_ordered : Permutation ordered (map (fun x => feature (G0 !!! x)) seen);
  layer_valid : ∀ j x y, x ∈ nodes → ordered !! j = Some (feature (G0 !!! x)) →
                         y ∈ after (G0 !!! x) →
                         ∃ i, i < j ∧ ordered !! i = Some (feature (G0 !!! y)) }.

(** [needle] occurs in [s]. *)
Fixpoint occursIn (needle s : string) : bool :=
  String.prefix needle s
  || match s with
     | EmptyString => false
     | String _ r => occursIn needle r
     end.

(** No installs-after edge starts or ends at the node [x]. *)
Definition unrelated (σ : Store) (features : list nat) (x : nat) : Prop :=
  ∀ y, ¬ installsAfterEdge σ features x y ∧ ¬ installsAfterEdge σ features y x.

(** *** Invariant of the builder *)

(** The manifest fetches among the events, in order. *)
Definition fetched (events : list Event) : list string :=
  flat_map (fun e => match e with Fetch identifier => [identifier] | Write _ _ => [] end) events.

(** The state of the builder between two turns: every dependency of an
    accumulated node is equal, for [fNodeEquality], to an accumulated node
    or still waits in the worklist; the nodes that wait have no dependency
    yet; one manifest has been fetched for each accumulated node. *)
Record Closed (s : BuildState) : Prop := {
  cl_inv : BuildInv s;
  cl_NoDup : NoDup (worklist s);
  cl_fresh : ∀ r, r ∈ worklist s → dependsOn (heap s !!! r) = [];
  cl_range : ∀ n d, n ∈ acc s → d ∈ dependsOn (heap s !!! n) → d < length (heap s);
  cl_closed : ∀ n d, n ∈ acc s → d ∈ dependsOn (heap s !!! n) →
                (∃ m, m ∈ acc s ∧ fNodeEquality (heap s !!! m) (heap s !!! d) = true)
                ∨ d ∈ worklist s;
  cl_fetched : fetched (events s) = map (fun n => id (heap s !!! n)) (acc s) }.

(** The nodes of [nodes] can be ranked so that every node ranks above the
    nodes that its dependencies are equal to. *)
Definition dependsOnRanked (h : Heap) (nodes : list nat) : Prop :=
  ∃ rank : nat → nat,
    ∀ n d m, n ∈ nodes → d ∈ dependsOn (h !!! n) → m ∈ nodes →
             fNodeEquality (h !!! m) (h !!! d) = true → rank m < rank n.

(** ** The control manifest *)

(** A value as [jsonc.parse] gives it.  An object is the list of the
    properties that a read finds on it, each key once, in the order of
    [Object.entries]; a key that is not listed reads as [undefined].  Of a
    number only its type is looked at. *)
#[warnings="-register-all"]
Inductive JSValue :=
| JUndefined
| JNull
| JBoolean (b : bool)
| JNumber (n : Q)
| JString (s : string)
| JArray (items : list JSValue)
| JObject (entries : list (string * JSValue)).

(** [DevContainerControlManifest]; the entries are kept as they were parsed. *)
Record DevContainerControlManifest := {
  disallowedFeatures : list JSValue }.

Definition emptyControlManifest : DevContainerControlManifest :=
  {| disallowedFeatures := [] |}.

Definition cacheTimeoutMillis : Q := (5 * 60 * 1000)%Q.

(** [typeof v === 'string'] *)
Definition typeof_string (v : JSValue) : bool :=
  match v with JString _ => true | _ => false end.

(** [f.featureIdPrefix]: reading a property of [null] or [undefined] throws
    a [TypeError]; a primitive and an array have no such property. *)
Definition featureIdPrefixOf (f : JSValue) : Completion JSValue :=
  match f with
  | JUndefined =>
      Thrown "TypeError: Cannot read properties of undefined (reading 'featureIdPrefix')"
  | JNull =>
      Thrown "TypeError: Cannot read properties of null (reading 'featureIdPrefix')"
  | JObject entries => Returned (default JUndefined (JS.Map_get entries "featureIdPrefix"))
  | _ => Returned JUndefined
  end.

(** [l.filter(p)] with a callback that may throw. *)
Fixpoint Array_filter_throwing {A} (p : A → Completion bool) (l : list A)
  : Completion (list A) :=
  match l with
  | [] => Returned []
  | x :: r =>
      bind (p x) (fun keep =>
        bind (Array_filter_throwing p r) (fun r' =>
          Returned (if keep then x :: r' else r')))
  end.

(** [sanitizeControlManifest(manifest)] *)
Definition sanitizeControlManifest (manifest : JSValue)
  : Completion DevContainerControlManifest :=
  match manifest with
  | JObject entries =>
      match JS.Map_get entries "disallowedFeatures" with
      | Some (JArray disallowedFeatures) =>
          bind (Array_filter_throwing
                  (fun f => bind (featureIdPrefixOf f) (fun v => Returned (typeof_string v)))
                  disallowedFeatures)
               (fun l => Returned {| disallowedFeatures := l |})
      | _ => Returned {| disallowedFeatures := [] |}
      end
  | JArray _ => Returned {| disallowedFeatures := [] |}
  | _ => Returned emptyControlManifest
  end.

(** A rejection value: an error with its message and, for the errors of the
    file system, its code. *)
Record JSError := {
  code : option string;
  message : string }.

(** How a promise of the host settles, if it does. *)
Inductive Settled (A : Type) :=
| Fulfilled (a : A)
| Rejected (err : JSError)
| Pending.
Arguments Fulfilled {A} a.
Arguments Rejected {A} err.
Arguments Pending {A}.

Record Stats := {
  isFile : bool;
  mtimeMs : Q }.

(** The calls to the host that a run makes, each at most once, and what
    they answer: the file system, the clock, the network, the random UUID,
    and the parser.  A buffer stands as the string that [toString()] gives. *)
Record Host := {
  controlManifestPath : string;
  path_dirname : string → string;
  jsonc_parse : string → JSValue;
  fs_stat : Settled Stats;
  fs_readFile : Settled string;
  Date_now : Q;
  request : Settled string;
  new_Date : Q;
  fs_utimes : Settled unit;
  crypto_randomUUID : string;
  fs_mkdir : Settled unit;
  fs_writeFile : Settled unit;
  fs_rename : Settled unit }.

(** What a run does to the outside, in order. *)
Inductive Effect :=
| FsStat (path : string)
| FsReadFile (path : string)
| HttpGet (url : string)
| OutputWrite (text : string) (level : LogLevel)
| FsUtimes (path : string) (atime mtime : Q)
| FsMkdir (path : string)
| FsWriteFile (path data : string)
| FsRename (oldPath newPath : string).

(** A computation that performs effects and completes. *)
Definition Run (A : Type) : Type := list Effect * Completion A.

Definition ret {A} (a : A) : Run A := ([], Returned a).

Definition andThen {A B} (m : Run A) (k : A → Run B) : Run B :=
  match m with
  | (effects, Returned a) => let r := k a in (effects ++ r.1, r.2)
  | (effects, Thrown m) => (effects, Thrown m)
  | (effects, Diverged) => (effects, Diverged)
  end.

(** [await p] for a call [p] to the host. *)
Definition await {A} (effect : Effect) (p : Settled A) : Run A :=
  ([effect],
   match p with
   | Fulfilled a => Returned a
   | Rejected err => Thrown (message err)
   | Pending => Diverged
   end).

(** [await p.catch(err => { if (err?.code !== 'ENOENT') { throw err; } })] *)
Definition awaitUnlessENOENT {A} (effect : Effect) (p : Settled A) : Run (option A) :=
  ([effect],
   match p with
   | Fulfilled a => Returned (Some a)
   | Rejected err =>
       match code err with
       | Some c => if String.eqb c "ENOENT" then Returned None else Thrown (message err)
       | None => Thrown (message err)
       end
   | Pending => Diverged
   end).

Definition lift {A} (c : Completion A) : Run A := ([], c).

Definition newline : string := String (ascii_of_nat 10) EmptyString.

(** [JSON.stringify(emptyControlManifest, undefined, 2)] *)
Definition emptyControlManifestText : string :=
  "{" +:+ newline +:+ "  " +:+ JS.dquote +:+ "disallowedFeatures" +:+ JS.dquote +:+ ": []"
  +:+ newline +:+ "}".

Definition controlManifestURL : string :=
  "https://containers.dev/static/devcontainer-control-manifest.json".

(** [fetchControlManifest()] *)
Definition fetchControlManifest (host : Host) : Run string :=
  await (HttpGet controlManifestURL) (request host).

(** The part of [updateControlManifest] after the [try] statement. *)
Definition storeControlManifest (host : Host) (manifestBuffer : string)
  : Run DevContainerControlManifest :=
  let controlManifestTmpPath :=
    controlManifestPath host +:+ "-" +:+ crypto_randomUUID host in
  andThen (await (FsMkdir (path_dirname host (controlManifestPath host))) (fs_mkdir host))
    (fun _ =>
  andThen (await (FsWriteFile controlManifestTmpPath manifestBuffer) (fs_writeFile host))
    (fun _ =>
  andThen (await (FsRename controlManifestTmpPath (controlManifestPath host)) (fs_rename host))
    (fun _ => lift (sanitizeControlManifest (jsonc_parse host manifestBuffer))))).

(** [updateControlManifest(oldManifest, output)] *)
Definition updateControlManifest (host : Host)
    (oldManifest : option DevContainerControlManifest) : Run DevContainerControlManifest :=
  match fetchControlManifest host with
  | (effects, Returned manifestBuffer) =>
      andThen (effects, Returned tt) (fun _ => storeControlManifest host manifestBuffer)
  | (effects, Thrown m) =>
      andThen (effects ++ [OutputWrite ("Failed to fetch control manifest: " +:+ m) Error],
               Returned tt)
        (fun _ =>
           match oldManifest with
           | Some old =>
               andThen (await (FsUtimes (controlManifestPath host) (new_Date host) (new_Date host))
                              (fs_utimes host))
                       (fun _ => ret old)
           | None => storeControlManifest host emptyControlManifestText
           end)
  | (effects, Diverged) => (effects, Diverged)
  end.

(** [getControlManifest(output)] *)
Definition getControlManifest (host : Host) : Run DevContainerControlManifest :=
  andThen (awaitUnlessENOENT (FsStat (controlManifestPath host)) (fs_stat host))
    (fun cacheStat =>
  andThen (match cacheStat with
           | Some st =>
               if isFile st
               then awaitUnlessENOENT (FsReadFile (controlManifestPath host)) (fs_readFile host)
               else ret None
           | None => ret None
           end)
    (fun cacheBuffer =>
  andThen (match cacheBuffer with
           | Some buffer =>
               andThen (lift (sanitizeControlManifest (jsonc_parse host buffer)))
                       (fun m => ret (Some m))
           | None => ret None
           end)
    (fun cachedManifest =>
       match cacheStat, cachedManifest with
       | Some st, Some cached =>
           if negb (Qle_bool (mtimeMs st + cacheTimeoutMillis)%Q (Date_now host))
           then ret cached
           else updateControlManifest host cachedManifest
       | _, _ => updateControlManifest host cachedManifest
       end))).

(** An entry that the sanitizer keeps: an object whose [featureIdPrefix] is
    a string. *)
Definition hasStringPrefix (f : JSValue) : Prop :=
  ∃ entries s, f = JObject entries ∧ JS.Map_get entries "featureIdPrefix" = Some (JString s).

(** The cache as a run finds it: the status and the content of the cache
    file, when it is a file that can be read. *)
Definition cacheOf (host : Host) : option (Stats * string) :=
  match fs_stat host with
  | Fulfilled st =>
      if isFile st then
        match fs_readFile host with
        | Fulfilled buffer => Some (st, buffer)
        | _ => None
        end
      else None
  | _ => None
  end.

(** [cacheStat.mtimeMs + cacheTimeoutMillis > Date.now()] *)
Definition younger (host : Host) (st : Stats) : Prop :=
  (Date_now host < mtimeMs st + cacheTimeoutMillis)%Q.

(** *** Layers of the soft order *)

(** [depth] numbers the layers of the installs-after edges: a node that
    installs after no other is at depth [0], any other one above the deepest
    node that it installs after. *)
Definition layering (σ : Store) (features : list nat) (depth : nat → nat) : Prop :=
  ∀ x, x ∈ p_nodes (prepare σ features) →
    ((∀ y, ¬ installsAfterEdge σ features x y) → depth x = 0)
    ∧ (∀ y, installsAfterEdge σ features x y → depth y < depth x)
    ∧ ((∃ y, installsAfterEdge σ features x y) →
       ∃ y, installsAfterEdge σ features x y ∧ depth x = S (depth y)).

(** The feature [fa] stands before the feature [fb] in the order by depth,
    then by identifier. *)
Definition byDepthThenId (σ : Store) (depth : nat → nat) (G0 : Graph) (nodes : list nat)
    (fa fb : nat) : Prop :=
  ∀ a b, a ∈ nodes → b ∈ nodes → feature (G0 !!! a) = fa → feature (G0 !!! b) = fb →
    depth a < depth b
    ∨ (depth a = depth b
       ∧ JS.string_lt (userFeatureIdOf σ fa) (userFeatureIdOf σ fb) = true).

(** The state between two layers of the peeling, with the depths: the layers
    done hold the nodes of depth below [k], the current layer nodes of depth
    [k]. *)
Record Ranked (σ : Store) (depth : nat → nat) (G0 : Graph) (nodes : list nat)
    (k : nat) (seen current ordered : list nat) : Prop := {
  rk_current : ∀ x, x ∈ current → depth x = k;
  rk_seen : ∀ x, x ∈ seen → depth x < k;
  rk_sorted : StronglySorted (byDepthThenId σ depth G0 nodes) ordered }.

(** *** Rounds of the hard order *)

(** [depth] numbers the rounds of the dependencies among [nodes]: a node
    without dependencies is at depth [0], any other one above the deepest
    node that a dependency of it is equal to. *)
Definition roundNumbering (h : Heap) (nodes : list nat) (depth : nat → nat) : Prop :=
  ∀ n, n ∈ nodes →
    (dependsOn (h !!! n) = [] → depth n = 0)
    ∧ (∀ d m, d ∈ dependsOn (h !!! n) → m ∈ nodes →
              fNodeEquality (h !!! m) (h !!! d) = true → depth m < depth n)
    ∧ (dependsOn (h !!! n) ≠ [] →
       ∃ d m, d ∈ dependsOn (h !!! n) ∧ m ∈ nodes
              ∧ fNodeEquality (h !!! m) (h !!! d) = true ∧ depth n = S (depth m)).

(** The comparator of the rounds puts [a] before [b], or takes them as equal. *)
Definition sortsBefore (params : CommonParams) (h : Heap) (a b : nat) : Prop :=
  ∃ c, fNodeStableSort params (h !!! a) (h !!! b) = Returned c ∧ (c <= 0)%Z.

(** The comparator orders the nodes of [nodes] consistently. *)
Definition consistentComparator (params : CommonParams) (h : Heap) (nodes : list nat) : Prop :=
  (∀ a b c, a ∈ nodes → b ∈ nodes → c ∈ nodes →
            sortsBefore params h a b → sortsBefore params h b c → sortsBefore params h a c)
  ∧ (∀ a b c, a ∈ nodes → b ∈ nodes →
              fNodeStableSort params (h !!! a) (h !!! b) = Returned c → (0 < c)%Z →
              sortsBefore params h b a).

(** [a] stands before [b] in the order by round, then by the comparator. *)
Definition byRoundThenComparator (params : CommonParams) (h : Heap) (depth : nat → nat)
    (a b : nat) : Prop :=
  depth a < depth b ∨ (depth a = depth b ∧ sortsBefore params h a b).

(** ** Example inputs *)

Module Ex.

(** A descriptor that is not from a registry. *)
Definition plain (uid : string) (after : option (list string)) : FeatureSet :=
  {| sourceInformation := {| type := "file-path"; userFeatureId := uid;
                             userFeatureIdWithoutVersion := Some (JS.split_colon_0 uid);
                             featureRef := None |};
     features_0 := {| legacyIds := None; currentId := Some uid; installsAfter := after |} |}.

(** A registry descriptor with legacy ids. *)
Definition oci (uid : string) (legacy : list string) (after : option (list string)) : FeatureSet :=
  {| sourceInformation := {| type := "oci"; userFeatureId := uid;
                             userFeatureIdWithoutVersion := Some (JS.split_colon_0 uid);
                             featureRef := Some {| registry := "ghcr.io"; namespace := "acme";
                                                   resource := "ghcr.io/acme/" +:+ uid |} |};
     features_0 := {| legacyIds := Some legacy; currentId := Some uid; installsAfter := after |} |}.

(** Three unrelated features, handed over in the order b, a, c. *)
Definition bac : Store := [plain "b" None; plain "a" None; plain "c" None].

(** c installs after b, b installs after a. *)
Definition chain : Store := [plain "c" (Some ["b"]); plain "a" None; plain "b" (Some ["a"])].

(** a and b install after each other; c is unrelated. *)
Definition cycle : Store := [plain "a" (Some ["b"]); plain "b" (Some ["a"]); plain "c" None].


(** z has the legacy id old; a installs after the qualified legacy id. *)
Definition legacy : Store :=
  [oci "z" ["old"] None; plain "a" (Some ["ghcr.io/acme/old"])].

Definition override (ids : list string) : DevContainerConfig :=
  {| overrideFeatureInstallOrder := Some ids |}.

Definition compareCodeUnits (a b : string) : Z :=
  match String.compare a b with Lt => (-1)%Z | Eq => 0%Z | Gt => 1%Z end.

(** A registry given by the dependencies of each identifier, and the
    features of the user's configuration.  The text of a [dependsOn]
    annotation is the identifier itself, and [JSON.parse] looks the
    dependencies up; every feature has the empty options record. *)
Definition registryOf (deps : string → option (list (string * Options)))
    (roots : list (string * Options)) : CommonParams :=
  {| getRef := fun i => Some {| registry := "ghcr.io"; namespace := "acme"; resource := i |};
     fetchOCIFeatureManifestIfExistsFromUserIdentifier := fun i =>
       Returned (Some {| annotations :=
                           match deps i with
                           | Some _ => Some [("dev.containers.experimental.dependsOn", i)]
                           | None => None
                           end |});
     JSON_parse := fun i => Returned (default [] (deps i));
     userFeaturesToArray := fun _ => Some roots;
     localeCompare := compareCodeUnits |}.

(** a depends on b, b depends on c. *)
Definition abc : CommonParams :=
  registryOf (fun i => if String.eqb i "a" then Some [("b", ORecord [])]
                       else if String.eqb i "b" then Some [("c", ORecord [])] else None)
             [("a", ORecord [])].

(** x depends on z, z depends on x. *)
Definition xz : CommonParams :=
  registryOf (fun i => if String.eqb i "x" then Some [("z", ORecord [])]
                       else if String.eqb i "z" then Some [("x", ORecord [])] else None)
             [("x", ORecord [])].

Definition noOverride : DevContainerConfig := {| overrideFeatureInstallOrder := None |}.

(** One identifier with the same two options, written in both key orders. *)
Definition node_ab : FNode :=
  {| id := "ghcr.io/acme/tool";
     options := ORecord [("a", OVString "1"); ("b", OVString "2")]; dependsOn := [] |}.
Definition node_ba : FNode :=
  {| id := "ghcr.io/acme/tool";
     options := ORecord [("b", OVString "2"); ("a", OVString "1")]; dependsOn := [] |}.

(** c installs after b; a is unrelated to both. *)
Definition island : Store := [plain "a" None; plain "c" (Some ["b"]); plain "b" None].

(** A control manifest that disallows the features with the given prefixes. *)
Definition manifestOf (prefixes : list string) : JSValue :=
  JObject [("disallowedFeatures",
            JArray (map (fun p => JObject [("featureIdPrefix", JString p)]) prefixes))].

(** A manifest with an entry that is kept and two that are dropped. *)
Definition mixedManifest : JSValue :=
  JObject [("disallowedFeatures",
            JArray [JObject [("featureIdPrefix", JString "ghcr.io/acme/bad")];
                    JString "ghcr.io/acme/worse";
                    JObject [("featureIdPrefix", JNumber 1)]])].

(** A host on which every call succeeds, but for the four that are given.
    Its parser reads the text of the empty manifest as such, and any other
    text as the manifest that disallows the one prefix that the text is. *)
Definition hostOf (stat : Settled Stats) (read : Settled string) (now : Q)
    (answer : Settled string) : Host :=
  {| controlManifestPath := "/home/u/.devcontainer/cache/control-manifest.json";
     path_dirname := fun _ => "/home/u/.devcontainer/cache";
     jsonc_parse := fun text =>
       if String.eqb text emptyControlManifestText then manifestOf [] else manifestOf [text];
     fs_stat := stat;
     fs_readFile := read;
     Date_now := now;
     request := answer;
     new_Date := now;
     fs_utimes := Fulfilled tt;
     crypto_randomUUID := "1b9d6bcd";
     fs_mkdir := Fulfilled tt;
     fs_writeFile := Fulfilled tt;
     fs_rename := Fulfilled tt |}.

(** A cache file written at 1000 ms that disallows [old/]. *)
Definition cached : Settled Stats := Fulfilled {| isFile := true; mtimeMs := 1000 |}.
Definition cachedText : Settled string := Fulfilled "old/".
Definition noEntry {A} : Settled A :=
  Rejected {| code := Some "ENOENT"; message := "ENOENT: no such file or directory" |}.
Definition offline {A} : Settled A :=
  Rejected {| code := Some "ENOTFOUND"; message := "getaddrinfo ENOTFOUND containers.dev" |}.

(** A feature that lists itself in [installsAfter], and one that does not. *)
Definition selfish : Store := [plain "a" (Some ["a"]); plain "b" None].

(** a depends on a. *)
Definition narcissus : CommonParams :=
  registryOf (fun i => if String.eqb i "a" then Some [("a", ORecord [])] else None)
                [("a", ORecord [])].

(** The nodes that the builder leaves for [abc]: a, b and c, each with the
    node it depends on. *)
Definition abcHeap : Heap :=
  [{| id := "a"; options := ORecord []; dependsOn := [1] |};
   {| id := "b"; options := ORecord []; dependsOn := [2] |};
   {| id := "c"; options := ORecord []; dependsOn := [] |}].

End Ex.

(** * Properties *)

(** ** Structural equality of nodes *)

Lemma strict_ne_false (x y : option string) : strict_ne x y = false ↔ x = y.
Proof.
  destruct x as [a|], y as [b|]; simpl; split; try congruence; try done.
  - rewrite negb_false_iff, String.eqb_eq. congruence.
  - intros [= ->]. by rewrite String.eqb_refl.
Qed.

(** What the source compares: the identifiers and the serialized options. *)
Lemma fNodeEquality_spec (a b : FNode) :
  fNodeEquality a b = true ↔
  id a = id b ∧ JSON_stringify (options a) = JSON_stringify (options b).
Proof.
  unfold fNodeEquality.
  destruct (String.eqb (id a) (id b)) eqn:E; simpl.
  - apply String.eqb_eq in E.
    destruct (strict_ne _ _) eqn:N.
    + split; [done|]. intros [_ H]. apply strict_ne_false in H. congruence.
    + apply strict_ne_false in N. done.
  - apply String.eqb_neq in E. split; [done|]. intros [H _]. done.
Qed.

Lemma fNodeEquality_refl (a : FNode) : fNodeEquality a a = true.
Proof. by apply fNodeEquality_spec. Qed.

(** C5: two nodes with the same identifier whose options hold the same
    key/value pairs, inserted in different key orders, are not equal for
    [fNodeEquality], although the specification makes them structurally
    equal: the serialization that the source compares follows the insertion
    order. *)
Theorem fNodeEquality_depends_on_key_order :
  id Ex.node_ab = id Ex.node_ba ∧
  (∀ k, optionOf [("a", OVString "1"); ("b", OVString "2")] k
        = optionOf [("b", OVString "2"); ("a", OVString "1")] k) ∧
  options Ex.node_ab = ORecord [("a", OVString "1"); ("b", OVString "2")] ∧
  options Ex.node_ba = ORecord [("b", OVString "2"); ("a", OVString "1")] ∧
  fNodeEquality Ex.node_ab Ex.node_ba = false.
Proof.
  split; [done|]. split; [|by repeat split].
  intros k. unfold optionOf. cbn [JS.Map_get].
  destruct (String.eqb "a" k) eqn:Ea, (String.eqb "b" k) eqn:Eb; try done.
  apply String.eqb_eq in Ea, Eb. congruence.
Qed.

(** ** The override post-processor on concrete inputs *)

(** C2: with the override list [c, c] on the features b, a, c the result
    holds c twice and has lost a: the second [find] still sees c in the
    automatic order, [indexOf] gives -1 on the array that no longer holds c,
    and [splice(-1, 1)] removes its last element. *)
Theorem override_repeated_identifier_gives_duplicate :
  computeOverrideInstallationOrder Ex.bac (Ex.override ["c"; "c"]) [0; 1; 2]
    = (Ex.bac, [0], Returned [2; 2; 0])
  ∧ ¬ NoDup [2; 2; 0].
Proof.
  split; [by vm_compute|].
  intros H. apply NoDup_cons in H as [H _]. apply H. by left.
Qed.

(** C3: for the features b, a, c (in this order in the caller's array) the
    automatic order is a, b, c; with the override list [c] the result is
    c, b, a: what follows c is the caller's array less c, not the automatic
    order. *)
Theorem override_rest_is_in_input_order :
  (computeInstallationOrder Ex.bac [0; 1; 2]).2 = Returned [1; 0; 2]
  ∧ (computeOverrideInstallationOrder Ex.bac (Ex.override ["c"]) [0; 1; 2]).2
    = Returned [2; 0; 1].
Proof. split; by vm_compute. Qed.

(** ** The soft path called twice *)

(** C4: a second call on the same descriptors does not give the order of the
    first.  The first call finds z as the target of [ghcr.io/acme/old] and
    leaves the legacy id of z qualified in the store; the second call
    qualifies it once more, the edge is not found, and a comes before z. *)
Theorem second_call_gives_another_order :
  let first := computeInstallationOrder Ex.legacy [0; 1] in
  let second := computeInstallationOrder first.1 [0; 1] in
  first.2 = Returned [0; 1]
  ∧ legacyIds (features_0 (first.1 !!! 0)) = Some ["ghcr.io/acme/old"]
  ∧ second.2 = Returned [1; 0]
  ∧ legacyIds (features_0 (second.1 !!! 0)) = Some ["ghcr.io/acme/ghcr.io/acme/old"].
Proof. repeat split; by vm_compute. Qed.

(** ** The builder and the explicit loop *)

Section Builder.
Context (params : CommonParams).

(** A call that returns has emptied the shared worklist and returns [acc]. *)
Lemma _buildDependencyGraph_returned fuel s s' x :
  _buildDependencyGraph fuel params s = (s', Returned x) →
  worklist s' = [] ∧ x = acc s'.
Proof.
  revert s s' x. induction fuel as [|fuel IH]; intros s s' x; simpl.
  - destruct (worklist s) eqn:W; [|done]. intros [= <- <-]. done.
  - destruct (worklist s) as [|current rest] eqn:W.
    + intros [= <- <-]. done.
    + destruct (turn params current (shifted s rest)) as [s1 t]. destruct t.
      * apply IH.
      * destruct (_buildDependencyGraph fuel params s1) as [s2 c]. destruct c.
        -- apply IH.
        -- done.
        -- done.
      * done.
      * done.
Qed.

Lemma buildDependencyGraphLoop_returned fuel s s' x :
  buildDependencyGraphLoop fuel params s = (s', Returned x) →
  worklist s' = [] ∧ x = acc s'.
Proof.
  revert s s' x. induction fuel as [|fuel IH]; intros s s' x; simpl.
  - destruct (worklist s) eqn:W; [|done]. intros [= <- <-]. done.
  - destruct (worklist s) as [|current rest] eqn:W.
    + intros [= <- <-]. done.
    + destruct (turn params current (shifted s rest)) as [s1 t]. destruct t; try done; apply IH.
Qed.

(** On an empty worklist a call returns at once, whatever its budget. *)
Lemma _buildDependencyGraph_empty fuel s :
  worklist s = [] → _buildDependencyGraph fuel params s = (s, Returned (acc s)).
Proof. intros W. destruct fuel; simpl; by rewrite W. Qed.

Lemma loop_refines_recursion fuel s r :
  buildDependencyGraphLoop fuel params s = r → r.2 ≠ Diverged →
  ∃ fuel', _buildDependencyGraph fuel' params s = r.
Proof.
  revert s r. induction fuel as [|fuel IH]; intros s r; simpl.
  - destruct (worklist s) eqn:W.
    + intros <- _. exists 0. simpl. by rewrite W.
    + intros <- H. done.
  - destruct (worklist s) as [|current rest] eqn:W.
    + intros <- _. exists 0. simpl. by rewrite W.
    + destruct (turn params current (shifted s rest)) as [s1 t] eqn:T. destruct t.
      * intros H ND. destruct (IH _ _ H ND) as [f' Hf'].
        exists (S f'). simpl. by rewrite W, T.
      * intros H ND. destruct (IH _ _ H ND) as [f' Hf'].
        exists (S f'). simpl. rewrite W, T, Hf'.
        destruct r as [s2 c]. destruct c as [x| |]; try done.
        destruct (buildDependencyGraphLoop_returned _ _ _ _ H) as [E ->].
        by apply _buildDependencyGraph_empty.
      * intros <- _. exists 1. simpl. by rewrite W, T.
      * intros <- H. done.
Qed.

Lemma recursion_refines_loop fuel s r :
  _buildDependencyGraph fuel params s = r → r.2 ≠ Diverged →
  ∃ fuel', buildDependencyGraphLoop fuel' params s = r.
Proof.
  revert s r. induction fuel as [|fuel IH]; intros s r; simpl.
  - destruct (worklist s) eqn:W.
    + intros <- _. exists 0. simpl. by rewrite W.
    + intros <- H. done.
  - destruct (worklist s) as [|current rest] eqn:W.
    + intros <- _. exists 0. simpl. by rewrite W.
    + destruct (turn params current (shifted s rest)) as [s1 t] eqn:T. destruct t.
      * intros H ND. destruct (IH _ _ H ND) as [f' Hf'].
        exists (S f'). simpl. by rewrite W, T.
      * destruct (_buildDependencyGraph fuel params s1) as [s2 c] eqn:B. destruct c as [x|m|].
        -- intros H ND.
           destruct (_buildDependencyGraph_returned _ _ _ _ B) as [E ->].
           rewrite (_buildDependencyGraph_empty _ _ E) in H. subst r.
           destruct (IH _ _ B) as [f' Hf']; [done|].
           exists (S f'). simpl. by rewrite W, T.
        -- intros <- _. destruct (IH _ _ B) as [f' Hf']; [done|].
           exists (S f'). simpl. by rewrite W, T.
        -- intros <- H. done.
      * intros <- _. exists 1. simpl. by rewrite W, T.
      * intros <- H. done.
Qed.

End Builder.

(** C10: [_buildDependencyGraph], with its call to itself, and the plain
    loop over the worklist complete in the same way from every state: the
    same final heap of nodes, worklist, accumulated list and sequence of log
    lines and fetches, and the same returned list or thrown error.  Neither
    completes when the other does not. *)
Theorem buildDependencyGraph_is_a_loop (params : CommonParams) (s : BuildState)
    (r : BuildState * Completion (list nat)) :
  (∃ fuel, _buildDependencyGraph fuel params s = r ∧ r.2 ≠ Diverged)
  ↔ (∃ fuel, buildDependencyGraphLoop fuel params s = r ∧ r.2 ≠ Diverged).
Proof.
  split; intros (fuel & H & ND).
  - destruct (recursion_refines_loop params fuel s r H ND) as [f' Hf']. eauto.
  - destruct (loop_refines_recursion params fuel s r H ND) as [f' Hf']. eauto.
Qed.

(** ** The round scheduler *)

Lemma sort_insert_throwing_Permutation {A} (cmp : A → A → Completion Z) x l l' :
  JS.sort_insert_throwing cmp x l = Returned l' → Permutation l' (x :: l).
Proof.
  revert l'. induction l as [|y r IH]; intros l'; simpl.
  - intros [= <-]. done.
  - destruct (cmp x y) as [c| |]; simpl; try done.
    destruct (c <=? 0)%Z.
    + intros [= <-]. done.
    + destruct (JS.sort_insert_throwing cmp x r) as [r'| |]; simpl; try done.
      intros [= <-]. rewrite (IH r' eq_refl). apply perm_swap.
Qed.

Lemma sort_throwing_Permutation {A} (cmp : A → A → Completion Z) l l' :
  JS.sort_throwing cmp l = Returned l' → Permutation l' l.
Proof.
  revert l'. induction l as [|x r IH]; intros l'; simpl.
  - intros [= <-]. done.
  - destruct (JS.sort_throwing cmp r) as [r'| |]; simpl; try done.
    intros H. apply sort_insert_throwing_Permutation in H.
    rewrite H. constructor. by apply IH.
Qed.

(** The only error of the comparator is the [TypeError] on absent options. *)
Lemma sort_insert_throwing_Thrown params (h : Heap) x l m :
  JS.sort_insert_throwing (fun a b => fNodeStableSort params (h !!! a) (h !!! b)) x l = Thrown m →
  m = "TypeError: Cannot read properties of undefined (reading 'localeCompare')".
Proof.
  induction l as [|y r IH]; simpl; [done|].
  destruct (fNodeStableSort params (h !!! x) (h !!! y)) as [c|m'|] eqn:C; simpl; try done.
  - destruct (c <=? 0)%Z; [done|].
    destruct (JS.sort_insert_throwing _ x r) as [r'| |]; simpl; done.
  - intros [= <-]. unfold fNodeStableSort in C.
    destruct (negb _); [done|]. destruct (strict_ne _ _); [|done].
    destruct (JSON_stringify (options (h !!! x))); [done|]. by injection C.
Qed.

Lemma sort_throwing_Thrown params (h : Heap) l m :
  JS.sort_throwing (fun a b => fNodeStableSort params (h !!! a) (h !!! b)) l = Thrown m →
  m = "TypeError: Cannot read properties of undefined (reading 'localeCompare')".
Proof.
  induction l as [|x r IH]; simpl; [done|].
  destruct (JS.sort_throwing _ r) as [r'| |]; simpl; try done.
  apply sort_insert_throwing_Thrown.
Qed.

Lemma sort_throwing_not_Diverged params (h : Heap) l :
  JS.sort_throwing (fun a b => fNodeStableSort params (h !!! a) (h !!! b)) l ≠ Diverged.
Proof.
  assert (I : ∀ x l, JS.sort_insert_throwing
                       (fun a b => fNodeStableSort params (h !!! a) (h !!! b)) x l ≠ Diverged).
  { intros x l'. induction l' as [|y r IH]; simpl; [done|].
    destruct (fNodeStableSort params (h !!! x) (h !!! y)) as [c|m'|] eqn:C; simpl; try done.
    - destruct (c <=? 0)%Z; [done|].
      destruct (JS.sort_insert_throwing _ x r) as [r'| |]; simpl; done.
    - unfold fNodeStableSort in C.
      destruct (negb _); [done|]. destruct (strict_ne _ _); [|done].
      by destruct (JSON_stringify (options (h !!! x))). }
  induction l as [|x r IH]; simpl; [done|].
  destruct (JS.sort_throwing _ r) as [r'| |]; simpl; done.
Qed.

Lemma ready_true h installationOrder node d :
  ready h installationOrder node = true → d ∈ dependsOn (h !!! node) →
  ∃ j b, installationOrder !! j = Some b ∧ fNodeEquality (h !!! b) (h !!! d) = true.
Proof.
  unfold ready. intros H Hd. apply orb_true_iff in H as [H|H].
  - apply Nat.eqb_eq in H. destruct (dependsOn (h !!! node)); [|done].
    by apply not_elem_of_nil in Hd.
  - rewrite forallb_forall in H. apply list_elem_of_In in Hd.
    specialize (H d Hd). apply existsb_exists in H as (b & Hb & E).
    apply list_elem_of_In, list_elem_of_lookup in Hb as [j Hj]. eauto.
Qed.

Lemma dependenciesFirst_app h installationOrder round :
  dependenciesFirst h installationOrder →
  (∀ a, a ∈ round → ready h installationOrder a = true) →
  dependenciesFirst h (installationOrder ++ round).
Proof.
  intros Hio Hr i a d Hi Hd.
  destruct (decide (i < length installationOrder)) as [Hlt|Hge].
  - rewrite lookup_app_l in Hi by done.
    destruct (Hio i a d Hi Hd) as (j & b & Hj & Hb & E).
    exists j, b. split; [done|]. split; [|done]. rewrite lookup_app_l by lia. done.
  - rewrite lookup_app_r in Hi by lia.
    assert (Ha : a ∈ round) by (apply list_elem_of_lookup; eauto).
    destruct (ready_true _ _ _ _ (Hr a Ha) Hd) as (j & b & Hb & E).
    exists j, b. apply lookup_lt_Some in Hb as Hlt.
    split; [lia|]. split; [|done]. by rewrite lookup_app_l.
Qed.

Lemma rounds_dependenciesFirst fuel params h wl installationOrder evs evs' out :
  dependenciesFirst h installationOrder →
  rounds fuel params h wl installationOrder evs = (evs', Returned out) →
  dependenciesFirst h out.
Proof.
  revert wl installationOrder evs.
  induction fuel as [|fuel IH]; intros wl io evs Hio; simpl.
  - destruct wl; [|done]. by intros [= _ <-].
  - destruct wl as [|n wl]; [by intros [= _ <-]|].
    set (round := List.filter (ready h io) (n :: wl)).
    destruct (Nat.eqb (length round) 0); [done|].
    destruct (JS.sort_throwing _ round) as [round'| |] eqn:S; try done.
    apply IH. apply dependenciesFirst_app; [done|].
    intros a Ha. apply sort_throwing_Permutation in S. rewrite S in Ha.
    apply list_elem_of_In, filter_In in Ha as [_ Ha]. done.
Qed.

(** A round that is not empty shortens the worklist. *)
Lemma filter_length_lt {A} (p : A → bool) (l : list A) x :
  x ∈ l → p x = false → length (List.filter p l) < length l.
Proof.
  induction l as [|y r IH]; intros Hx Hp; [by apply not_elem_of_nil in Hx|].
  simpl. pose proof (List.filter_length_le p r).
  apply elem_of_cons in Hx as [<-|Hx].
  - rewrite Hp. lia.
  - specialize (IH Hx Hp). destruct (p y); simpl; lia.
Qed.

Lemma round_shortens h installationOrder wl :
  List.filter (ready h installationOrder) wl ≠ [] →
  length (List.filter
            (fun node => negb (existsb (fun r => fNodeEquality (h !!! r) (h !!! node))
                                       (List.filter (ready h installationOrder) wl))) wl)
  < length wl.
Proof.
  intros Hne. destruct (List.filter (ready h installationOrder) wl) as [|r round] eqn:R; [done|].
  assert (Hr : In r wl).
  { assert (In r (List.filter (ready h installationOrder) wl)) as H by (rewrite R; by left).
    by apply filter_In in H as [H _]. }
  apply (filter_length_lt _ _ r); [by apply list_elem_of_In|].
  simpl. by rewrite fNodeEquality_refl.
Qed.

(** The scheduler needs no more rounds than there are nodes. *)
Lemma rounds_complete (fuel : nat) params h (wl : list nat) installationOrder evs :
  (length wl ≤ fuel)%nat → (rounds fuel params h wl installationOrder evs).2 ≠ Diverged.
Proof.
  revert wl installationOrder evs.
  induction fuel as [|fuel IH]; intros wl io evs Hlen; simpl.
  - destruct wl; [done|]. simpl in Hlen. lia.
  - destruct wl as [|n wl]; [done|].
    set (round := List.filter (ready h io) (n :: wl)).
    destruct (Nat.eqb (length round) 0) eqn:E; [done|].
    destruct (JS.sort_throwing _ round) as [round'| |] eqn:S; try done.
    + apply IH.
      assert (round ≠ []) as Hne. { intros H. rewrite H in E. done. }
      pose proof (round_shortens h io (n :: wl) Hne) as Hs. fold round in Hs.
      simpl in Hlen. simpl length in Hs at 2. lia.
    + by apply sort_throwing_not_Diverged in S.
Qed.

Theorem schedule_completes params h wl evs : (schedule params h wl evs).2 ≠ Diverged.
Proof. unfold schedule. by apply rounds_complete. Qed.

Lemma schedule_dependenciesFirst params h wl evs evs' out :
  schedule params h wl evs = (evs', Returned out) → dependenciesFirst h out.
Proof.
  unfold schedule. apply rounds_dependenciesFirst.
  intros i a d Hi. by rewrite lookup_nil in Hi.
Qed.

(** When the scheduler gives up, the nodes that are left are named in the
    last log line; none of them is ready. *)
Lemma rounds_circular fuel params h wl installationOrder evs evs' :
  rounds fuel params h wl installationOrder evs = (evs', Thrown "Circular dependency detected") →
  ∃ remaining installed,
    remaining ≠ [] ∧ remaining ⊆ wl ∧
    (∀ n, n ∈ remaining → ready h installed n = false) ∧
    last evs' = Some (Write ("Nodes remaining: " +:+ idsOf h remaining) Error).
Proof.
  revert wl installationOrder evs.
  induction fuel as [|fuel IH]; intros wl io evs; simpl.
  - by destruct wl.
  - destruct wl as [|n wl]; [done|].
    set (round := List.filter (ready h io) (n :: wl)).
    destruct (Nat.eqb (length round) 0) eqn:E.
    + intros [= <-]. exists (n :: wl), io. split; [done|]. split; [done|]. split.
      * intros x Hx. destruct (ready h io x) eqn:R; [|done].
        assert (In x round) as Hin. { apply filter_In. split; [by apply list_elem_of_In|done]. }
        apply Nat.eqb_eq in E. destruct round; [done|]. done.
      * by rewrite last_snoc.
    + destruct (JS.sort_throwing _ round) as [round'|m|] eqn:S; try done.
      * intros H. destruct (IH _ _ _ H) as (rem & ins & Hne & Hsub & Hr & Hl).
        exists rem, ins. split; [done|]. split; [|done].
        intros x Hx. apply Hsub in Hx. apply list_elem_of_In, filter_In in Hx as [Hx _].
        by apply list_elem_of_In.
      * intros [= _ ->]. by apply sort_throwing_Thrown in S.
Qed.

(** ** Sets of references and the two edge views *)

Lemma elem_of_Set_add s x y : y ∈ JS.Set_add s x ↔ y ∈ s ∨ y = x.
Proof.
  unfold JS.Set_add. destruct (existsb (Nat.eqb x) s) eqn:E.
  - split; [by left|]. intros [H| ->]; [done|].
    apply existsb_exists in E as (z & Hz & Ez). apply Nat.eqb_eq in Ez. subst z.
    by apply list_elem_of_In.
  - rewrite elem_of_app, list_elem_of_singleton. done.
Qed.

Lemma elem_of_Set_delete s x y : y ∈ JS.Set_delete s x ↔ y ∈ s ∧ y ≠ x.
Proof.
  unfold JS.Set_delete. rewrite !list_elem_of_In, filter_In, negb_true_iff, Nat.eqb_neq. done.
Qed.

Lemma NoDup_Set_add s x : NoDup s → NoDup (JS.Set_add s x).
Proof.
  intros H. unfold JS.Set_add. destruct (existsb (Nat.eqb x) s) eqn:E; [done|].
  apply NoDup_app. split; [done|]. split; [|apply NoDup_singleton].
  intros y Hy Hx. apply list_elem_of_singleton in Hx. subst y.
  assert (existsb (Nat.eqb x) s = true); [|congruence].
  apply existsb_exists. exists x. split; [by apply list_elem_of_In|apply Nat.eqb_refl].
Qed.

Lemma NoDup_Set_delete s x : NoDup s → NoDup (JS.Set_delete s x).
Proof.
  intros H. unfold JS.Set_delete. apply NoDup_ListNoDup, List.NoDup_filter.
  by apply NoDup_ListNoDup.
Qed.

Lemma Set_delete_nil x : JS.Set_delete [] x = [].
Proof. done. Qed.

Lemma length_zero_nil {A} (l : list A) : Nat.eqb (length l) 0 = true ↔ l = [].
Proof. rewrite Nat.eqb_eq. destruct l; simpl; split; done. Qed.

(** Reading a node after [later.after.delete(first)]. *)
Lemma after_after_delete (G : Graph) first later x :
  after (alter (after_delete first) later G !!! x)
  = if decide (x = later) then JS.Set_delete (after (G !!! x)) first else after (G !!! x).
Proof.
  rewrite list_lookup_total_alter.
  destruct (decide (later = x ∧ later < length G)) as [[-> Hlt]|Hn].
  - rewrite decide_True by done. done.
  - destruct (decide (x = later)) as [->|]; [|done].
    rewrite list_lookup_total_alt, lookup_ge_None_2; [done|]. lia.
Qed.

Lemma before_after_delete (G : Graph) first later x :
  before (alter (after_delete first) later G !!! x) = before (G !!! x).
Proof.
  rewrite list_lookup_total_alter. by destruct (decide _) as [[-> _]|_].
Qed.

Lemma feature_after_delete (G : Graph) first later x :
  feature (alter (after_delete first) later G !!! x) = feature (G !!! x).
Proof.
  rewrite list_lookup_total_alter. by destruct (decide _) as [[-> _]|_].
Qed.

(** Reading a node after the two [add]s of an edge. *)
Lemma after_addEdge (G : Graph) later first x :
  later < length G →
  after (addEdge G later first !!! x)
  = if decide (x = later) then JS.Set_add (after (G !!! x)) first else after (G !!! x).
Proof.
  intros Hl. unfold addEdge.
  rewrite list_lookup_total_alter, length_alter.
  assert (after (alter (after_add first) later G !!! x)
          = if decide (x = later) then JS.Set_add (after (G !!! x)) first else after (G !!! x)) as E.
  { rewrite list_lookup_total_alter.
    destruct (decide (later = x ∧ later < length G)) as [[-> _]|Hn].
    - by rewrite decide_True.
    - rewrite decide_False; [done|]. intros ->. apply Hn. done. }
  destruct (decide (first = x ∧ first < length G)) as [[-> _]|_]; [|done].
  simpl. exact E.
Qed.

Lemma before_addEdge (G : Graph) later first x :
  first < length G →
  before (addEdge G later first !!! x)
  = if decide (x = first) then JS.Set_add (before (G !!! x)) later else before (G !!! x).
Proof.
  intros Hf. unfold addEdge.
  rewrite list_lookup_total_alter, length_alter.
  assert (∀ y, before (alter (after_add first) later G !!! y) = before (G !!! y)) as E.
  { intros y. rewrite list_lookup_total_alter. by destruct (decide _) as [[-> _]|_]. }
  destruct (decide (first = x ∧ first < length G)) as [[-> _]|Hn].
  - rewrite decide_True by done. simpl. by rewrite E.
  - rewrite decide_False; [apply E|]. intros ->. apply Hn. done.
Qed.

Lemma feature_addEdge (G : Graph) later first x :
  feature (addEdge G later first !!! x) = feature (G !!! x).
Proof.
  unfold addEdge. rewrite list_lookup_total_alter.
  assert (feature (alter (after_add first) later G !!! x) = feature (G !!! x)) as E.
  { rewrite list_lookup_total_alter. by destruct (decide _) as [[-> _]|_]. }
  destruct (decide _) as [[-> _]|_]; [|done]. simpl. exact E.
Qed.

Lemma length_addEdge (G : Graph) later first : length (addEdge G later first) = length G.
Proof. unfold addEdge. by rewrite !length_alter. Qed.

(** ** The keyed mapping *)

Lemma Map_get_Some {V} (m : list (string * V)) k v :
  JS.Map_get m k = Some v → (k, v) ∈ m.
Proof.
  induction m as [|[k' v'] m IH]; simpl; [done|].
  destruct (String.eqb k' k) eqn:E.
  - apply String.eqb_eq in E. intros [= ->]. subst. by left.
  - intros H. right. by apply IH.
Qed.

Lemma Map_get_is_Some {V} (m : list (string * V)) k :
  k ∈ JS.Map_keys m → is_Some (JS.Map_get m k).
Proof.
  induction m as [|[k' v'] m IH]; simpl.
  - intros H. by apply not_elem_of_nil in H.
  - destruct (String.eqb k' k) eqn:E; [by eauto|].
    apply String.eqb_neq in E. rewrite elem_of_cons. intros [H|H]; [congruence|by apply IH].
Qed.

Lemma elem_of_Map_keys {V} (m : list (string * V)) k :
  k ∈ JS.Map_keys m ↔ ∃ v, (k, v) ∈ m.
Proof.
  unfold JS.Map_keys. rewrite list_elem_of_In, in_map_iff. split.
  - intros ([k' v] & <- & H). exists v. by apply list_elem_of_In.
  - intros [v H]. exists (k, v). split; [done|]. by apply list_elem_of_In.
Qed.

Lemma Map_set_spec {V} (m : list (string * V)) k v :
  NoDup (JS.Map_keys m) →
  NoDup (JS.Map_keys (JS.Map_set m k v))
  ∧ ∀ e, e ∈ JS.Map_set m k v ↔ e = (k, v) ∨ (e ∈ m ∧ e.1 ≠ k).
Proof.
  induction m as [|[k' v'] m IH]; simpl; intros ND.
  - split; [apply NoDup_singleton|].
    intros e. rewrite list_elem_of_singleton. split; [auto|].
    intros [H|[H _]]; [done|]. by apply not_elem_of_nil in H.
  - apply NoDup_cons in ND as [Hk ND]. destruct (IH ND) as [IH1 IH2].
    destruct (String.eqb k' k) eqn:E.
    + apply String.eqb_eq in E. subst k'. split; [by apply NoDup_cons|].
      intros e. rewrite !elem_of_cons. split.
      * intros [H|H]; [by left|]. right. split; [by right|].
        intros <-. apply Hk. apply elem_of_Map_keys. exists e.2. by destruct e.
      * intros [H|[[->|H] H']]; [by left|done|by right].
    + apply String.eqb_neq in E. split.
      * simpl. apply NoDup_cons. split; [|done].
        intros H. apply elem_of_Map_keys in H as [w H]. apply IH2 in H as [[= -> ->]|[H _]]; [done|].
        apply Hk. apply elem_of_Map_keys. eauto.
      * intros e. rewrite !elem_of_cons, IH2. split.
        -- intros [->|[H|[H1 H2]]]; [right; split; [by left|done]|by left|right; split; [by right|done]].
        -- intros [H|[[->|H] H']]; [right; by left|by left|right; right; done].
Qed.

Section Keyed.
Context (key : nat → string).

(** The mapping after the [reduce] over the first [len] nodes holds, for each
    key, the last node that has it. *)
Lemma nodesById_spec (len : nat) :
  NoDup (JS.Map_keys (foldl (fun m n => JS.Map_set m (key n) n) [] (seq 0 len)))
  ∧ ∀ k n, (k, n) ∈ foldl (fun m n => JS.Map_set m (key n) n) [] (seq 0 len)
           ↔ k = key n ∧ n < len ∧ ∀ j, n < j < len → key j ≠ key n.
Proof.
  induction len as [|len [IH1 IH2]].
  - simpl. split; [apply NoDup_nil_2|].
    intros k n. split; [intros H; by apply not_elem_of_nil in H|].
    intros (_ & H & _). lia.
  - rewrite seq_S, foldl_snoc. simpl.
    destruct (Map_set_spec _ (key len) len IH1) as [S1 S2].
    split; [done|]. intros k n. rewrite S2, IH2. simpl. split.
    + intros [[= -> ->]|[(-> & Hn & Hl) Hk]].
      * split_and!; [done|lia|]. intros j Hj. lia.
      * split_and!; [done|lia|]. intros j Hj.
        destruct (decide (j = len)) as [->|]; [congruence|]. apply Hl. lia.
    + intros (-> & Hn & Hl). destruct (decide (n = len)) as [->|Hne]; [by left|].
      right. split_and!; [done|lia| |].
      * intros j Hj. apply Hl. lia.
      * intros E. apply (Hl len); [lia|done].
Qed.

End Keyed.

(** ** The legacy-id rewrite of the descriptors *)

Lemma qualifyLegacyIds_frame σ r x :
  length (qualifyLegacyIds σ r) = length σ
  ∧ sameButIds (qualifyLegacyIds σ r !!! x) (σ !!! x)
  ∧ (rewritten (σ !!! x) = false → qualifyLegacyIds σ r !!! x = σ !!! x).
Proof.
  unfold qualifyLegacyIds, rewritten.
  destruct (String.eqb (type (sourceInformation (σ !!! r))) "oci"
            && match legacyIds (features_0 (σ !!! r)) with
               | Some l => negb (Nat.eqb (length l) 0) | None => false end) eqn:C;
    [|by repeat split].
  destruct (featureRef (sourceInformation (σ !!! r))) as [ref|] eqn:R; [|by repeat split].
  destruct (legacyIds (features_0 (σ !!! r))) as [l|] eqn:L; [|by repeat split].
  rewrite length_insert. split; [done|].
  destruct (decide (r = x)) as [->|Hne].
  - destruct (decide (x < length σ)) as [Hlt|Hge].
    + rewrite list_lookup_total_insert_eq by done. split; [done|].
      rewrite L, R, C. done.
    + rewrite list_insert_ge by lia. done.
  - rewrite list_lookup_total_insert_ne by done. done.
Qed.

Lemma qualifyAll_frame (G : Graph) nodes : ∀ σ x,
  length (qualifyAll σ G nodes) = length σ
  ∧ sameButIds (qualifyAll σ G nodes !!! x) (σ !!! x)
  ∧ (rewritten (σ !!! x) = false → qualifyAll σ G nodes !!! x = σ !!! x).
Proof.
  unfold qualifyAll. induction nodes as [|n nodes IH]; intros σ x; simpl; [done|].
  destruct (IH (qualifyLegacyIds σ (feature (G !!! n))) x) as (I1 & [I2 I2'] & I3).
  destruct (qualifyLegacyIds_frame σ (feature (G !!! n)) x) as (Q1 & [Q2 Q2'] & Q3).
  split; [congruence|]. split; [split; congruence|].
  intros H. rewrite I3; rewrite Q3; done.
Qed.

Lemma keyOf_sameButIds σ σ' r :
  sameButIds (σ' !!! r) (σ !!! r) → keyOf σ' r = keyOf σ r.
Proof. intros [H _]. unfold keyOf, userFeatureIdOf. by rewrite H. Qed.

(** ** The graph after the edge discovery *)

Lemma newNodes_lookup features x :
  newNodes features !!! x = {| feature := features !!! x; before := []; after := [] |}.
Proof.
  revert x. induction features as [|f features IH]; intros x; [done|].
  destruct x as [|x]; [done|]. apply IH.
Qed.

Lemma length_newNodes features : length (newNodes features) = length features.
Proof. apply length_map. Qed.

Lemma find_ext {A} (p q : A → bool) l : (∀ x, p x = q x) → List.find p l = List.find q l.
Proof. intros E. induction l as [|x l IH]; simpl; [done|]. by rewrite E, IH. Qed.

Lemma find_elem_of {A} (p : A → bool) l x : List.find p l = Some x → x ∈ l.
Proof. intros H. apply find_some in H as [H _]. by apply list_elem_of_In. Qed.

Section Discovery.
Context (σ : Store) (features : list nat) (nodesById : list (string * nat)) (nodes : list nat).
Hypothesis nodes_range : ∀ n, n ∈ nodes → n < length features.
Hypothesis nodesById_values : ∀ k n, JS.Map_get nodesById k = Some n → n ∈ nodes.

Local Abbreviation GraphInv := (GraphInv features nodes).

Lemma GraphInv_newNodes : GraphInv (newNodes features).
Proof.
  split; try (intros x; rewrite newNodes_lookup; simpl; done || apply NoDup_nil_2).
  - apply length_newNodes.
  - intros x y. rewrite !newNodes_lookup. simpl. split; intros H; by apply not_elem_of_nil in H.
  - intros x y. rewrite newNodes_lookup. simpl. intros H. by apply not_elem_of_nil in H.
Qed.

Lemma GraphInv_addEdge G later first :
  GraphInv G → later ∈ nodes → first ∈ nodes → GraphInv (addEdge G later first).
Proof.
  intros [L F I N A B] Hl Hf.
  assert (later < length G) as Rl by (rewrite L; auto).
  assert (first < length G) as Rf by (rewrite L; auto).
  split.
  - by rewrite length_addEdge.
  - intros x. by rewrite feature_addEdge.
  - intros x y. rewrite before_addEdge, after_addEdge by done.
    destruct (decide (y = first)) as [->|Hy], (decide (x = later)) as [->|Hx];
      rewrite ?elem_of_Set_add, (I _ _); try tauto.
    all: intuition (subst; tauto).
  - intros x y. rewrite after_addEdge by done.
    destruct (decide (x = later)) as [->|Hx]; [|apply N].
    rewrite elem_of_Set_add. intros [H| ->]; [by apply N in H|done].
  - intros x. rewrite after_addEdge by done.
    destruct (decide _); [by apply NoDup_Set_add|done].
  - intros x. rewrite before_addEdge by done.
    destruct (decide _); [by apply NoDup_Set_add|done].
Qed.

Lemma resolveFirst_nodes G firstId first :
  resolveFirst σ G nodesById nodes firstId = Some first → first ∈ nodes.
Proof.
  unfold resolveFirst. destruct (JS.Map_get nodesById firstId) as [n|] eqn:M.
  - intros [= <-]. by eapply nodesById_values.
  - unfold JS.Array_find. destruct (List.find (hasLegacyId σ G firstId) nodes) eqn:F1.
    + intros [= <-]. by eapply find_elem_of.
    + apply find_elem_of.
Qed.

Lemma resolveFirst_feature G G' firstId :
  (∀ x, feature (G' !!! x) = feature (G !!! x)) →
  resolveFirst σ G' nodesById nodes firstId = resolveFirst σ G nodesById nodes firstId.
Proof.
  intros E. unfold resolveFirst, JS.Array_find.
  rewrite (find_ext (hasLegacyId σ G' firstId) (hasLegacyId σ G firstId)),
          (find_ext (hasCurrentId σ G' firstId) (hasCurrentId σ G firstId)); [done|..].
  - intros x. unfold hasCurrentId. by rewrite E.
  - intros x. unfold hasLegacyId. by rewrite E.
Qed.

(** The inner loop: the edges of one node. *)
Lemma addEdges_fold later : later ∈ nodes → ∀ ids G,
  GraphInv G →
  let G' := foldl (fun G firstId =>
                     match resolveFirst σ G nodesById nodes firstId with
                     | Some first => addEdge G later first
                     | None => G
                     end) G ids in
  GraphInv G'
  ∧ (∀ x y, y ∈ after (G !!! x) → y ∈ after (G' !!! x))
  ∧ (∀ firstId first, firstId ∈ ids →
       resolveFirst σ G nodesById nodes firstId = Some first → first ∈ after (G' !!! later))
  ∧ (∀ x y, y ∈ after (G' !!! x) →
       y ∈ after (G !!! x)
       ∨ (x = later ∧ ∃ firstId, firstId ∈ ids
                                 ∧ resolveFirst σ G nodesById nodes firstId = Some y)).
Proof.
  intros Hl. induction ids as [|i ids IH]; intros G GI; simpl.
  - split; [done|]. split; [done|]. split; [|by left].
    intros ? ? H. by apply not_elem_of_nil in H.
  - set (G1 := match resolveFirst σ G nodesById nodes i with
               | Some first => addEdge G later first | None => G end).
    assert (GraphInv G1 ∧ (∀ x y, y ∈ after (G !!! x) → y ∈ after (G1 !!! x))
            ∧ (∀ first, resolveFirst σ G nodesById nodes i = Some first →
                        first ∈ after (G1 !!! later))
            ∧ (∀ x y, y ∈ after (G1 !!! x) →
                 y ∈ after (G !!! x)
                 ∨ (x = later ∧ resolveFirst σ G nodesById nodes i = Some y)))
      as (GI1 & M1 & E1 & C1).
    { unfold G1. destruct (resolveFirst σ G nodesById nodes i) as [first|] eqn:R.
      - assert (later < length G) as Rl by (rewrite (gi_length _ _ _ GI); auto).
        split; [apply GraphInv_addEdge; eauto using resolveFirst_nodes|].
        split; [|split].
        + intros x y Hy. rewrite after_addEdge by done.
          destruct (decide _); [apply elem_of_Set_add; by left|done].
        + intros ? [= <-]. rewrite after_addEdge, decide_True by done.
          apply elem_of_Set_add. by right.
        + intros x y. rewrite after_addEdge by done.
          destruct (decide (x = later)) as [->|]; [|by left].
          rewrite elem_of_Set_add. intros [H| ->]; [by left|by right].
      - split; [done|]. split; [done|]. split; [done|]. by left. }
    assert (∀ firstId, resolveFirst σ G1 nodesById nodes firstId
                       = resolveFirst σ G nodesById nodes firstId) as ER.
    { intros firstId. apply resolveFirst_feature.
      intros x. by rewrite (gi_feature _ _ _ GI1), (gi_feature _ _ _ GI). }
    destruct (IH G1 GI1) as (GI' & M' & E' & C').
    split; [done|]. split; [by auto|]. split.
    + intros firstId first Hin R. apply elem_of_cons in Hin as [->|Hin].
      * apply M'. by apply E1.
      * apply (E' firstId); [done|]. by rewrite ER.
    + intros x y Hy. destruct (C' x y Hy) as [H|(-> & firstId & Hin & R)].
      * destruct (C1 x y H) as [H'|[-> R]]; [by left|].
        right. split; [done|]. exists i. split; [by left|done].
      * right. split; [done|]. exists firstId. split; [by right|]. by rewrite <- ER.
Qed.

Lemma installsAfterOf_feature G G' later :
  (∀ x, feature (G' !!! x) = feature (G !!! x)) →
  installsAfterOf σ G' later = installsAfterOf σ G later.
Proof. intros E. unfold installsAfterOf. by rewrite E. Qed.

(** The outer loop: the edges of all nodes. *)
Lemma discoverEdges_fold : ∀ ls G,
  (∀ l, l ∈ ls → l ∈ nodes) → GraphInv G →
  let G' := foldl (addEdgesOf σ nodesById nodes) G ls in
  GraphInv G'
  ∧ (∀ x y, y ∈ after (G !!! x) → y ∈ after (G' !!! x))
  ∧ (∀ later firstId first, later ∈ ls → firstId ∈ installsAfterOf σ G later →
       resolveFirst σ G nodesById nodes firstId = Some first → first ∈ after (G' !!! later))
  ∧ (∀ x y, y ∈ after (G' !!! x) →
       y ∈ after (G !!! x)
       ∨ (x ∈ ls ∧ ∃ firstId, firstId ∈ installsAfterOf σ G x
                              ∧ resolveFirst σ G nodesById nodes firstId = Some y)).
Proof.
  induction ls as [|l ls IH]; intros G Hls GI; simpl.
  - split; [done|]. split; [done|]. split; [|by left].
    intros ? ? ? H. by apply not_elem_of_nil in H.
  - destruct (addEdges_fold l (Hls l ltac:(by left)) (installsAfterOf σ G l) G GI)
      as (GI1 & M1 & E1 & C1).
    fold (addEdgesOf σ nodesById nodes G l) in GI1, M1, E1, C1.
    set (G1 := addEdgesOf σ nodesById nodes G l) in *.
    destruct (IH G1) as (GI' & M' & E' & C'); [intros; apply Hls; by right|done|].
    assert (∀ x, feature (G1 !!! x) = feature (G !!! x)) as EF.
    { intros x. by rewrite (gi_feature _ _ _ GI1), (gi_feature _ _ _ GI). }
    split; [done|]. split; [by auto|]. split.
    + intros later firstId first Hin Hid R. apply elem_of_cons in Hin as [->|Hin].
      * apply M'. by apply (E1 firstId).
      * apply (E' later firstId); [done|by rewrite (installsAfterOf_feature G G1 later EF)|].
        by rewrite (resolveFirst_feature G G1 firstId EF).
    + intros x y Hy. destruct (C' x y Hy) as [H|(Hx & firstId & Hid & R)].
      * destruct (C1 x y H) as [H'|(-> & firstId & Hid & R)]; [by left|].
        right. split; [by left|]. eauto.
      * right. split; [by right|]. exists firstId.
        rewrite <- (installsAfterOf_feature G G1 x EF), <- (resolveFirst_feature G G1 firstId EF).
        done.
Qed.

End Discovery.

(** ** Roots and islands *)

Lemma rootsAndIslands_spec G nodes :
  rootsAndIslands G nodes
  = (List.filter (fun x => Nat.eqb (length (after (G !!! x))) 0
                           && negb (Nat.eqb (length (before (G !!! x))) 0)) nodes,
     List.filter (fun x => Nat.eqb (length (after (G !!! x))) 0
                           && Nat.eqb (length (before (G !!! x))) 0) nodes).
Proof.
  unfold rootsAndIslands.
  induction nodes as [|n nodes IH] using rev_ind; [done|].
  rewrite foldl_snoc, IH, !List.filter_app. simpl.
  destruct (Nat.eqb (length (after (G !!! n))) 0); simpl; [|by rewrite !app_nil_r].
  destruct (Nat.eqb (length (before (G !!! n))) 0); simpl; by rewrite !app_nil_r.
Qed.

(** ** The layered peeling *)

Section Peeling.

(** [G0] is the graph when the peeling starts and [nodes] the array of its
    nodes; the edge discovery guarantees the four hypotheses (see
    [prepare_graph] below). *)
Context (G0 : Graph) (nodes : list nat).
Hypothesis before_nodes : ∀ x l, l ∈ before (G0 !!! x) → l ∈ nodes.
Hypothesis before_after : ∀ x l, l ∈ before (G0 !!! x) → x ∈ after (G0 !!! l).
Hypothesis after_before : ∀ x y, y ∈ after (G0 !!! x) → x ∈ before (G0 !!! y).
Hypothesis before_NoDup : ∀ x, NoDup (before (G0 !!! x)).

Local Abbreviation Mid := (Mid G0 nodes).

Lemma Mid_gone seen C gone gone' st :
  (∀ x y, y ∈ after (G0 !!! x) → gone y x ↔ gone' y x) →
  Mid seen C gone st → Mid seen C gone' st.
Proof.
  intros E [B F A X Z K N D P].
  split; try done.
  - intros x y Hy. destruct (A x y Hy) as [H|[H|H]]; [by left|by right; left|].
    right; right. by apply E.
  - intros x y Hy. destruct (X x y Hy) as (H1 & H2 & H3).
    split; [done|]. split; [done|]. intros H. apply H3. by apply E.
Qed.

(** One [later.after.delete(first)] with its test. *)
Lemma visit_Mid seen C gone st first later :
  Mid seen C gone st →
  first ∉ seen → ¬ gone first later → later ∈ before (G0 !!! first) →
  Mid seen C (fun y x => gone y x ∨ (y = first ∧ x = later)) (visit first st later).
Proof.
  intros [B F A X Z K N D P] Hseen Hgone Hlater.
  assert (first ∈ after (st.1 !!! later)) as Hin.
  { destruct (A later first (before_after _ _ Hlater)) as [H|[H|H]]; done. }
  assert ((later ∉ seen) ∧ (later ∉ C) ∧ (later ∉ st.2)) as (N1 & N2 & N3).
  { split_and!; intros H;
      (rewrite Z in Hin; [by apply not_elem_of_nil in Hin|]); auto. }
  unfold visit. set (G' := alter (after_delete first) later st.1).
  assert (∀ x, after (G' !!! x)
               = if decide (x = later) then JS.Set_delete (after (st.1 !!! x)) first
                 else after (st.1 !!! x)) as EA by apply after_after_delete.
  assert (∀ x y, y ∈ after (G0 !!! x) →
                 y ∈ after (G' !!! x) ∨ y ∈ seen ∨ (gone y x ∨ (y = first ∧ x = later))) as HA.
  { intros x y Hy. rewrite EA.
    destruct (A x y Hy) as [H|[H|H]]; [|by right; left|by right; right; left].
    destruct (decide (x = later)) as [->|]; [|by left].
    destruct (decide (y = first)) as [->|]; [by right; right; right|].
    left. by apply elem_of_Set_delete. }
  assert (∀ x y, y ∈ after (G' !!! x) →
                 y ∈ after (G0 !!! x) ∧ (y ∉ seen) ∧ (¬ (gone y x ∨ (y = first ∧ x = later)))) as HE.
  { intros x y. rewrite EA.
    destruct (decide (x = later)) as [->|Hx].
    + rewrite elem_of_Set_delete. intros [Hy Hne].
      destruct (X later y Hy) as (H1 & H2 & H3).
      split_and!; [done..|]. intros [H|[H _]]; done.
    + intros Hy. destruct (X x y Hy) as (H1 & H2 & H3).
      split_and!; [done..|]. intros [H|[_ H]]; done. }
  assert (∀ x, after (st.1 !!! x) = [] → after (G' !!! x) = []) as HZ.
  { intros x Hx. rewrite EA, Hx. by destruct (decide _). }
  destruct (Nat.eqb (length (after (G' !!! later))) 0) eqn:T.
  - apply length_zero_nil in T.
    split; simpl; try done.
    + intros x. unfold G'. by rewrite before_after_delete.
    + intros x. unfold G'. by rewrite feature_after_delete.
    + intros x. rewrite elem_of_app, list_elem_of_singleton.
      intros [H|[H|[H| ->]]]; [apply HZ, Z; auto..|done].
    + intros x. rewrite elem_of_app, list_elem_of_singleton.
      intros [H|[H|[H| ->]]]; [apply K; auto..|].
      right. intros E. apply before_after in Hlater. rewrite E in Hlater.
      by apply not_elem_of_nil in Hlater.
    + intros x. rewrite elem_of_app, list_elem_of_singleton.
      intros [H| ->]; [by apply N|by eapply before_nodes].
    + rewrite !app_assoc. apply NoDup_app. split; [by rewrite <- app_assoc|].
      split; [|apply NoDup_singleton].
      intros x Hx Hs. apply list_elem_of_singleton in Hs. subst x.
      rewrite <- app_assoc, !elem_of_app in Hx. destruct Hx as [H|[H|H]]; done.
    + intros x Hx. rewrite EA, elem_of_app, list_elem_of_singleton.
      destruct (decide (x = later)) as [->|]; [auto|].
      intros E. destruct (P x Hx E) as [H|[H|[H|H]]]; auto.
  - split; simpl; try done.
    + intros x. unfold G'. by rewrite before_after_delete.
    + intros x. unfold G'. by rewrite feature_after_delete.
    + intros x H. by apply HZ, Z.
    + intros x Hx. rewrite EA.
      destruct (decide (x = later)) as [->|]; [|by apply P].
      intros E. rewrite EA, decide_True, E in T by done. done.
Qed.

(** The loop over [first.before]. *)
Lemma visit_fold_Mid seen C first B : ∀ gone st,
  Mid seen C gone st → first ∉ seen → NoDup B →
  (∀ l, l ∈ B → (l ∈ before (G0 !!! first)) ∧ (¬ gone first l)) →
  Mid seen C (fun y x => gone y x ∨ (y = first ∧ x ∈ B)) (foldl (visit first) st B).
Proof.
  induction B as [|l B IH]; intros gone st M Hseen ND HB; simpl.
  - eapply Mid_gone; [|exact M]. intros x y _. split; [by left|].
    intros [H|[_ H]]; [done|]. by apply not_elem_of_nil in H.
  - apply NoDup_cons in ND as [Hl ND].
    destruct (HB l) as [Hb Hg]; [by left|].
    pose proof (visit_Mid _ _ _ _ _ _ M Hseen Hg Hb) as M1.
    eapply Mid_gone; [|apply (IH _ _ M1 Hseen ND)].
    + intros x y _. rewrite elem_of_cons.
      split; [intros [[H|[-> ->]]|[-> H]]|intros [H|[-> [->|H]]]]; auto.
    + intros l' Hl'. destruct (HB l') as [Hb' Hg']; [by right|].
      split; [done|]. intros [H|[_ ->]]; done.
Qed.

(** One turn of the loop over the current layer. *)
Lemma visitAll_Mid seen C done st first :
  Mid seen C (fun y _ => y ∈ done) st →
  first ∉ seen → first ∉ done →
  Mid seen C (fun y _ => y ∈ done ++ [first]) (visitAll st first).
Proof.
  intros M Hseen Hdone. unfold visitAll.
  rewrite (mid_before _ _ _ _ _ _ M).
  eapply Mid_gone; [|apply (visit_fold_Mid _ _ _ _ _ _ M Hseen (before_NoDup first))].
  - intros x y Hy. simpl. rewrite elem_of_app, list_elem_of_singleton.
    split; [intros [H|[H _]]; auto|].
    intros [H| ->]; [by left|]. right. split; [done|]. by apply after_before.
  - intros l Hl. done.
Qed.

(** The loop over the current layer. *)
Lemma visitAll_fold_Mid seen C C2 : ∀ done st,
  Mid seen C (fun y _ => y ∈ done) st →
  NoDup (done ++ C2) → (∀ x, x ∈ C2 → x ∉ seen) →
  Mid seen C (fun y _ => y ∈ done ++ C2) (foldl visitAll st C2).
Proof.
  induction C2 as [|first C2 IH]; intros done st M ND Hseen; simpl.
  - by rewrite app_nil_r.
  - assert (first ∉ done) as Hd.
    { apply NoDup_app in ND as (_ & H & _). intros Hin. apply (H first Hin). by left. }
    pose proof (visitAll_Mid _ _ _ _ _ M (Hseen first ltac:(by left)) Hd) as M1.
    replace (done ++ first :: C2) with ((done ++ [first]) ++ C2) by by rewrite <- app_assoc.
    apply IH; [done| |].
    + by rewrite <- app_assoc.
    + intros x Hx. apply Hseen. by right.
Qed.


Lemma sort_insert_Permutation {A} (cmp : A → A → Z) x l :
  Permutation (JS.sort_insert cmp x l) (x :: l).
Proof.
  induction l as [|y r IH]; simpl; [done|].
  destruct (cmp x y <=? 0)%Z; [done|]. rewrite IH. apply perm_swap.
Qed.

Lemma sort_Permutation {A} (cmp : A → A → Z) l : Permutation (JS.sort cmp l) l.
Proof.
  induction l as [|x r IH]; simpl; [done|].
  rewrite sort_insert_Permutation. by constructor.
Qed.

Lemma sortFeatures_Permutation σ l : Permutation (sortFeatures σ l) l.
Proof. apply sort_Permutation. Qed.

Hypothesis feature_inj :
  ∀ x y, x ∈ nodes → y ∈ nodes → feature (G0 !!! x) = feature (G0 !!! y) → x = y.

Local Abbreviation Layer := (Layer G0 nodes).

Lemma Layer_next σ seen current G ordered :
  Layer seen current G ordered →
  let st := foldl visitAll (G, []) current in
  Layer (seen ++ current) st.2 st.1
        (ordered ++ sortFeatures σ (map (fun node => feature (G !!! node)) current)).
Proof.
  intros [M Hs Hc Hp Hv] st.
  assert (NoDup (seen ++ current)) as ND.
  { pose proof (mid_NoDup _ _ _ _ _ _ M) as H. simpl in H. by rewrite app_nil_r in H. }
  assert (∀ x, x ∈ current → x ∉ seen) as Hcs.
  { intros x Hx Hx'. apply NoDup_app in ND as (_ & H & _). by apply (H x). }
  assert (Mid seen current (fun y _ => y ∈ [] ++ current) st) as M'.
  { apply visitAll_fold_Mid; [|by apply NoDup_app in ND as (_ & _ & H)|done].
    eapply Mid_gone; [|exact M]. intros x y _. split; [done|].
    intros H. by apply not_elem_of_nil in H. }
  simpl in M'. destruct M' as [B F A E Z LK N D K].
  assert (map (fun node => feature (G !!! node)) current
          = map (fun x => feature (G0 !!! x)) current) as EF.
  { apply map_ext. intros x. apply (mid_feature _ _ _ _ _ _ M). }
  split.
  - split; simpl; try done.
    + intros x y Hy. rewrite elem_of_app. destruct (A x y Hy) as [H|[H|H]]; auto.
    + intros x y Hy. destruct (E x y Hy) as (H1 & H2 & H3). rewrite elem_of_app.
      split_and!; [done| |tauto]. intros [H|H]; done.
    + intros x. rewrite elem_of_app. intros [[H|H]|[H|H]]; [apply Z; auto..|].
      by apply not_elem_of_nil in H.
    + intros x. rewrite elem_of_app. intros [[H|H]|[H|H]]; [apply LK; auto..|].
      by apply not_elem_of_nil in H.
    + intros x H. by apply not_elem_of_nil in H.
    + by rewrite app_nil_r, <- app_assoc.
    + intros x Hx Hx'. rewrite elem_of_app. destruct (K x Hx Hx') as [H|[H|[H|H]]]; auto.
  - intros x. rewrite elem_of_app. intros [H|H]; auto.
  - exact N.
  - rewrite map_app, sortFeatures_Permutation, EF. by apply Permutation_app_tail.
  - intros j x y Hx Hj Hy.
    destruct (decide (j < length ordered)) as [Hlt|Hge].
    + rewrite lookup_app_l in Hj by done.
      destruct (Hv j x y Hx Hj Hy) as (i & Hi & Hi').
      exists i. split; [done|]. rewrite lookup_app_l by lia. done.
    + rewrite lookup_app_r in Hj by lia.
      assert (feature (G0 !!! x) ∈ sortFeatures σ (map (fun node => feature (G !!! node)) current))
        as Hin by (apply list_elem_of_lookup; eauto).
      rewrite sortFeatures_Permutation, EF in Hin.
      apply list_elem_of_In, in_map_iff in Hin as (m & Em & Hm). apply list_elem_of_In in Hm.
      assert (m = x) as -> by (apply feature_inj; auto).
      assert (y ∈ seen) as Hys.
      { destruct (mid_after _ _ _ _ _ _ M x y Hy) as [H|[H|H]]; [|done..].
        pose proof (mid_empty _ _ _ _ _ _ M x) as Ex. simpl in H, Ex.
        rewrite Ex in H by auto. by apply not_elem_of_nil in H. }
      assert (feature (G0 !!! y) ∈ ordered) as Hyo.
      { rewrite Hp. apply list_elem_of_In, in_map_iff. exists y.
        split; [done|]. by apply list_elem_of_In. }
      apply list_elem_of_lookup in Hyo as [i Hi]. exists i.
      apply lookup_lt_Some in Hi as Hlt. split; [lia|]. by rewrite lookup_app_l.
Qed.

(** The peeling ends within the budget of one layer per node. *)
Lemma peel_Layer σ (fuel : nat) : ∀ seen current G ordered,
  Layer seen current G ordered →
  (length nodes < fuel + length seen)%nat →
  ∃ G' ordered' seen',
    peel fuel σ G current ordered = Returned (G', ordered') ∧ Layer seen' [] G' ordered'.
Proof.
  induction fuel as [|fuel IH]; intros seen current G ordered L Hf.
  - destruct current as [|c current]; [simpl; eauto|].
    exfalso. destruct L as [M Hs Hc _ _].
    pose proof (mid_NoDup _ _ _ _ _ _ M) as ND. simpl in ND. rewrite app_nil_r in ND.
    assert (length (seen ++ c :: current) ≤ length nodes) as Hle.
    { apply NoDup_incl_length; [by apply NoDup_ListNoDup|].
      intros x Hx. apply list_elem_of_In in Hx. apply list_elem_of_In.
      apply elem_of_app in Hx as [H|H]; auto. }
    rewrite length_app in Hle. simpl in *. lia.
  - destruct current as [|c current]; [simpl; eauto|].
    pose proof (Layer_next σ _ _ _ _ L) as L'.
    change (peel (S fuel) σ G (c :: current) ordered)
      with (peel fuel σ (foldl visitAll (G, []) (c :: current)).1
                 (foldl visitAll (G, []) (c :: current)).2
                 (ordered ++ sortFeatures σ (map (fun node => feature (G !!! node)) (c :: current)))).
    apply (IH _ _ _ _ L'). rewrite length_app. simpl. lia.
Qed.

End Peeling.

(** ** The state when the peeling starts *)

Lemma foldl_pointwise {A B} (f g : A → B → A) l a :
  (∀ a x, f a x = g a x) → foldl f a l = foldl g a l.
Proof. intros E. revert a. induction l as [|x l IH]; intros a; simpl; [done|]. by rewrite E, IH. Qed.

Section Prepared.
Context (σ : Store) (features : list nat).

Local Abbreviation p := (prepare σ features).
Local Abbreviation keyAt := (fun n => keyOf σ (features !!! n)).

Lemma buildNodesById_newNodes :
  p_nodesById p = foldl (fun m n => JS.Map_set m (keyAt n) n) [] (seq 0 (length features)).
Proof.
  unfold prepare. simpl. unfold buildNodesById. rewrite length_newNodes.
  apply foldl_pointwise. intros m n. by rewrite newNodes_lookup.
Qed.

(** An entry of the mapping is a key with the last node that has it. *)
Lemma prepare_entries k n :
  (k, n) ∈ p_nodesById p
  ↔ k = keyAt n ∧ n < length features ∧ ∀ j, n < j < length features → keyAt j ≠ keyAt n.
Proof. rewrite buildNodesById_newNodes. apply (nodesById_spec keyAt). Qed.

Lemma prepare_keys_NoDup : NoDup (JS.Map_keys (p_nodesById p)).
Proof. rewrite buildNodesById_newNodes. apply (nodesById_spec keyAt). Qed.

(** The graph nodes: for each key the last descriptor that has it. *)
Lemma prepare_nodes n :
  n ∈ p_nodes p ↔ n < length features ∧ ∀ j, n < j < length features → keyAt j ≠ keyAt n.
Proof.
  change (p_nodes p) with (JS.Map_values (p_nodesById p)).
  unfold JS.Map_values. rewrite list_elem_of_In, in_map_iff. split.
  - intros ([k n'] & <- & H). apply list_elem_of_In, prepare_entries in H. tauto.
  - intros H. exists (keyAt n, n). split; [done|].
    apply list_elem_of_In, prepare_entries. tauto.
Qed.

Lemma prepare_nodes_range n : n ∈ p_nodes p → n < length features.
Proof. intros H. by apply prepare_nodes in H as [H _]. Qed.

Lemma prepare_key_inj x y :
  x ∈ p_nodes p → y ∈ p_nodes p → keyAt x = keyAt y → x = y.
Proof.
  intros [Hx Lx]%prepare_nodes [Hy Ly]%prepare_nodes E.
  destruct (Nat.lt_trichotomy x y) as [H|[H|H]]; [|done|].
  - exfalso. apply (Lx y); [lia|done].
  - exfalso. apply (Ly x); [lia|done].
Qed.

Lemma prepare_keys : JS.Map_keys (p_nodesById p) = map keyAt (p_nodes p).
Proof.
  change (p_nodes p) with (JS.Map_values (p_nodesById p)).
  unfold JS.Map_keys, JS.Map_values. rewrite map_map. apply map_ext_in.
  intros [k n] H. apply list_elem_of_In, prepare_entries in H. simpl. tauto.
Qed.

Lemma prepare_nodes_NoDup : NoDup (p_nodes p).
Proof.
  pose proof prepare_keys_NoDup as H. rewrite prepare_keys in H.
  apply NoDup_ListNoDup in H. apply NoDup_ListNoDup. by apply NoDup_map_inv in H.
Qed.

Lemma prepare_get k n : JS.Map_get (p_nodesById p) k = Some n → n ∈ p_nodes p.
Proof.
  intros H. apply Map_get_Some, prepare_entries in H. apply prepare_nodes. tauto.
Qed.

(** The rewrite leaves the length of the store, and in each descriptor all
    but the legacy ids and the current id. *)
Lemma prepare_store x :
  length (p_store p) = length σ
  ∧ sameButIds (p_store p !!! x) (σ !!! x)
  ∧ (rewritten (σ !!! x) = false → p_store p !!! x = σ !!! x).
Proof. apply qualifyAll_frame. Qed.

Lemma prepare_keyOf r : keyOf (p_store p) r = keyOf σ r.
Proof. apply keyOf_sameButIds. apply prepare_store. Qed.

Lemma prepare_graph : GraphInv features (p_nodes p) (p_graph p).
Proof.
  unfold prepare. simpl. unfold discoverEdges.
  apply (discoverEdges_fold (p_store p) features (p_nodesById p) (p_nodes p)
           prepare_nodes_range prepare_get (p_nodes p) (newNodes features)); [done|].
  apply GraphInv_newNodes.
Qed.

Lemma prepare_feature x : feature (p_graph p !!! x) = features !!! x.
Proof. apply (gi_feature _ _ _ prepare_graph). Qed.

Lemma prepare_edges later first :
  installsAfterEdge σ features later first → first ∈ after (p_graph p !!! later).
Proof.
  intros (Hl & firstId & Hid & R).
  assert (∀ x, feature (p_graph p !!! x) = feature (newNodes features !!! x)) as EF.
  { intros x. rewrite prepare_feature, newNodes_lookup. done. }
  destruct (discoverEdges_fold (p_store p) features (p_nodesById p) (p_nodes p)
              prepare_nodes_range prepare_get (p_nodes p) (newNodes features))
    as (_ & _ & E & _); [done|apply GraphInv_newNodes|].
  apply (E later firstId first Hl).
  - by rewrite <- (installsAfterOf_feature (p_store p) (newNodes features) (p_graph p) later EF).
  - by rewrite <- (resolveFirst_feature (p_store p) (p_nodesById p) (p_nodes p)
                                        (newNodes features) (p_graph p) firstId EF).
Qed.


(** The edges of the graph are the declared ones. *)
Lemma prepare_edges_declared later first :
  first ∈ after (p_graph p !!! later) → installsAfterEdge σ features later first.
Proof.
  intros H.
  assert (∀ x, feature (p_graph p !!! x) = feature (newNodes features !!! x)) as EF.
  { intros x. rewrite prepare_feature, newNodes_lookup. done. }
  destruct (discoverEdges_fold (p_store p) features (p_nodesById p) (p_nodes p)
              prepare_nodes_range prepare_get (p_nodes p) (newNodes features))
    as (_ & _ & _ & C); [done|apply GraphInv_newNodes|].
  destruct (C later first H) as [H0|(Hl & firstId & Hid & R)].
  - rewrite newNodes_lookup in H0. by apply not_elem_of_nil in H0.
  - split; [done|]. exists firstId.
    rewrite (installsAfterOf_feature (p_store p) (newNodes features) (p_graph p) later EF),
            (resolveFirst_feature (p_store p) (p_nodesById p) (p_nodes p)
                                  (newNodes features) (p_graph p) firstId EF).
    done.
Qed.

Local Abbreviation G0 := (p_graph p).
Local Abbreviation nodes := (p_nodes p).
Local Abbreviation roots := (rootsAndIslands G0 nodes).1.
Local Abbreviation islands := (rootsAndIslands G0 nodes).2.

Lemma prepare_before_nodes x l : l ∈ before (G0 !!! x) → l ∈ nodes.
Proof.
  intros H. apply (gi_inverse _ _ _ prepare_graph) in H.
  by apply (gi_nodes _ _ _ prepare_graph) in H as [H _].
Qed.

Lemma prepare_feature_inj x y :
  x ∈ nodes → y ∈ nodes → feature (G0 !!! x) = feature (G0 !!! y) → x = y.
Proof.
  intros Hx Hy E. rewrite !prepare_feature in E.
  apply prepare_key_inj; [done..|]. simpl. by rewrite E.
Qed.

Lemma elem_of_roots x :
  x ∈ roots ↔ x ∈ nodes ∧ after (G0 !!! x) = [] ∧ before (G0 !!! x) ≠ [].
Proof.
  rewrite rootsAndIslands_spec. cbn [fst].
  rewrite list_elem_of_In, filter_In, <- list_elem_of_In, andb_true_iff, negb_true_iff,
          length_zero_nil.
  destruct (before (G0 !!! x)); simpl; split; intros (? & ? & ?); done.
Qed.

Lemma elem_of_islands x :
  x ∈ islands ↔ x ∈ nodes ∧ after (G0 !!! x) = [] ∧ before (G0 !!! x) = [].
Proof.
  rewrite rootsAndIslands_spec. cbn [snd].
  rewrite list_elem_of_In, filter_In, <- list_elem_of_In, andb_true_iff, !length_zero_nil.
  done.
Qed.

Lemma roots_NoDup : NoDup roots.
Proof.
  rewrite rootsAndIslands_spec. cbn [fst].
  apply NoDup_ListNoDup, List.NoDup_filter, NoDup_ListNoDup, prepare_nodes_NoDup.
Qed.

Lemma islands_NoDup : NoDup islands.
Proof.
  rewrite rootsAndIslands_spec. cbn [snd].
  apply NoDup_ListNoDup, List.NoDup_filter, NoDup_ListNoDup, prepare_nodes_NoDup.
Qed.

(** The peeling starts in a state that satisfies the invariant. *)
Lemma Layer_roots : Layer G0 nodes [] roots G0 [].
Proof.
  split.
  - split; simpl; try done.
    + intros x y Hy. by left.
    + intros x y Hy. split_and!; [done| |tauto]. apply not_elem_of_nil.
    + intros x [H|[H|H]]; try by apply not_elem_of_nil in H.
      by apply elem_of_roots in H as (_ & H & _).
    + intros x [H|[H|H]]; try by apply not_elem_of_nil in H.
      left. by apply elem_of_roots in H as (_ & _ & H).
    + intros x H. by apply not_elem_of_nil in H.
    + rewrite app_nil_r. apply roots_NoDup.
    + intros x Hx Ha. destruct (before (G0 !!! x)) as [|b l] eqn:B; [auto 6|].
      right. left. apply elem_of_roots. rewrite B. done.
  - intros x H. by apply not_elem_of_nil in H.
  - intros x H. by apply elem_of_roots in H as (H & _).
  - done.
  - intros j x y _ H. by rewrite lookup_nil in H.
Qed.

(** What the peeling leaves: the final graph, and the order with the nodes
    [emitted] whose features it holds. *)
Lemma layeredOrder_spec :
  ∃ G' ordered emitted,
    peel (S (length nodes)) (p_store p) G0 roots [] = Returned (G', ordered)
    ∧ layeredOrder p
      = Returned (ordered ++ sortFeatures (p_store p)
                                          (map (fun node => feature (G0 !!! node)) islands))
    ∧ (∀ x y, y ∈ after (G' !!! x) → y ∈ after (G0 !!! x))
    ∧ (∀ x, before (G' !!! x) = before (G0 !!! x))
    ∧ (∀ x y, y ∈ after (G0 !!! x) → y ∈ after (G' !!! x) ∨ y ∈ emitted)
    ∧ (∀ x, x ∈ nodes → after (G' !!! x) = [] → x ∈ emitted)
    ∧ NoDup emitted
    ∧ (∀ x, x ∈ emitted → x ∈ nodes)
    ∧ Permutation (ordered ++ sortFeatures (p_store p)
                                           (map (fun node => feature (G0 !!! node)) islands))
                  (map (fun n => features !!! n) emitted)
    ∧ (∀ j x y, x ∈ nodes →
         (ordered ++ sortFeatures (p_store p) (map (fun node => feature (G0 !!! node)) islands))
           !! j = Some (features !!! x) →
         y ∈ after (G0 !!! x) →
         ∃ i, i < j ∧
           (ordered ++ sortFeatures (p_store p) (map (fun node => feature (G0 !!! node)) islands))
             !! i = Some (features !!! y))
    ∧ (∀ x y, y ∈ after (G' !!! x) → y ∉ emitted).
Proof.
  destruct (peel_Layer G0 nodes prepare_before_nodes
              (fun x l => proj1 (gi_inverse _ _ _ prepare_graph l x))
              (fun x y => proj2 (gi_inverse _ _ _ prepare_graph x y))
              (gi_before_NoDup _ _ _ prepare_graph)
              prepare_feature_inj (p_store p) (S (length nodes)) [] roots G0 [] Layer_roots)
    as (G' & ordered & seen & Hpeel & [M Hs _ Hp Hv]); [cbn [length]; lia|].
  destruct M as [B F A X Z K N D P]. cbn [fst snd] in *.
  exists G', ordered, (seen ++ islands).
  assert (map (fun node => feature (G0 !!! node)) islands
          = map (fun n => features !!! n) islands) as EI.
  { apply map_ext. intros x. apply prepare_feature. }
  assert (map (fun x => feature (G0 !!! x)) seen = map (fun n => features !!! n) seen) as ES.
  { apply map_ext. intros x. apply prepare_feature. }
  split; [done|]. split.
  { unfold layeredOrder. rewrite Hpeel. done. }
  split; [intros x y Hy; by apply X in Hy as (H & _)|].
  split; [done|].
  split. { intros x y Hy. rewrite elem_of_app. destruct (A x y Hy) as [H|[H|[]]]; auto. }
  split.
  { intros x Hx Hz. rewrite elem_of_app. destruct (P x Hx Hz) as [H|[H|[H|H]]]; [auto| | |].
    - by apply not_elem_of_nil in H.
    - by apply not_elem_of_nil in H.
    - right. apply elem_of_islands. tauto. }
  split.
  { apply NoDup_app. rewrite !app_nil_r in D. split; [done|]. split; [|apply islands_NoDup].
    intros x Hx Hi. apply elem_of_islands in Hi as (_ & Ha & Hb).
    destruct (K x) as [H|H]; auto. }
  split.
  { intros x. rewrite elem_of_app. intros [H|H]; [auto|]. by apply elem_of_islands in H as [H _]. }
  split.
  { rewrite map_app, sortFeatures_Permutation, EI, Hp, ES. done. }
  split; [|intros x y Hy; apply X in Hy as (Hy & Hs' & _); rewrite elem_of_app;
           intros [H|H]; [done|]; apply elem_of_islands in H as (_ & _ & H);
           apply (gi_inverse _ _ _ prepare_graph) in Hy; rewrite H in Hy;
           by apply not_elem_of_nil in Hy].
  intros j x y Hx Hj Hy.
  destruct (decide (j < length ordered)) as [Hlt|Hge].
  - rewrite lookup_app_l in Hj by done. rewrite <- prepare_feature in Hj.
    destruct (Hv j x y Hx Hj Hy) as (i & Hi & Hi').
    exists i. split; [done|]. rewrite lookup_app_l by lia. by rewrite <- prepare_feature.
  - exfalso. rewrite lookup_app_r in Hj by lia.
    assert (features !!! x ∈ sortFeatures (p_store p)
                                (map (fun node => feature (G0 !!! node)) islands)) as Hin
      by (apply list_elem_of_lookup; eauto).
    rewrite sortFeatures_Permutation in Hin.
    apply list_elem_of_In, in_map_iff in Hin as (m & Em & Hm). apply list_elem_of_In in Hm.
    assert (m = x) as ->.
    { apply prepare_feature_inj; [by apply elem_of_islands in Hm as [H _]|done|].
      by rewrite Em, prepare_feature. }
    apply elem_of_islands in Hm as (_ & Ha & _). rewrite Ha in Hy.
    by apply not_elem_of_nil in Hy.
Qed.


(** The deletions of the cycle check, as one filter. *)
Lemma missingKeys_filter σ' (m : list (string * nat)) fs :
  missingKeys σ' m fs
  = List.filter (fun k => negb (existsb (fun f => String.eqb k (keyOf σ' f)) fs)) (JS.Map_keys m).
Proof.
  unfold missingKeys. generalize (JS.Map_keys m) as ks.
  induction fs as [|f fs IH]; intros ks; simpl.
  - induction ks as [|k ks IHk]; simpl; [done|]. by rewrite <- IHk.
  - rewrite IH. unfold JS.StrSet_delete.
    induction ks as [|k ks IHk]; simpl; [done|].
    destruct (String.eqb k (keyOf σ' f)); simpl; [done|].
    destruct (existsb _ fs); simpl; by rewrite IHk.
Qed.

Lemma filter_map_comm {A B} (g : A → B) (q : B → bool) l :
  List.filter q (map g l) = map g (List.filter (fun x => q (g x)) l).
Proof.
  induction l as [|x l IH]; simpl; [done|]. destruct (q (g x)); simpl; by rewrite IH.
Qed.

Lemma NoDup_map_inj_on {A B} (f : A → B) (l : list A) :
  (∀ x y, x ∈ l → y ∈ l → f x = f y → x = y) → NoDup l → NoDup (map f l).
Proof.
  induction l as [|a l IH]; intros Hinj ND; simpl; [apply NoDup_nil_2|].
  apply NoDup_cons in ND as [Ha ND]. apply NoDup_cons. split.
  - intros H. apply list_elem_of_In, in_map_iff in H as (b & E & Hb).
    apply list_elem_of_In in Hb.
    assert (b = a) as -> by (apply Hinj; [by right|by left|done]). done.
  - apply IH; [|done]. intros x y Hx Hy. apply Hinj; by right.
Qed.

Lemma filter_nil_forall {A} (q : A → bool) (l : list A) :
  (∀ x, x ∈ l → q x = false) → List.filter q l = [].
Proof.
  induction l as [|x l IH]; intros H; simpl; [done|].
  rewrite (H x) by by left. apply IH. intros y Hy. apply H. by right.
Qed.

Lemma existsb_eqb_elem_of (x : nat) l : existsb (Nat.eqb x) l = true ↔ x ∈ l.
Proof.
  rewrite existsb_exists, list_elem_of_In. split.
  - intros (y & Hy & ->%Nat.eqb_eq). done.
  - intros H. exists x. split; [done|apply Nat.eqb_refl].
Qed.

(** The missing keys are the keys of the unresolved nodes. *)
Lemma missingKeys_unresolved out :
  (∀ f, f ∈ out → ∃ m, m ∈ nodes ∧ features !!! m = f) →
  missingKeys (p_store p) (p_nodesById p) out
  = map keyAt (unresolvedNodes features nodes out).
Proof.
  intros Hout. rewrite missingKeys_filter, prepare_keys, filter_map_comm.
  unfold unresolvedNodes. f_equal. apply List.filter_ext_in. intros n Hn.
  apply list_elem_of_In in Hn. f_equal. apply eq_true_iff_eq.
  rewrite existsb_eqb_elem_of, existsb_exists. split.
  - intros (f & Hf & E). apply list_elem_of_In in Hf. apply String.eqb_eq in E.
    destruct (Hout f Hf) as (m & Hm & <-). rewrite prepare_keyOf in E.
    by rewrite (prepare_key_inj n m Hn Hm E).
  - intros H. exists (features !!! n). split; [by apply list_elem_of_In|].
    rewrite prepare_keyOf. apply String.eqb_refl.
Qed.

Lemma unresolvedNodes_nil out n :
  unresolvedNodes features nodes out = [] → n ∈ nodes → features !!! n ∈ out.
Proof.
  unfold unresolvedNodes. intros E Hn. apply existsb_eqb_elem_of.
  destruct (existsb (Nat.eqb (features !!! n)) out) eqn:X; [done|].
  assert (In n []) as H; [|done].
  rewrite <- E. apply filter_In. split; [by apply list_elem_of_In|]. by rewrite X.
Qed.

(** What the call completes with, in terms of the order that the peeling
    leaves and of the nodes that are not in it. *)
Lemma computeInstallationOrder_spec :
  ∃ out emitted,
    layeredOrder p = Returned out
    ∧ Permutation out (map (fun n => features !!! n) emitted)
    ∧ NoDup emitted
    ∧ (∀ x, x ∈ emitted → x ∈ nodes)
    ∧ (∀ j x y, x ∈ nodes → out !! j = Some (features !!! x) → y ∈ after (G0 !!! x) →
                ∃ i, i < j ∧ out !! i = Some (features !!! y))
    ∧ (acyclic σ features → unresolvedNodes features nodes out = [])
    ∧ computeInstallationOrder σ features
      = (p_store p,
         match unresolvedNodes features nodes out with
         | [] => Returned out
         | unresolved =>
             Thrown ("Features declare cyclic dependency: "
                     +:+ JS.join ", " (map keyAt unresolved))
         end).
Proof.
  destruct layeredOrder_spec
    as (G' & ordered & emitted & _ & HL & HS & _ & _ & HC & ND & Hn & Hp & Hv & HX).
  eexists _, emitted. split; [exact HL|]. split; [done|]. split; [done|]. split; [done|].
  split; [done|]. split.
  { intros [rank Hrank].
    assert (∀ k x, rank x < k → x ∈ nodes → x ∈ emitted) as Hall.
    { induction k as [|k IH]; intros x Hk Hx; [lia|].
      apply HC; [done|].
      destruct (after (G' !!! x)) as [|y l] eqn:E; [done|]. exfalso.
      assert (y ∈ after (G' !!! x)) as Hy by (rewrite E; by left).
      apply (HX x y Hy). apply IH.
      - apply HS, prepare_edges_declared, Hrank in Hy. lia.
      - apply HS in Hy. by apply (gi_nodes _ _ _ prepare_graph) in Hy as [_ Hy]. }
    apply filter_nil_forall. intros n Hin. apply negb_false_iff, existsb_eqb_elem_of.
    rewrite Hp. apply list_elem_of_In, in_map_iff. exists n. split; [done|].
    apply list_elem_of_In. apply (Hall (S (rank n))); [lia|done]. }
  unfold computeInstallationOrder. fold p. rewrite HL. cbn [bind]. f_equal.
  rewrite missingKeys_unresolved.
  - destruct (unresolvedNodes features nodes _); done.
  - intros f Hf. rewrite Hp in Hf. apply list_elem_of_In, in_map_iff in Hf as (m & <- & Hm).
    exists m. split; [|done]. by apply Hn, list_elem_of_In.
Qed.

End Prepared.

(** The soft path always completes: the budget of one layer per node is
    never used up. *)
Theorem computeInstallationOrder_completes σ features :
  (computeInstallationOrder σ features).2 ≠ Diverged.
Proof.
  destruct (computeInstallationOrder_spec σ features)
    as (out & em & _ & _ & _ & _ & _ & _ & ->).
  simpl. by destruct (unresolvedNodes _ _ _).
Qed.

(** What a returned order is: the features of all graph nodes, each once,
    each after those it installs after. *)
Lemma computeInstallationOrder_Returned σ features σ' out :
  computeInstallationOrder σ features = (σ', Returned out) →
  σ' = p_store (prepare σ features)
  ∧ NoDup out
  ∧ (∀ r, r ∈ out ↔ ∃ n, n ∈ p_nodes (prepare σ features) ∧ features !!! n = r)
  ∧ (∀ j x y, x ∈ p_nodes (prepare σ features) → out !! j = Some (features !!! x) →
              y ∈ after (p_graph (prepare σ features) !!! x) →
              ∃ i, i < j ∧ out !! i = Some (features !!! y)).
Proof.
  destruct (computeInstallationOrder_spec σ features)
    as (out' & em & HL & Hp & ND & Hn & Hv & _ & ->).
  destruct (unresolvedNodes _ _ out') eqn:U; [|done].
  intros [= <- <-]. split; [done|]. split; [|split; [|done]].
  - rewrite Hp. apply NoDup_map_inj_on; [|done].
    intros x y Hx Hy E. apply (prepare_key_inj σ features); [auto..|]. by rewrite E.
  - intros r. split.
    + intros Hr. rewrite Hp in Hr. apply list_elem_of_In, in_map_iff in Hr as (m & <- & Hm).
      exists m. split; [|done]. by apply Hn, list_elem_of_In.
    + intros (n & Hn' & <-). by apply (unresolvedNodes_nil σ features).
Qed.

(** ** Each node once *)

Lemma fNodeEquality_sym a b : fNodeEquality a b = fNodeEquality b a.
Proof.
  apply eq_true_iff_eq. rewrite !fNodeEquality_spec. split; intros [-> ->]; done.
Qed.

Lemma filter_complement_Permutation {A} (q : A → bool) (l : list A) :
  Permutation l (List.filter q l ++ List.filter (fun x => negb (q x)) l).
Proof.
  induction l as [|x l IH]; simpl; [done|].
  destruct (q x); simpl; [by constructor|].
  rewrite <- Permutation_middle. by constructor.
Qed.

Lemma distinctNodes_filter h (q : nat → bool) l :
  distinctNodes h l → distinctNodes h (List.filter q l).
Proof.
  intros [ND D]. split.
  - by apply NoDup_ListNoDup, List.NoDup_filter, NoDup_ListNoDup.
  - intros a b Ha Hb. apply D.
    + apply list_elem_of_In, filter_In in Ha as [Ha _]. by apply list_elem_of_In.
    + apply list_elem_of_In, filter_In in Hb as [Hb _]. by apply list_elem_of_In.
Qed.

(** On distinct nodes, deleting the nodes equal to a node of the round
    deletes the round. *)
Lemma round_deleted h installationOrder wl :
  distinctNodes h wl →
  List.filter (fun node => negb (existsb (fun r => fNodeEquality (h !!! r) (h !!! node))
                                         (List.filter (ready h installationOrder) wl))) wl
  = List.filter (fun node => negb (ready h installationOrder node)) wl.
Proof.
  intros [_ D]. apply List.filter_ext_in. intros n Hn. f_equal. apply eq_true_iff_eq.
  rewrite existsb_exists. split.
  - intros (r & [Hr R]%filter_In & E).
    rewrite <- (D r n); [done|by apply list_elem_of_In..|done].
  - intros R. exists n. split; [by apply filter_In|apply fNodeEquality_refl].
Qed.

Lemma rounds_Permutation fuel params h : ∀ wl installationOrder evs evs' out,
  distinctNodes h wl →
  rounds fuel params h wl installationOrder evs = (evs', Returned out) →
  Permutation out (installationOrder ++ wl).
Proof.
  induction fuel as [|fuel IH]; intros wl io evs evs' out D; simpl.
  - destruct wl; [|done]. intros [= _ <-]. by rewrite app_nil_r.
  - destruct wl as [|n wl]; [intros [= _ <-]; by rewrite app_nil_r|].
    set (round := List.filter (ready h io) (n :: wl)).
    destruct (Nat.eqb (length round) 0); [done|].
    destruct (JS.sort_throwing _ round) as [round'| |] eqn:S; try done.
    unfold round. rewrite (round_deleted h io (n :: wl) D). intros H.
    apply IH in H; [|by apply distinctNodes_filter].
    rewrite H, <- app_assoc. apply Permutation_app_head.
    rewrite (sort_throwing_Permutation _ _ _ S).
    symmetry. apply filter_complement_Permutation.
Qed.

(** The scheduler installs every node of a distinct worklist once. *)
Lemma schedule_Permutation params h wl evs evs' out :
  distinctNodes h wl →
  schedule params h wl evs = (evs', Returned out) → Permutation out wl.
Proof. intros D H. by apply rounds_Permutation in H. Qed.

(** *** The accumulated nodes of the builder are distinct *)

Lemma lookup_total_app_alter (h : Heap) f i (x : FNode) n :
  n < length h →
  id (alter (dependsOn_push f) i (h ++ [x]) !!! n) = id (h !!! n)
  ∧ options (alter (dependsOn_push f) i (h ++ [x]) !!! n) = options (h !!! n).
Proof.
  intros Hn. rewrite list_lookup_total_alter.
  destruct (decide _) as [[-> _]|_]; simpl; by rewrite lookup_total_app_l.
Qed.

Lemma fNodeEquality_ext a b a' b' :
  id a' = id a → options a' = options a → id b' = id b → options b' = options b →
  fNodeEquality a' b' = fNodeEquality a b.
Proof. unfold fNodeEquality. by intros -> -> -> ->. Qed.

Lemma addDependencies_BuildInv params current entries : ∀ s s' c,
  BuildInv s →
  addDependencies params current entries s = (s', c) →
  BuildInv s' ∧ acc s' = acc s ∧ length (heap s) ≤ length (heap s')
  ∧ ∀ n, n < length (heap s) →
         id (heap s' !!! n) = id (heap s !!! n) ∧ options (heap s' !!! n) = options (heap s !!! n).
Proof.
  induction entries as [|[i o] entries IH]; intros s s' c I; simpl.
  - intros [= <- <-]. done.
  - destruct (getRef params i) as [ref|]; [|intros [= <- <-]; done].
    intros H. apply IH in H as (I' & EA & EL & EH).
    + split; [done|]. split; [done|]. simpl in EL. rewrite length_alter, length_app in EL.
      split; [lia|]. intros n Hn. destruct (EH n) as [E1 E2].
      { simpl. rewrite length_alter, length_app. lia. }
      simpl in E1, E2. rewrite E1, E2. by apply lookup_total_app_alter.
    + destruct I as [IA IW [ND D]]. split; simpl.
      * intros r Hr. rewrite length_alter, length_app. apply IA in Hr. lia.
      * intros r. rewrite length_alter, length_app, elem_of_app, list_elem_of_singleton.
        simpl. intros [Hr| ->]; [apply IW in Hr|]; lia.
      * split; [done|]. intros a b Ha Hb.
        rewrite (fNodeEquality_ext (heap s !!! a) (heap s !!! b));
          [by apply D|by apply lookup_total_app_alter; auto..].
Qed.

Lemma BuildInv_push s current :
  BuildInv s → current < length (heap s) →
  existsb (fun f => fNodeEquality (heap s !!! f) (heap s !!! current)) (acc s) = false →
  BuildInv {| heap := heap s; worklist := worklist s; acc := acc s ++ [current];
              events := events s |}.
Proof.
  intros [IA IW [ND D]] Hc E.
  assert (∀ f, f ∈ acc s → fNodeEquality (heap s !!! f) (heap s !!! current) = false) as N.
  { intros f Hf. destruct (fNodeEquality _ _) eqn:X; [|done].
    rewrite <- E. symmetry. apply existsb_exists. exists f.
    split; [by apply list_elem_of_In|done]. }
  split; simpl; [|done|].
  - intros r. rewrite elem_of_app, list_elem_of_singleton. intros [H| ->]; auto.
  - split.
    + apply NoDup_app. split; [done|]. split; [|apply NoDup_singleton].
      intros x Hx ->%list_elem_of_singleton. specialize (N _ Hx).
      by rewrite fNodeEquality_refl in N.
    + intros a b. rewrite !elem_of_app, !list_elem_of_singleton.
      intros [Ha| ->] [Hb| ->] X; [by apply D| | |done].
      * by rewrite N in X.
      * by rewrite fNodeEquality_sym, N in X.
Qed.

Lemma turn_BuildInv params current s s' t :
  BuildInv s → current < length (heap s) → turn params current s = (s', t) → BuildInv s'.
Proof.
  intros I Hc. unfold turn.
  destruct (existsb _ (acc s)) eqn:E; [by intros [= <- _]|].
  set (s1 := {| heap := heap s; worklist := worklist s; acc := acc s; events := _ |}).
  assert (BuildInv s1) as I1 by by destruct I.
  destruct (fetchOCIFeatureManifestIfExistsFromUserIdentifier params _) as [[manifest|]|m|];
    try by intros [= <- _].
  assert (BuildInv {| heap := heap s1; worklist := worklist s1; acc := acc s1 ++ [current];
                      events := events s1 |}) as IP by by apply BuildInv_push.
  destruct (match annotations manifest with Some a => _ | None => None end) as [ser|];
    [|by intros [= <- _]].
  destruct (String.eqb ser EmptyString); [by intros [= <- _]|].
  destruct (JSON_parse params ser) as [entries|m|]; try by intros [= <- _].
  destruct (addDependencies params current entries s1) as [s2 c] eqn:A.
  apply addDependencies_BuildInv in A as (I2 & EA & EL & EH); [|done].
  destruct c; try by intros [= <- _].
  intros [= <- _]. apply BuildInv_push; [done|simpl in *; lia|].
  rewrite EA. simpl. rewrite <- E. 
  assert (∀ l, (∀ f, f ∈ l → f < length (heap s)) →
            existsb (fun f => fNodeEquality (heap s2 !!! f) (heap s2 !!! current)) l
            = existsb (fun f => fNodeEquality (heap s !!! f) (heap s !!! current)) l) as X.
  { induction l as [|f l IHl]; intros Hl; simpl; [done|].
    rewrite IHl by (intros; apply Hl; by right). f_equal.
    assert (f < length (heap s)) as Hf by (apply Hl; by left).
    apply fNodeEquality_ext; apply EH; simpl; auto. }
  apply X. apply (bi_acc _ I).
Qed.

Lemma _buildDependencyGraph_BuildInv params fuel : ∀ s s' c,
  BuildInv s → _buildDependencyGraph fuel params s = (s', c) → BuildInv s'.
Proof.
  induction fuel as [|fuel IH]; intros s s' c I; simpl.
  - destruct (worklist s); by intros [= <- _].
  - destruct (worklist s) as [|current rest] eqn:W; [by intros [= <- _]|].
    assert (BuildInv (shifted s rest) ∧ current < length (heap (shifted s rest))) as [IS Hc].
    { destruct I as [IA IW D]. rewrite W in IW. split; [split; simpl; auto|].
      - intros r Hr. apply IW. by right.
      - simpl. apply IW. by left. }
    destruct (turn params current (shifted s rest)) as [s1 t] eqn:T.
    apply turn_BuildInv in T; [|done..].
    destruct t; try by intros [= <- _].
    + by apply IH.
    + destruct (_buildDependencyGraph fuel params s1) as [s2 c2] eqn:B.
      apply IH in B; [|done]. destruct c2; try by intros [= <- _]. by apply IH.
Qed.

(** An order that [computeDependsOnInstallationOrder] returns holds every
    node that the builder accumulated once, and no two of its nodes are equal
    for [fNodeEquality]. *)
Lemma computeDependsOnInstallationOrder_distinct fuel params config h evs out :
  computeDependsOnInstallationOrder fuel params config = (h, evs, Returned out) →
  distinctNodes h out
  ∧ ∃ s, buildDependencyGraphFromConfig fuel params config = (s, Returned (acc s))
         ∧ Permutation out (acc s).
Proof.
  unfold computeDependsOnInstallationOrder.
  destruct (buildDependencyGraphFromConfig fuel params config) as [s c] eqn:B.
  destruct c as [wl|m|]; simpl; [|done..].
  destruct (schedule params (heap s) wl (events s)) as [evs' c] eqn:S. simpl.
  intros [= <- <- ->].
  assert (BuildInv s ∧ wl = acc s) as [I ->].
  { unfold buildDependencyGraphFromConfig in B.
    destruct (userFeaturesToArray params config) as [uf|]; [|done].
    destruct (rootNodesOf params uf) as [roots| |]; [|done..].
    split.
    - apply _buildDependencyGraph_BuildInv in B; [done|]. split; simpl.
      + intros r Hr. by apply not_elem_of_nil in Hr.
      + intros r Hr. apply list_elem_of_In, in_seq in Hr. lia.
      + split; [apply NoDup_nil_2|]. intros a b Ha. by apply not_elem_of_nil in Ha.
    - by apply _buildDependencyGraph_returned in B as [_ ->]. }
  pose proof (bi_distinct _ I) as D.
  pose proof (schedule_Permutation _ _ _ _ _ _ D S) as P.
  split; [|eauto].
  destruct D as [ND D]. split; [by rewrite P|].
  intros a b Ha Hb. rewrite P in Ha, Hb. by apply D.
Qed.

(** ** Topological validity *)



Lemma chain_acyclic : acyclic Ex.chain [0; 1; 2].
Proof.
  exists (fun n => match n with 1 => 0 | 2 => 1 | _ => 2 end).
  intros later first (Hl & firstId & Hid & R).
  assert (p_nodes (prepare Ex.chain [0; 1; 2]) = [0; 1; 2]) as EN by by vm_compute.
  rewrite EN in Hl.
  repeat (apply elem_of_cons in Hl as [->|Hl]); [| | |by apply not_elem_of_nil in Hl].
  - assert (installsAfterOf (p_store (prepare Ex.chain [0; 1; 2]))
                            (p_graph (prepare Ex.chain [0; 1; 2])) 0 = ["b"]) as EI by by vm_compute.
    rewrite EI in Hid. apply list_elem_of_singleton in Hid. subst firstId.
    vm_compute in R. injection R as <-. lia.
  - assert (installsAfterOf (p_store (prepare Ex.chain [0; 1; 2]))
                            (p_graph (prepare Ex.chain [0; 1; 2])) 1 = []) as EI by by vm_compute.
    rewrite EI in Hid. by apply not_elem_of_nil in Hid.
  - assert (installsAfterOf (p_store (prepare Ex.chain [0; 1; 2]))
                            (p_graph (prepare Ex.chain [0; 1; 2])) 2 = ["a"]) as EI by by vm_compute.
    rewrite EI in Hid. apply list_elem_of_singleton in Hid. subst firstId.
    vm_compute in R. injection R as <-. lia.
Defined.

Lemma chain_edge : installsAfterEdge Ex.chain [0; 1; 2] 2 1.
Proof.
  split.
  - replace (p_nodes (prepare Ex.chain [0; 1; 2])) with [0; 1; 2] by by vm_compute.
    apply list_elem_of_In. simpl. auto.
  - exists "a". split.
    + replace (installsAfterOf _ _ 2) with ["a"] by by vm_compute. by left.
    + by vm_compute.
Defined.


(** ** Circular dependencies *)

(** C6, as stated, fails on the hard path: for x depending on z and z on x the
    scheduler throws the fixed message [Circular dependency detected], in
    which neither identifier occurs; the identifiers of the nodes that remain
    are in the last log line. *)
Lemma circular_dependency_message_names_no_node :
  ∃ h evs,
    computeDependsOnInstallationOrder 10 Ex.xz Ex.noOverride
      = (h, evs, Thrown "Circular dependency detected")
    ∧ map (fun n => id (h !!! n)) [0; 1] = ["x"; "z"]
    ∧ ready h [] 0 = false ∧ ready h [] 1 = false
    ∧ occursIn "x" "Circular dependency detected" = false
    ∧ occursIn "z" "Circular dependency detected" = false
    ∧ last evs = Some (Write "Nodes remaining: x, z" Error).
Proof. eexists _, _. split; [by vm_compute|]. repeat split; by vm_compute. Qed.

(** C6, amended: when the peeling of [computeInstallationOrder] ends with
    nodes left unresolved, the call throws
    [Features declare cyclic dependency: ] followed by the keys of these
    nodes.  When a round of the hard scheduler is empty while nodes remain,
    the scheduler writes [Nodes remaining: ] with the identifiers of the
    remaining nodes to the log, at level Error, and throws the fixed message
    [Circular dependency detected]; a run of the scheduler that throws this
    message has logged, last, the identifiers of nodes of its worklist, none
    of which was ready. *)
Theorem circular_dependency_errors :
  (∀ σ features,
     ∃ orderedFeatures,
       layeredOrder (prepare σ features) = Returned orderedFeatures
       ∧ ∀ unresolved,
           unresolved = unresolvedNodes features (p_nodes (prepare σ features)) orderedFeatures →
           unresolved ≠ [] →
           (computeInstallationOrder σ features).2
           = Thrown ("Features declare cyclic dependency: "
                     +:+ JS.join ", " (map (fun n => keyOf σ (features !!! n)) unresolved)))
  ∧ (∀ fuel params h wl installationOrder evs,
       wl ≠ [] → List.filter (ready h installationOrder) wl = [] →
       rounds (S fuel) params h wl installationOrder evs
       = (evs ++ [Write "Round: " Info; Write ("Nodes remaining: " +:+ idsOf h wl) Error],
          Thrown "Circular dependency detected"))
  ∧ (∀ params h wl evs evs',
       schedule params h wl evs = (evs', Thrown "Circular dependency detected") →
       ∃ remaining installed,
         remaining ≠ [] ∧ remaining ⊆ wl
         ∧ (∀ n, n ∈ remaining → ready h installed n = false)
         ∧ last evs' = Some (Write ("Nodes remaining: " +:+ idsOf h remaining) Error)).
Proof.
  split; [|split].
  - intros σ features.
    destruct (computeInstallationOrder_spec σ features)
      as (out & em & HL & _ & _ & _ & _ & _ & ->).
    exists out. split; [done|]. intros unresolved -> Hne. simpl.
    by destruct (unresolvedNodes _ _ _).
  - intros fuel params h wl io evs Hne Hr. simpl.
    destruct wl as [|n wl]; [done|]. rewrite Hr. simpl.
    by rewrite <- app_assoc.
  - intros params h wl evs evs'. unfold schedule. apply rounds_circular.
Qed.

Lemma circular_dependency_errors_witness :
  (∃ orderedFeatures,
     layeredOrder (prepare Ex.cycle [0; 1; 2]) = Returned orderedFeatures
     ∧ unresolvedNodes [0; 1; 2] (p_nodes (prepare Ex.cycle [0; 1; 2])) orderedFeatures = [0; 1]
     ∧ (computeInstallationOrder Ex.cycle [0; 1; 2]).2
       = Thrown "Features declare cyclic dependency: a, b")
  ∧ (∃ h, h = [{| id := "x"; options := ORecord []; dependsOn := [0] |}]
          ∧ rounds 1 Ex.xz h [0] [] []
            = ([Write "Round: " Info; Write "Nodes remaining: x" Error],
               Thrown "Circular dependency detected"))
  ∧ (∃ h remaining installed,
       h = [{| id := "x"; options := ORecord []; dependsOn := [0] |}]
       ∧ remaining ≠ [] ∧ remaining ⊆ [0]
       ∧ (∀ n, n ∈ remaining → ready h installed n = false)
       ∧ last [Write "Starting with: x" Info; Write "Round: " Info;
               Write "Nodes remaining: x" Error]
         = Some (Write ("Nodes remaining: " +:+ idsOf h remaining) Error)).
Proof.
  split; [|split].
  - destruct (proj1 circular_dependency_errors Ex.cycle [0; 1; 2]) as (out & HL & H).
    exists out. split; [done|].
    assert (out = [2]) as -> by (vm_compute in HL; congruence).
    split; [by vm_compute|]. apply (H [0; 1]); [by vm_compute|done].
  - eexists. split; [done|].
    apply (proj1 (proj2 circular_dependency_errors) 0 Ex.xz
             [{| id := "x"; options := ORecord []; dependsOn := [0] |}] [0] [] []);
      [done|by vm_compute].
  - eexists. 
    destruct (proj2 (proj2 circular_dependency_errors) Ex.xz
                [{| id := "x"; options := ORecord []; dependsOn := [0] |}] [0] []
                [Write "Starting with: x" Info; Write "Round: " Info;
                 Write "Nodes remaining: x" Error]) as (rem & ins & H); [by vm_compute|].
    exists rem, ins. split; [done|]. exact H.
Defined.

(** ** Descriptors that share a key *)




(** ** What the engine writes to *)

(** C8, as stated, fails: [computeInstallationOrder] leaves the legacy id of
    the registry descriptor z qualified in the caller's store, and
    [computeOverrideInstallationOrder] leaves the caller's array one element
    shorter. *)
Lemma engine_writes_to_the_descriptors :
  legacyIds (features_0 (Ex.legacy !!! 0)) = Some ["old"]
  ∧ legacyIds (features_0 ((computeInstallationOrder Ex.legacy [0; 1]).1 !!! 0))
    = Some ["ghcr.io/acme/old"]
  ∧ currentId (features_0 (Ex.legacy !!! 0)) = Some "z"
  ∧ currentId (features_0 ((computeInstallationOrder Ex.legacy [0; 1]).1 !!! 0))
    = Some "ghcr.io/acme/z"
  ∧ (computeOverrideInstallationOrder Ex.bac (Ex.override ["c"]) [0; 1; 2]).1.2 = [0; 1]
  ∧ ¬ ((computeInstallationOrder Ex.legacy [0; 1]).1 = Ex.legacy
       ∧ (computeOverrideInstallationOrder Ex.bac (Ex.override ["c"]) [0; 1; 2]).1.2 = [0; 1; 2]).
Proof.
  repeat split; try by vm_compute.
  intros [_ H]. vm_compute in H. done.
Qed.

Lemma computeOverrideInstallationOrder_store σ config features :
  (computeOverrideInstallationOrder σ config features).1.1
  = (computeInstallationOrder σ features).1.
Proof.
  unfold computeOverrideInstallationOrder.
  destruct (computeInstallationOrder σ features) as [σ1 c]. simpl.
  destruct c; [|done..]. by destruct (overrideFeatureInstallOrder config).
Qed.

(** C8, amended: the two functions write to the caller's descriptors in the
    legacy-id rewrite only.  The store keeps its length, the override
    post-processor leaves the store as [computeInstallationOrder] leaves it,
    every descriptor keeps its source information and its installs-after
    list, and a descriptor that is not from a registry, or has no legacy id,
    or has no feature reference, is not changed at all.  Without an override
    order the caller's array is left as it is. *)
Theorem descriptors_change_in_the_legacy_rewrite_only σ config features :
  let σ1 := (computeInstallationOrder σ features).1 in
  (computeOverrideInstallationOrder σ config features).1.1 = σ1
  ∧ (overrideFeatureInstallOrder config = None →
     (computeFeatureInstallationOrder σ config features).1 = (σ1, features))
  ∧ length σ1 = length σ
  ∧ ∀ r, sameButIds (σ1 !!! r) (σ !!! r)
         ∧ (rewritten (σ !!! r) = false → σ1 !!! r = σ !!! r).
Proof.
  split; [apply computeOverrideInstallationOrder_store|].
  split; [intros E; unfold computeFeatureInstallationOrder; by rewrite E|].
  change (computeInstallationOrder σ features).1 with (p_store (prepare σ features)).
  split; [apply (prepare_store σ features 0)|]. intros r. apply prepare_store.
Qed.

Lemma descriptors_change_in_the_legacy_rewrite_only_witness :
  (rewritten (Ex.legacy !!! 1) = false
   ∧ (computeInstallationOrder Ex.legacy [0; 1]).1 !!! 1 = Ex.legacy !!! 1)
  ∧ (overrideFeatureInstallOrder Ex.noOverride = None
     ∧ (computeFeatureInstallationOrder Ex.legacy Ex.noOverride [0; 1]).1.2 = [0; 1]).
Proof.
  pose proof (descriptors_change_in_the_legacy_rewrite_only Ex.legacy Ex.noOverride [0; 1])
    as (_ & HA & _ & HR).
  split.
  - split; [by vm_compute|]. apply HR. by vm_compute.
  - split; [done|]. by rewrite HA.
Defined.

(** ** The two views of the edge set *)

Lemma visit_afterWithinBefore first st later :
  afterWithinBefore st.1 → afterWithinBefore (visit first st later).1.
Proof.
  intros H x y. unfold visit.
  destruct (Nat.eqb _ 0); simpl; rewrite after_after_delete, before_after_delete;
    (destruct (decide (x = later)) as [->|]; [|by apply H]);
    rewrite elem_of_Set_delete; intros [Hy _]; by apply H.
Qed.

Lemma visitAll_fold_afterWithinBefore current : ∀ st,
  afterWithinBefore st.1 → afterWithinBefore (foldl visitAll st current).1.
Proof.
  induction current as [|first current IH]; intros st H; simpl; [done|].
  apply IH. unfold visitAll. generalize (before (st.1 !!! first)) as B.
  intros B. revert st H. induction B as [|later B IHB]; intros st H; simpl; [done|].
  apply IHB. by apply visit_afterWithinBefore.
Qed.

Lemma peel_afterWithinBefore fuel σ : ∀ G current ordered G' ordered',
  afterWithinBefore G →
  peel fuel σ G current ordered = Returned (G', ordered') → afterWithinBefore G'.
Proof.
  induction fuel as [|fuel IH]; intros G current ordered G' ordered' H; simpl.
  - destruct current; [|done]. by intros [= <- _].
  - destruct current as [|c current]; [by intros [= <- _]|].
    apply IH. by apply (visitAll_fold_afterWithinBefore (c :: current) (G, [])).
Qed.

(** C9, as stated, fails: on the chain c after b after a, when the peeling
    is over, b is still in the [before] set of a, and a is no longer in the
    [after] set of b. *)
Lemma peeling_leaves_before_entries :
  let p := prepare Ex.chain [0; 1; 2] in
  ∃ G' ordered,
    peel (S (length (p_nodes p))) (p_store p) (p_graph p)
         (rootsAndIslands (p_graph p) (p_nodes p)).1 [] = Returned (G', ordered)
    ∧ before (G' !!! 1) = [2] ∧ after (G' !!! 2) = []
    ∧ ¬ inverseViews G'.
Proof.
  eexists _, _. split; [by vm_compute|]. split; [done|]. split; [done|].
  intros H. specialize (H 2 1). simpl in H.
  assert (1 ∈ @nil nat) as F by (apply H; by left). by apply not_elem_of_nil in F.
Qed.

(** C9, amended: [before] and [after] are inverse views of one edge set when
    the edges have been discovered, that is when the peeling starts; adding
    an edge between two nodes of the graph updates both endpoints and keeps
    the views inverse.  The peeling deletes from [after] sets only: each
    deletion, and the whole peeling, keeps one direction, that [X] is in
    [Y.before] whenever [Y] is in [X.after]. *)
Theorem edge_views :
  (∀ σ features, inverseViews (p_graph (prepare σ features)))
  ∧ (∀ G later first,
       later < length G → first < length G →
       inverseViews G → inverseViews (addEdge G later first))
  ∧ (∀ first st later, afterWithinBefore st.1 → afterWithinBefore (visit first st later).1)
  ∧ (∀ fuel σ G current ordered G' ordered',
       afterWithinBefore G →
       peel fuel σ G current ordered = Returned (G', ordered') → afterWithinBefore G').
Proof.
  split; [|split; [|split]].
  - intros σ features. apply (gi_inverse _ _ _ (prepare_graph σ features)).
  - intros G later first Hl Hf I x y.
    rewrite before_addEdge, after_addEdge by done.
    destruct (decide (y = first)) as [->|Hy], (decide (x = later)) as [->|Hx];
      rewrite ?elem_of_Set_add, (I _ _); try tauto.
    all: intuition (subst; tauto).
  - apply visit_afterWithinBefore.
  - intros fuel σ. apply peel_afterWithinBefore.
Qed.

Lemma edge_views_witness :
  let G := [{| feature := 0; before := []; after := [] |};
            {| feature := 1; before := []; after := [] |}] in
  (1 < length G ∧ 0 < length G ∧ inverseViews G ∧ inverseViews (addEdge G 1 0))
  ∧ (afterWithinBefore (addEdge G 1 0)
     ∧ afterWithinBefore (visit 0 (addEdge G 1 0, []) 1).1)
  ∧ (afterWithinBefore (addEdge G 1 0)
     ∧ peel 2 [] (addEdge G 1 0) [0] []
       = Returned ([{| feature := 0; before := [1]; after := [] |};
                    {| feature := 1; before := []; after := [] |}], [0; 1])
     ∧ afterWithinBefore [{| feature := 0; before := [1]; after := [] |};
                          {| feature := 1; before := []; after := [] |}]).
Proof.
  intros G.
  assert (inverseViews G) as I.
  { intros x y. destruct x as [|[|x]], y as [|[|y]]; simpl;
      split; intros H; by apply not_elem_of_nil in H. }
  assert (inverseViews (addEdge G 1 0)) as I'.
  { apply (proj1 (proj2 edge_views) G 1 0); [simpl; lia|simpl; lia|exact I]. }
  assert (afterWithinBefore (addEdge G 1 0)) as A.
  { intros x y. apply I'. }
  split; [|split].
  - split; [simpl; lia|]. split; [simpl; lia|]. split; [exact I|exact I'].
  - split; [exact A|].
    apply (proj1 (proj2 (proj2 edge_views)) 0 (addEdge G 1 0, []) 1). exact A.
  - split; [exact A|]. split; [by vm_compute|].
    apply (proj2 (proj2 (proj2 edge_views)) 2 [] (addEdge G 1 0) [0] [] _ [0; 1] A).
    by vm_compute.
Defined.


(** ** The order of strings *)

Lemma ascii_compare_Lt_trans (a b c : ascii) :
  Ascii.compare a b = Lt → Ascii.compare b c = Lt → Ascii.compare a c = Lt.
Proof. unfold Ascii.compare. rewrite !N.compare_lt_iff. lia. Qed.

Lemma string_compare_Lt_trans (a : string) : ∀ b c,
  String.compare a b = Lt → String.compare b c = Lt → String.compare a c = Lt.
Proof.
  induction a as [|x a IH]; intros [|y b] [|z c]; simpl; try done.
  destruct (Ascii.compare x y) eqn:XY; [|by destruct (Ascii.compare y z) eqn:YZ;
    [apply Ascii.compare_eq_iff in YZ; subst; rewrite XY
    |rewrite (ascii_compare_Lt_trans _ _ _ XY YZ)|]|done].
  apply Ascii.compare_eq_iff in XY. subst y.
  destruct (Ascii.compare x z); [apply IH|done..].
Qed.

Lemma string_lt_trans a b c :
  JS.string_lt a b = true → JS.string_lt b c = true → JS.string_lt a c = true.
Proof.
  unfold JS.string_lt, String.ltb.
  destruct (String.compare a b) eqn:AB; try done.
  destruct (String.compare b c) eqn:BC; try done.
  by rewrite (string_compare_Lt_trans _ _ _ AB BC).
Qed.

Lemma string_lt_total a b :
  JS.string_lt a b = false → a ≠ b → JS.string_lt b a = true.
Proof.
  unfold JS.string_lt, String.ltb. rewrite (String.compare_antisym b a).
  destruct (String.compare a b) eqn:AB; simpl; try done.
  intros _ H. by apply String.compare_eq_iff in AB.
Qed.

(** ** Sorting by identifier *)

Lemma StronglySorted_lookup {A} (R : A → A → Prop) (l : list A) :
  StronglySorted R l →
  ∀ i j a b, i < j → l !! i = Some a → l !! j = Some b → R a b.
Proof.
  induction 1 as [|x l S IH F]; intros i j a b Hij Hi Hj; [by rewrite lookup_nil in Hi|].
  destruct j as [|j]; [lia|]. simpl in Hj.
  destruct i as [|i]; simpl in Hi.
  - injection Hi as <-. rewrite List.Forall_forall in F. apply F.
    apply list_elem_of_In, list_elem_of_lookup. eauto.
  - apply (IH i j); [lia|done..].
Qed.

(** The comparator of the source sorts features with different identifiers
    into ascending order. *)
Lemma sortFeatures_sorted σ (l : list nat) :
  NoDup (map (userFeatureIdOf σ) l) →
  StronglySorted (fun a b => JS.string_lt (userFeatureIdOf σ a) (userFeatureIdOf σ b) = true)
                 (sortFeatures σ l).
Proof.
  unfold sortFeatures.
  set (cmp := fun a b => if JS.string_lt _ _ then (-1)%Z else 1%Z).
  set (R := fun a b => JS.string_lt (userFeatureIdOf σ a) (userFeatureIdOf σ b) = true).
  assert (∀ x s, StronglySorted R s → (∀ y, y ∈ s → userFeatureIdOf σ y ≠ userFeatureIdOf σ x) →
                 StronglySorted R (JS.sort_insert cmp x s)) as I.
  { intros x s S. induction S as [|y s S IH F]; intros D; simpl.
    - repeat constructor.
    - unfold cmp at 1. destruct (JS.string_lt (userFeatureIdOf σ x) (userFeatureIdOf σ y)) eqn:L; simpl.
      + constructor; [by constructor|]. constructor; [done|].
        rewrite List.Forall_forall in F |- *. intros z Hz.
        apply (string_lt_trans _ _ _ L). by apply F.
      + constructor; [apply IH; intros z Hz; apply D; by right|].
        rewrite List.Forall_forall in F |- *. intros z Hz.
        apply (Permutation_in _ (sort_insert_Permutation cmp x s)) in Hz as [<-|Hz].
        * apply string_lt_total; [done|]. intros E. apply (D y); [by left|done].
        * by apply F. }
  induction l as [|x l IH]; intros ND; simpl; [constructor|].
  simpl in ND. apply NoDup_cons in ND as [Hx ND].
  apply I; [by apply IH|]. intros y Hy E. apply Hx.
  rewrite <- E. apply list_elem_of_In, in_map, list_elem_of_In.
  by rewrite <- (sort_Permutation cmp l).
Qed.

(** ** Cycles and the returned order *)

(** An order that is returned ranks the nodes: the installs-after edges
    have no cycle. *)
Lemma computeInstallationOrder_Returned_acyclic σ features σ' out :
  computeInstallationOrder σ features = (σ', Returned out) → acyclic σ features.
Proof.
  intros H.
  destruct (computeInstallationOrder_Returned _ _ _ _ H) as (_ & ND & Hin & Hv).
  exists (fun n => default 0 (fst <$> list_find (fun r => r = features !!! n) out)).
  intros later first E.
  assert (∃ i j, i < j ∧ out !! i = Some (features !!! first)
                       ∧ out !! j = Some (features !!! later)) as (i & j & Hij & Hi & Hj).
  { pose proof E as [Hl _].
    assert (features !!! later ∈ out) as Hj by (apply Hin; eauto).
    apply list_elem_of_lookup in Hj as [j Hj].
    destruct (Hv j later first Hl Hj (prepare_edges _ _ _ _ E)) as (i & Hi & Hi'). eauto. }
  assert (∀ k n, out !! k = Some (features !!! n) →
                 list_find (fun r => r = features !!! n) out = Some (k, features !!! n)) as F.
  { intros k n Hk. apply list_find_Some. split; [done|]. split; [done|].
    intros k' y Hk' Hlt ->. pose proof (NoDup_lookup _ _ _ _ ND Hk Hk'). lia. }
  rewrite (F _ _ Hi), (F _ _ Hj). simpl. done.
Qed.

(** The two ways in which [computeInstallationOrder] completes. *)
Lemma computeInstallationOrder_cases σ features :
  (∃ out, computeInstallationOrder σ features = (p_store (prepare σ features), Returned out))
  ∨ ∃ keys, keys ≠ []
            ∧ computeInstallationOrder σ features
              = (p_store (prepare σ features),
                 Thrown ("Features declare cyclic dependency: " +:+ JS.join ", " keys)).
Proof.
  destruct (computeInstallationOrder_spec σ features)
    as (out & em & _ & _ & _ & _ & _ & _ & ->).
  destruct (unresolvedNodes _ _ out) as [|u us] eqn:U; [left; eauto|].
  right. eexists. split; [|done]. done.
Qed.

(** X1: [computeInstallationOrder] returns an order exactly when the
    installs-after edges have no cycle; otherwise it throws the cyclic
    dependency error. *)
Theorem computeInstallationOrder_returns_iff_acyclic σ features :
  ((∃ σ' out, computeInstallationOrder σ features = (σ', Returned out)) ↔ acyclic σ features)
  ∧ ((∃ σ' out, computeInstallationOrder σ features = (σ', Returned out))
     ∨ ∃ σ' keys, keys ≠ []
                  ∧ computeInstallationOrder σ features
                    = (σ', Thrown ("Features declare cyclic dependency: "
                                   +:+ JS.join ", " keys))).
Proof.
  split.
  - split.
    2: { intros A. destruct (computeInstallationOrder_spec σ features)
           as (out & em & _ & _ & _ & _ & _ & U & ->). rewrite (U A). eauto. }
    intros (σ' & out & H). by eapply computeInstallationOrder_Returned_acyclic.
  - destruct (computeInstallationOrder_cases σ features) as [[out H]|(keys & N & H)];
      [left|right]; eauto.
Qed.

(** ** Features without edges *)

Lemma unrelated_island σ features x :
  x ∈ p_nodes (prepare σ features) →
  unrelated σ features x ↔
  x ∈ (rootsAndIslands (p_graph (prepare σ features)) (p_nodes (prepare σ features))).2.
Proof.
  intros Hx. rewrite elem_of_islands. split.
  - intros U. split; [done|]. split.
    + destruct (after _) as [|y l] eqn:E; [done|]. exfalso.
      apply (proj1 (U y)). apply prepare_edges_declared. rewrite E. by left.
    + destruct (before _) as [|y l] eqn:E; [done|]. exfalso.
      apply (proj2 (U y)). apply prepare_edges_declared.
      apply (gi_inverse _ _ _ (prepare_graph σ features)). rewrite E. by left.
  - intros (_ & Ha & Hb) y. split; intros E%prepare_edges.
    + rewrite Ha in E. by apply not_elem_of_nil in E.
    + apply (gi_inverse _ _ _ (prepare_graph σ features)) in E. rewrite Hb in E.
      by apply not_elem_of_nil in E.
Qed.

(** The returned order in two parts: the features of the nodes with edges,
    then the features of the nodes without, sorted. *)
Lemma computeInstallationOrder_parts σ features σ' out :
  computeInstallationOrder σ features = (σ', Returned out) →
  ∃ ordered seen,
    out = ordered
          ++ sortFeatures (p_store (prepare σ features))
               (map (fun n => features !!! n)
                    (rootsAndIslands (p_graph (prepare σ features))
                                     (p_nodes (prepare σ features))).2)
    ∧ Permutation ordered (map (fun n => features !!! n) seen)
    ∧ ∀ x, x ∈ seen → x ∈ p_nodes (prepare σ features) ∧ ¬ unrelated σ features x.
Proof.
  intros H.
  destruct (peel_Layer (p_graph (prepare σ features)) (p_nodes (prepare σ features))
              (prepare_before_nodes σ features)
              (fun x l => proj1 (gi_inverse _ _ _ (prepare_graph σ features) l x))
              (fun x y => proj2 (gi_inverse _ _ _ (prepare_graph σ features) x y))
              (gi_before_NoDup _ _ _ (prepare_graph σ features))
              (prepare_feature_inj σ features) (p_store (prepare σ features))
              (S (length (p_nodes (prepare σ features)))) []
              (rootsAndIslands (p_graph (prepare σ features)) (p_nodes (prepare σ features))).1
              (p_graph (prepare σ features)) [] (Layer_roots σ features))
    as (G' & ordered & seen & Hpeel & [M Hs _ Hp _]); [cbn [length]; lia|].
  exists ordered, seen.
  assert (∀ l, map (fun node => feature (p_graph (prepare σ features) !!! node)) l
               = map (fun n => features !!! n) l) as EF.
  { intros l. apply map_ext. intros x. apply prepare_feature. }
  split; [|split].
  - unfold computeInstallationOrder, layeredOrder in H. rewrite Hpeel in H. cbn [bind snd] in H.
    rewrite EF in H. destruct (negb _); [done|]. by injection H as _ <-.
  - by rewrite Hp, EF.
  - intros x Hx. split; [by apply Hs|]. intros U.
    apply unrelated_island in U as (_ & Ha & Hb)%elem_of_islands; [|by apply Hs].
    destruct (mid_linked _ _ _ _ _ _ M x); auto.
Qed.

(** X3: features that take part in no installs-after edge come out in ascending
    order of their identifiers, whatever their order in the input. *)
Theorem unrelated_features_are_sorted σ features σ' out i j x y :
  computeInstallationOrder σ features = (σ', Returned out) →
  x ∈ p_nodes (prepare σ features) → y ∈ p_nodes (prepare σ features) →
  unrelated σ features x → unrelated σ features y →
  out !! i = Some (features !!! x) → out !! j = Some (features !!! y) →
  i < j →
  JS.string_lt (userFeatureIdOf σ (features !!! x)) (userFeatureIdOf σ (features !!! y)) = true.
Proof.
  intros H Hx Hy Ux Uy Hi Hj Hij.
  destruct (computeInstallationOrder_parts _ _ _ _ H) as (ordered & seen & -> & Hp & Hs).
  set (p := prepare σ features) in *.
  set (islands := (rootsAndIslands (p_graph p) (p_nodes p)).2) in *.
  assert (∀ k z, z ∈ p_nodes p → unrelated σ features z →
                 (ordered ++ sortFeatures (p_store p) (map (fun n => features !!! n) islands))
                   !! k = Some (features !!! z) →
                 length ordered ≤ k) as Hge.
  { intros k z Hz Uz Hk. destruct (decide (k < length ordered)) as [Hlt|]; [|lia]. exfalso.
    rewrite lookup_app_l in Hk by done.
    assert (features !!! z ∈ ordered) as Hin by (apply list_elem_of_lookup; eauto).
    rewrite Hp in Hin. apply list_elem_of_In, in_map_iff in Hin as (m & Em & Hm).
    apply list_elem_of_In, Hs in Hm as [Hm Um]. apply Um.
    assert (m = z) as -> by (apply (prepare_key_inj σ features); [done..|]; by rewrite Em).
    done. }
  pose proof (Hge i x Hx Ux Hi) as Gi. pose proof (Hge j y Hy Uy Hj) as Gj.
  rewrite lookup_app_r in Hi, Hj by done.
  assert (∀ r, userFeatureIdOf (p_store p) r = userFeatureIdOf σ r) as EU.
  { intros r. unfold userFeatureIdOf, p.
    by destruct (prepare_store σ features r) as (_ & [-> _] & _). }
  rewrite <- !EU.
  assert (NoDup (map (userFeatureIdOf (p_store p)) (map (fun n => features !!! n) islands)))
    as ND; [|apply (StronglySorted_lookup _ _ (sortFeatures_sorted _ _ ND)
                      (i - length ordered) (j - length ordered)); [lia|done..]].
  apply NoDup_map_inj_on; [|apply NoDup_map_inj_on; [|apply islands_NoDup]].
  - intros a b Ha Hb E.
    apply list_elem_of_In, in_map_iff in Ha as (m & <- & Hm).
    apply list_elem_of_In, in_map_iff in Hb as (n & <- & Hn).
    apply list_elem_of_In, elem_of_islands in Hm as [Hm _].
    apply list_elem_of_In, elem_of_islands in Hn as [Hn _].
    f_equal. apply (prepare_key_inj σ features); [done..|].
    unfold keyOf. by rewrite <- !EU, E.
  - intros a b Ha Hb E. apply elem_of_islands in Ha as [Ha _], Hb as [Hb _].
    apply (prepare_key_inj σ features); [done..|]. by rewrite E.
Qed.

(** X4: a feature that takes part in an installs-after edge comes before every
    feature that takes part in none. *)
Theorem unrelated_features_come_last σ features σ' out i j x y :
  computeInstallationOrder σ features = (σ', Returned out) →
  x ∈ p_nodes (prepare σ features) → y ∈ p_nodes (prepare σ features) →
  ¬ unrelated σ features x → unrelated σ features y →
  out !! i = Some (features !!! x) → out !! j = Some (features !!! y) →
  i < j.
Proof.
  intros H Hx Hy Ux Uy Hi Hj.
  destruct (computeInstallationOrder_parts _ _ _ _ H) as (ordered & seen & -> & Hp & Hs).
  set (p := prepare σ features) in *.
  set (islands := (rootsAndIslands (p_graph p) (p_nodes p)).2) in *.
  assert (length ordered ≤ j) as Gj.
  { destruct (decide (j < length ordered)) as [Hlt|]; [|lia]. exfalso.
    rewrite lookup_app_l in Hj by done.
    assert (features !!! y ∈ ordered) as Hin by (apply list_elem_of_lookup; eauto).
    rewrite Hp in Hin. apply list_elem_of_In, in_map_iff in Hin as (m & Em & Hm).
    apply list_elem_of_In, Hs in Hm as [Hm Um]. apply Um.
    assert (m = y) as -> by (apply (prepare_key_inj σ features); [done..|]; by rewrite Em).
    done. }
  destruct (decide (i < length ordered)) as [Hlt|Hge]; [lia|]. exfalso.
  rewrite lookup_app_r in Hi by lia.
  assert (features !!! x ∈ sortFeatures (p_store p) (map (fun n => features !!! n) islands))
    as Hin by (apply list_elem_of_lookup; eauto).
  rewrite sortFeatures_Permutation in Hin.
  apply list_elem_of_In, in_map_iff in Hin as (m & Em & Hm). apply list_elem_of_In in Hm.
  assert (m = x) as ->.
  { apply (prepare_key_inj σ features); [by apply elem_of_islands in Hm as [Hm _]|done|].
    by rewrite Em. }
  apply Ux. by apply unrelated_island.
Qed.

(** ** The legacy-id rewrite, descriptor by descriptor *)

Lemma qualifyLegacyIds_other σ r x : x ≠ r → qualifyLegacyIds σ r !!! x = σ !!! x.
Proof.
  intros Hne. unfold qualifyLegacyIds.
  destruct (_ && _); [|done].
  destruct (featureRef _); [|done]. destruct (legacyIds _); [|done].
  by rewrite list_lookup_total_insert_ne.
Qed.

Lemma qualifyLegacyIds_congr σ σ' r :
  length σ' = length σ → σ' !!! r = σ !!! r →
  qualifyLegacyIds σ' r !!! r = qualifyLegacyIds σ r !!! r.
Proof.
  intros EL E. unfold qualifyLegacyIds. rewrite E.
  destruct (_ && _); [|done].
  destruct (featureRef _); [|done]. destruct (legacyIds _); [|done].
  destruct (decide (r < length σ)) as [Hlt|Hge].
  - rewrite !list_lookup_total_insert_eq; [done|lia..].
  - rewrite !list_insert_ge; [done|lia..].
Qed.

Lemma qualify_fold_once rs : ∀ σ r,
  NoDup rs →
  foldl qualifyLegacyIds σ rs !!! r
  = if decide (r ∈ rs) then qualifyLegacyIds σ r !!! r else σ !!! r.
Proof.
  induction rs as [|a rs IH]; intros σ r ND; simpl.
  - destruct (decide (r ∈ [])) as [H|_]; [by apply not_elem_of_nil in H|done].
  - apply NoDup_cons in ND as [Ha ND]. rewrite (IH _ _ ND).
    destruct (decide (r = a)) as [->|Hne].
    + rewrite decide_False by done. rewrite decide_True; [done|by left].
    + destruct (decide (r ∈ rs)) as [Hin|Hin].
      * rewrite decide_True by by right.
        apply qualifyLegacyIds_congr; [apply (qualifyLegacyIds_frame σ a 0)|].
        by apply qualifyLegacyIds_other.
      * rewrite decide_False by (rewrite elem_of_cons; tauto).
        by apply qualifyLegacyIds_other.
Qed.

Lemma qualifyAll_newNodes features ns : ∀ σ,
  qualifyAll σ (newNodes features) ns
  = foldl qualifyLegacyIds σ (map (fun n => features !!! n) ns).
Proof.
  unfold qualifyAll. induction ns as [|a ns IH]; intros σ; simpl; [done|].
  rewrite newNodes_lookup. cbn [feature]. apply IH.
Qed.

(** X5: after the call, the descriptor of a graph node that is from a registry
    and has legacy ids and a feature reference holds each legacy id and its
    current id with the prefix [registry/namespace/], put in front once; a
    descriptor that belongs to no graph node is as it was. *)
Theorem legacy_ids_are_prefixed_once σ features :
  let σ' := (computeInstallationOrder σ features).1 in
  (∀ n ref l,
     n ∈ p_nodes (prepare σ features) → features !!! n < length σ →
     type (sourceInformation (σ !!! (features !!! n))) = "oci" →
     featureRef (sourceInformation (σ !!! (features !!! n))) = Some ref →
     legacyIds (features_0 (σ !!! (features !!! n))) = Some l → l ≠ [] →
     let prefix := registry ref +:+ "/" +:+ namespace ref +:+ "/" in
     legacyIds (features_0 (σ' !!! (features !!! n)))
     = Some (map (fun legacyId => prefix +:+ legacyId) l)
     ∧ currentId (features_0 (σ' !!! (features !!! n)))
       = Some (prefix +:+ template (currentId (features_0 (σ !!! (features !!! n))))))
  ∧ (∀ r, (∀ n, n ∈ p_nodes (prepare σ features) → features !!! n ≠ r) →
          σ' !!! r = σ !!! r).
Proof.
  intros σ'.
  assert (∀ r, σ' !!! r
               = if decide (r ∈ map (fun n => features !!! n) (p_nodes (prepare σ features)))
                 then qualifyLegacyIds σ r !!! r else σ !!! r) as E.
  { intros r. unfold σ'. change (computeInstallationOrder σ features).1
      with (p_store (prepare σ features)).
    unfold prepare at 1. cbn [p_store].
    change (JS.Map_values (buildNodesById σ (newNodes features)))
      with (p_nodes (prepare σ features)).
    rewrite qualifyAll_newNodes. apply qualify_fold_once.
    apply NoDup_map_inj_on; [|apply prepare_nodes_NoDup].
      intros a b Ha Hb Eab. apply (prepare_key_inj σ features); [done..|]. by rewrite Eab. }
  split.
  - intros n ref l Hn Hr Ht Hf Hl Hne. rewrite E, decide_True.
    2: { apply list_elem_of_In, in_map_iff. exists n. split; [done|by apply list_elem_of_In]. }
    unfold qualifyLegacyIds. rewrite Ht, Hf, Hl.
    destruct l as [|a l]; [congruence|]. rewrite String.eqb_refl. cbn [andb length Nat.eqb negb].
    rewrite list_lookup_total_insert_eq by exact Hr. done.
  - intros r Hr. rewrite E, decide_False; [done|].
    intros (n & <- & Hn)%list_elem_of_In%in_map_iff. apply (Hr n); [|done].
    by apply list_elem_of_In.
Qed.


Lemma bac_unrelated x : unrelated Ex.bac [0; 1; 2] x.
Proof.
  assert (∀ later first, ¬ installsAfterEdge Ex.bac [0; 1; 2] later first) as N.
  { intros later first (Hl & firstId & Hid & _).
    replace (p_nodes (prepare Ex.bac [0; 1; 2])) with [0; 1; 2] in Hl by by vm_compute.
    repeat (apply elem_of_cons in Hl as [->|Hl]); [| | |by apply not_elem_of_nil in Hl];
      vm_compute in Hid; by apply not_elem_of_nil in Hid. }
  intros y. split; apply N.
Defined.

Lemma unrelated_features_are_sorted_witness :
  computeInstallationOrder Ex.bac [0; 1; 2] = (Ex.bac, Returned [1; 0; 2])
  ∧ JS.string_lt (userFeatureIdOf Ex.bac ([0; 1; 2] !!! 1))
                 (userFeatureIdOf Ex.bac ([0; 1; 2] !!! 0)) = true.
Proof.
  split; [by vm_compute|].
  apply (unrelated_features_are_sorted Ex.bac [0; 1; 2] Ex.bac [1; 0; 2] 0 1 1 0).
  - by vm_compute.
  - replace (p_nodes (prepare Ex.bac [0; 1; 2])) with [0; 1; 2] by by vm_compute.
    apply list_elem_of_In. simpl. auto.
  - replace (p_nodes (prepare Ex.bac [0; 1; 2])) with [0; 1; 2] by by vm_compute.
    apply list_elem_of_In. simpl. auto.
  - apply bac_unrelated.
  - apply bac_unrelated.
  - reflexivity.
  - reflexivity.
  - lia.
Defined.

Lemma island_edge : installsAfterEdge Ex.island [0; 1; 2] 1 2.
Proof.
  split.
  - replace (p_nodes (prepare Ex.island [0; 1; 2])) with [0; 1; 2] by by vm_compute.
    apply list_elem_of_In. simpl. auto.
  - exists "b". split.
    + replace (installsAfterOf _ _ 1) with ["b"] by by vm_compute. by left.
    + by vm_compute.
Defined.

Lemma island_unrelated : unrelated Ex.island [0; 1; 2] 0.
Proof.
  intros y. split; intros (Hl & firstId & Hid & R).
  - vm_compute in Hid. by apply not_elem_of_nil in Hid.
  - replace (p_nodes (prepare Ex.island [0; 1; 2])) with [0; 1; 2] in Hl by by vm_compute.
    repeat (apply elem_of_cons in Hl as [->|Hl]); [| | |by apply not_elem_of_nil in Hl].
    + vm_compute in Hid. by apply not_elem_of_nil in Hid.
    + assert (installsAfterOf (p_store (prepare Ex.island [0; 1; 2]))
                (p_graph (prepare Ex.island [0; 1; 2])) 1 = ["b"]) as EI by by vm_compute.
      rewrite EI in Hid. apply list_elem_of_singleton in Hid. subst firstId.
      vm_compute in R. discriminate R.
    + vm_compute in Hid. by apply not_elem_of_nil in Hid.
Defined.

Lemma unrelated_features_come_last_witness :
  computeInstallationOrder Ex.island [0; 1; 2] = (Ex.island, Returned [2; 1; 0])
  ∧ ¬ unrelated Ex.island [0; 1; 2] 1 ∧ unrelated Ex.island [0; 1; 2] 0
  ∧ 1 < 2.
Proof.
  assert (¬ unrelated Ex.island [0; 1; 2] 1) as N.
  { intros U. apply (proj1 (U 2)). exact island_edge. }
  split; [by vm_compute|]. split; [exact N|]. split; [exact island_unrelated|].
  apply (unrelated_features_come_last Ex.island [0; 1; 2] Ex.island [2; 1; 0] 1 2 1 0).
  - by vm_compute.
  - replace (p_nodes (prepare Ex.island [0; 1; 2])) with [0; 1; 2] by by vm_compute.
    apply list_elem_of_In. simpl. auto.
  - replace (p_nodes (prepare Ex.island [0; 1; 2])) with [0; 1; 2] by by vm_compute.
    apply list_elem_of_In. simpl. auto.
  - exact N.
  - exact island_unrelated.
  - reflexivity.
  - reflexivity.
Defined.

Lemma legacy_ids_are_prefixed_once_witness :
  legacyIds (features_0 ((computeInstallationOrder Ex.legacy [0; 1]).1 !!! ([0; 1] !!! 0)))
  = Some ["ghcr.io/acme/old"]
  ∧ (computeInstallationOrder Ex.legacy [0; 1]).1 !!! 1 = Ex.legacy !!! 1.
Proof.
  split.
  - apply (proj1 (legacy_ids_are_prefixed_once Ex.legacy [0; 1]) 0
             {| registry := "ghcr.io"; namespace := "acme"; resource := "ghcr.io/acme/z" |}
             ["old"]).
    + replace (p_nodes (prepare Ex.legacy [0; 1])) with [0; 1] by by vm_compute.
      apply list_elem_of_In. simpl. auto.
    + simpl. lia.
    + reflexivity.
    + reflexivity.
    + reflexivity.
    + discriminate.
  - by vm_compute.
Defined.


(** ** The override post-processor *)

Lemma indexOf_lookup l : ∀ x,
  x ∈ l → ∃ i, JS.indexOf l x = Z.of_nat i ∧ l !! i = Some x.
Proof.
  induction l as [|y l IH]; intros x Hx; [by apply not_elem_of_nil in Hx|].
  simpl. destruct (Nat.eqb_spec y x) as [->|Hne]; [by exists 0|].
  apply elem_of_cons in Hx as [->|Hx]; [done|].
  destruct (IH x Hx) as (i & -> & Hi). exists (S i). split; [|done].
  destruct (Z.ltb_spec (Z.of_nat i) 0); lia.
Qed.

Lemma splice_1_delete {A} (l : list A) i :
  i < length l → JS.splice_1 l (Z.of_nat i) = delete i l.
Proof.
  intros Hi. unfold JS.splice_1.
  destruct (Z.ltb_spec (Z.of_nat i) 0) as [?|_]; [lia|].
  rewrite Z.min_l by lia. rewrite Nat2Z.id. symmetry. apply delete_take_drop.
Qed.

Lemma list_difference_cons_r (l : list nat) : ∀ x k,
  list_difference l (x :: k) = list_difference (list_difference l [x]) k.
Proof.
  induction l as [|y l IH]; intros x k; simpl; [done|].
  destruct (decide_rel elem_of y (x :: k)) as [H|H];
    destruct (decide_rel elem_of y [x]) as [H1|H1]; simpl.
  - apply IH.
  - destruct (decide_rel elem_of y k) as [H2|H2]; [apply IH|].
    exfalso. apply elem_of_cons in H as [->|H]; [apply H1; by left|done].
  - exfalso. apply H. apply list_elem_of_singleton in H1 as ->. by left.
  - destruct (decide_rel elem_of y k) as [H2|H2]; [exfalso; apply H; by right|].
    by rewrite IH.
Qed.

Lemma delete_list_difference (l : list nat) : ∀ i x,
  NoDup l → l !! i = Some x → delete i l = list_difference l [x].
Proof.
  induction l as [|y l IH]; intros i x ND Hi; [done|].
  apply NoDup_cons in ND as [Hy ND]. destruct i as [|i]; simpl in *.
  - injection Hi as ->. destruct (decide_rel elem_of x [x]) as [_|H]; [|exfalso; apply H; by left].
    clear IH ND. induction l as [|z l IH]; simpl; [done|].
    destruct (decide_rel elem_of z [x]) as [H|_].
    + exfalso. apply list_elem_of_singleton in H as ->. apply Hy. by left.
    + f_equal. apply IH. intros H. apply Hy. by right.
  - destruct (decide_rel elem_of y [x]) as [H|_].
    + exfalso. apply list_elem_of_singleton in H as ->. apply Hy.
      by eapply list_elem_of_lookup_2.
    + f_equal. by apply IH.
Qed.

(** On an array without repeated entries that holds [x], the pair
    [indexOf]/[splice] removes [x] and nothing else. *)
Lemma splice_indexOf (l : list nat) x :
  NoDup l → x ∈ l → JS.splice_1 l (JS.indexOf l x) = list_difference l [x].
Proof.
  intros ND Hx. destruct (indexOf_lookup l x Hx) as (i & -> & Hi).
  rewrite splice_1_delete by by eapply lookup_lt_Some.
  by apply delete_list_difference.
Qed.

Lemma moveToFront_picks σ automaticOrder : ∀ ids picks orderedFeatures features,
  Forall2 (fun featureId f =>
             JS.Array_find (matchesOverride σ featureId) automaticOrder = Some f) ids picks →
  NoDup picks → NoDup features → (∀ f, f ∈ picks → f ∈ features) →
  moveToFront σ automaticOrder ids orderedFeatures features
  = (list_difference features picks,
     Returned (orderedFeatures ++ picks ++ list_difference features picks)).
Proof.
  induction ids as [|featureId ids IH]; intros picks acc features F NDp NDf Sub.
  - apply Forall2_nil_inv_l in F as ->. simpl.
    replace (list_difference features []) with features; [done|].
    clear. induction features as [|x l IH]; simpl; [done|]. by rewrite <- IH.
  - apply Forall2_cons_inv_l in F as (f & picks' & Hf & F & ->).
    apply NoDup_cons in NDp as [Hn NDp]. simpl. rewrite Hf.
    rewrite splice_indexOf; [|done|apply Sub; by left].
    rewrite (IH picks'); [|done|done|by apply NoDup_list_difference|].
    + rewrite <- list_difference_cons_r. by rewrite <- app_assoc.
    + intros g Hg. apply list_elem_of_difference. split; [apply Sub; by right|].
      intros ->%list_elem_of_singleton. done.
Qed.

Lemma list_difference_Permutation (picks : list nat) : ∀ features,
  NoDup picks → (∀ f, f ∈ picks → f ∈ features) → NoDup features →
  picks ++ list_difference features picks ≡ₚ features.
Proof.
  intros features NDp Sub NDf. apply NoDup_Permutation; [|done|].
  - apply NoDup_app. split; [done|]. split; [|by apply NoDup_list_difference].
    intros x Hx [_ H]%list_elem_of_difference. done.
  - intros x. rewrite elem_of_app, list_elem_of_difference. split.
    + intros [H|[H _]]; auto.
    + intros H. destruct (decide (x ∈ picks)); auto.
Qed.

(** X6: when the automatic order is returned, every identifier of the override
    list finds a feature, the features found are pairwise different and the
    caller's array holds no descriptor twice, the result is the features
    found, in the order of the override list, followed by the rest of the
    caller's array in its order: a rearrangement of the input.  The caller's
    array is left holding the rest. *)
Theorem override_moves_the_named_features_to_the_front
    σ config features σ' automaticOrder ids picks :
  computeInstallationOrder σ features = (σ', Returned automaticOrder) →
  overrideFeatureInstallOrder config = Some ids →
  Forall2 (fun featureId f =>
             JS.Array_find (matchesOverride σ' featureId) automaticOrder = Some f) ids picks →
  NoDup picks → NoDup features →
  computeFeatureInstallationOrder σ config features
  = (σ', list_difference features picks, Returned (picks ++ list_difference features picks))
  ∧ picks ++ list_difference features picks ≡ₚ features.
Proof.
  intros H Hc F NDp NDf.
  assert (∀ f, f ∈ picks → f ∈ features) as Sub.
  { intros f Hf. apply list_elem_of_lookup in Hf as [i Hi].
    destruct (Forall2_lookup_r _ _ _ _ _ F Hi) as (featureId & _ & Hfind).
    apply find_elem_of in Hfind.
    destruct (computeInstallationOrder_Returned _ _ _ _ H) as (_ & _ & Hin & _).
    apply Hin in Hfind as (n & [Hn _]%prepare_nodes & <-).
    apply list_elem_of_lookup_total_2. done. }
  split; [|by apply list_difference_Permutation].
  unfold computeFeatureInstallationOrder, computeOverrideInstallationOrder.
  rewrite Hc, H. cbn [fst snd]. by rewrite (moveToFront_picks _ _ _ picks).
Qed.

Lemma moveToFront_not_found σ automaticOrder featureId post : ∀ pre orderedFeatures features,
  (∀ i, i ∈ pre → is_Some (JS.Array_find (matchesOverride σ i) automaticOrder)) →
  JS.Array_find (matchesOverride σ featureId) automaticOrder = None →
  (moveToFront σ automaticOrder (pre ++ featureId :: post) orderedFeatures features).2
  = Thrown ("Feature " +:+ featureId +:+ " not found").
Proof.
  induction pre as [|i pre IH]; intros acc features Hpre Hnone; simpl.
  - by rewrite Hnone.
  - destruct (Hpre i) as [f ->]; [by left|]. apply IH; [|done].
    intros j Hj. apply Hpre. by right.
Qed.

(** X7: when the automatic order is returned and some identifier of the override
    list matches no feature of it, by its identifier with or without the
    version, the call throws [Feature <id> not found] for the first such
    identifier. *)
Theorem override_unknown_identifier_is_an_error
    σ config features σ' automaticOrder pre featureId post :
  computeInstallationOrder σ features = (σ', Returned automaticOrder) →
  overrideFeatureInstallOrder config = Some (pre ++ featureId :: post) →
  (∀ i, i ∈ pre → ∃ f, f ∈ automaticOrder ∧ matchesOverride σ' i f = true) →
  (∀ f, f ∈ automaticOrder → matchesOverride σ' featureId f = false) →
  (computeFeatureInstallationOrder σ config features).2
  = Thrown ("Feature " +:+ featureId +:+ " not found").
Proof.
  intros H Hc Hpre Hnone.
  unfold computeFeatureInstallationOrder, computeOverrideInstallationOrder.
  rewrite Hc, H. cbn [fst snd]. apply moveToFront_not_found.
  - intros i (f & Hf & Hm)%Hpre. unfold JS.Array_find.
    destruct (List.find _ automaticOrder) as [g|] eqn:E; [by eexists|].
    apply list_elem_of_In in Hf.
    pose proof (find_none _ _ E f Hf) as N. cbv beta in N. congruence.
  - unfold JS.Array_find. destruct (List.find _ automaticOrder) as [g|] eqn:E; [|done].
    apply find_some in E as [Hg Hm]. apply list_elem_of_In in Hg.
    rewrite (Hnone g Hg) in Hm. done.
Qed.

(** X8: with installs-after edges that have a cycle, the call throws the cyclic
    dependency error whatever the configuration says about an override
    order, and the caller's array is left as it was. *)
Theorem cyclic_dependency_error_with_any_configuration σ config features :
  ¬ acyclic σ features →
  ∃ σ' keys, keys ≠ []
    ∧ computeFeatureInstallationOrder σ config features
      = (σ', features, Thrown ("Features declare cyclic dependency: " +:+ JS.join ", " keys)).
Proof.
  intros N. destruct (computeInstallationOrder_cases σ features) as [[out H]|(keys & K & H)].
  - exfalso. apply N. by eapply computeInstallationOrder_Returned_acyclic.
  - exists (p_store (prepare σ features)), keys. split; [done|].
    unfold computeFeatureInstallationOrder, computeOverrideInstallationOrder.
    rewrite H. cbn [fst snd]. by destruct (overrideFeatureInstallOrder config).
Qed.

Lemma override_moves_the_named_features_to_the_front_witness :
  computeFeatureInstallationOrder Ex.bac (Ex.override ["c"; "a"]) [0; 1; 2]
  = (Ex.bac, list_difference [0; 1; 2] [2; 1], Returned ([2; 1] ++ list_difference [0; 1; 2] [2; 1]))
  ∧ [2; 1] ++ list_difference [0; 1; 2] [2; 1] ≡ₚ [0; 1; 2].
Proof.
  apply (override_moves_the_named_features_to_the_front
           Ex.bac (Ex.override ["c"; "a"]) [0; 1; 2] Ex.bac [1; 0; 2] ["c"; "a"] [2; 1]).
  - by vm_compute.
  - reflexivity.
  - repeat constructor.
  - apply NoDup_ListNoDup. repeat constructor; simpl; intuition lia.
  - apply NoDup_ListNoDup. repeat constructor; simpl; intuition lia.
Defined.

Lemma override_unknown_identifier_is_an_error_witness :
  (computeFeatureInstallationOrder Ex.bac (Ex.override ["c"; "d"; "a"]) [0; 1; 2]).2
  = Thrown "Feature d not found".
Proof.
  apply (override_unknown_identifier_is_an_error
           Ex.bac (Ex.override ["c"; "d"; "a"]) [0; 1; 2] Ex.bac [1; 0; 2] ["c"] "d" ["a"]).
  - by vm_compute.
  - reflexivity.
  - intros i ->%list_elem_of_singleton. exists 2. split; [|reflexivity].
    apply list_elem_of_In. simpl. auto.
  - intros f Hf. repeat (apply elem_of_cons in Hf as [->|Hf]); [reflexivity..|].
    by apply not_elem_of_nil in Hf.
Defined.

Lemma cycle_not_acyclic : ¬ acyclic Ex.cycle [0; 1; 2].
Proof.
  intros [rank R].
  assert (installsAfterEdge Ex.cycle [0; 1; 2] 0 1) as E1.
  { split.
    - replace (p_nodes (prepare Ex.cycle [0; 1; 2])) with [0; 1; 2] by by vm_compute.
      apply list_elem_of_In. simpl. auto.
    - exists "b". split; [|by vm_compute].
      replace (installsAfterOf _ _ 0) with ["b"] by by vm_compute. by left. }
  assert (installsAfterEdge Ex.cycle [0; 1; 2] 1 0) as E2.
  { split.
    - replace (p_nodes (prepare Ex.cycle [0; 1; 2])) with [0; 1; 2] by by vm_compute.
      apply list_elem_of_In. simpl. auto.
    - exists "a". split; [|by vm_compute].
      replace (installsAfterOf _ _ 1) with ["a"] by by vm_compute. by left. }
  apply R in E1, E2. lia.
Defined.

Lemma cyclic_dependency_error_with_any_configuration_witness :
  ¬ acyclic Ex.cycle [0; 1; 2]
  ∧ ∃ σ' keys, keys ≠ []
    ∧ computeFeatureInstallationOrder Ex.cycle (Ex.override ["c"]) [0; 1; 2]
      = (σ', [0; 1; 2], Thrown ("Features declare cyclic dependency: " +:+ JS.join ", " keys)).
Proof.
  split; [exact cycle_not_acyclic|].
  apply (cyclic_dependency_error_with_any_configuration Ex.cycle (Ex.override ["c"]) [0; 1; 2]).
  exact cycle_not_acyclic.
Defined.


(** ** The node set that the builder returns *)

Lemma fNodeEquality_trans a b c :
  fNodeEquality a b = true → fNodeEquality b c = true → fNodeEquality a c = true.
Proof. rewrite !fNodeEquality_spec. intros [-> ->] [-> ->]. done. Qed.

Lemma fetched_app e1 e2 : fetched (e1 ++ e2) = fetched e1 ++ fetched e2.
Proof. unfold fetched. apply flat_map_app. Qed.

Lemma addDependencies_shape params current entries : ∀ s s' c,
  addDependencies params current entries s = (s', c) →
  current < length (heap s) →
  length (heap s) ≤ length (heap s')
  ∧ acc s' = acc s ∧ events s' = events s
  ∧ (∃ new, worklist s' = worklist s ++ new ∧ NoDup new
            ∧ (∀ r, r ∈ new → length (heap s) ≤ r < length (heap s')
                              ∧ dependsOn (heap s' !!! r) = [])
            ∧ dependsOn (heap s' !!! current) = dependsOn (heap s !!! current) ++ new)
  ∧ (∀ n, n < length (heap s) →
          id (heap s' !!! n) = id (heap s !!! n)
          ∧ options (heap s' !!! n) = options (heap s !!! n)
          ∧ (n ≠ current → dependsOn (heap s' !!! n) = dependsOn (heap s !!! n))).
Proof.
  induction entries as [|[i o] entries IH]; intros s s' c; simpl.
  - intros [= <- <-] Hc. split; [done|]. split; [done|]. split; [done|]. split; [|done].
    exists []. rewrite !app_nil_r. split; [done|]. split; [apply NoDup_nil_2|].
    split; [|done]. intros r Hr. by apply not_elem_of_nil in Hr.
  - destruct (getRef params i) as [ref|].
    2: { intros [= <- <-] Hc. split; [done|]. split; [done|]. split; [done|]. split; [|done].
         exists []. rewrite !app_nil_r. split; [done|]. split; [apply NoDup_nil_2|].
         split; [|done]. intros r Hr. by apply not_elem_of_nil in Hr. }
    set (node := {| id := resource ref; options := o; dependsOn := [] |}).
    intros H Hc. apply IH in H; cbn [heap worklist acc events] in *.
    2: { rewrite length_alter, length_app. simpl. lia. }
    rewrite length_alter, length_app in H. cbn [length] in H.
    destruct H as (HL & HA & HE & (new & HW & ND & HN & HD) & HP).
    assert (∀ n, n < length (heap s) →
                 id (alter (dependsOn_push (length (heap s))) current (heap s ++ [node]) !!! n)
                 = id (heap s !!! n)
                 ∧ options (alter (dependsOn_push (length (heap s))) current (heap s ++ [node]) !!! n)
                   = options (heap s !!! n)
                 ∧ (n ≠ current →
                    dependsOn (alter (dependsOn_push (length (heap s))) current (heap s ++ [node]) !!! n)
                    = dependsOn (heap s !!! n))) as Old.
    { intros n Hn. rewrite list_lookup_total_alter.
      destruct (decide _) as [[-> _]|N]; simpl; rewrite lookup_total_app_l by done; [done|].
      split; [done|]. split; [done|]. done. }
    split; [lia|]. split; [done|]. split; [done|]. split.
    + exists (length (heap s) :: new). rewrite HW, <- app_assoc. split; [done|]. split; [|split].
      * apply NoDup_cons. split; [|done]. intros Hin. apply HN in Hin as [Hin _]. lia.
      * intros r [->|Hr]%elem_of_cons.
        -- split; [lia|]. destruct (HP (length (heap s))) as (_ & _ & E); [lia|].
           rewrite E by lia. rewrite list_lookup_total_alter_ne by lia.
           rewrite lookup_total_app_r by done. by rewrite Nat.sub_diag.
        -- destruct (HN r Hr) as [? ?]. split; [lia|done].
      * rewrite HD. rewrite list_lookup_total_alter.
        rewrite decide_True by (split; [done|rewrite length_app; simpl; lia]).
        simpl. rewrite lookup_total_app_l by done. by rewrite <- app_assoc.
    + intros n Hn. destruct (HP n) as (E1 & E2 & E3); [lia|].
      destruct (Old n Hn) as (O1 & O2 & O3).
      split; [congruence|]. split; [congruence|]. intros Hne. rewrite E3, O3; done.
Qed.

Lemma not_in_acc s current :
  existsb (fun f => fNodeEquality (heap s !!! f) (heap s !!! current)) (acc s) = false →
  current ∉ acc s.
Proof.
  intros E Hin. assert (existsb (fun f => fNodeEquality (heap s !!! f) (heap s !!! current))
                                (acc s) = true) as T; [|congruence].
  apply existsb_exists. exists current. split; [by apply list_elem_of_In|].
  apply fNodeEquality_refl.
Qed.

Lemma turn_Closed params current rest s s' t :
  Closed s → worklist s = current :: rest →
  turn params current (shifted s rest) = (s', t) → t = Continue ∨ t = CallSelf →
  Closed s'.
Proof.
  intros C W T Ht.
  assert (BuildInv (shifted s rest) ∧ current < length (heap s)) as [IS Hc].
  { destruct (cl_inv _ C) as [IA IW D]. rewrite W in IW. split; [split; simpl; auto|].
    - intros r Hr. apply IW. by right.
    - apply IW. by left. }
  pose proof (turn_BuildInv _ _ _ _ _ IS Hc T) as I'.
  destruct C as [I ND F R Cl Fe]. rewrite W in ND, F, Cl.
  apply NoDup_cons in ND as [Hcr ND].
  revert T. unfold turn. cbn [shifted heap worklist acc events].
  destruct (existsb _ (acc s)) eqn:E.
  { intros [= <- <-]. split; cbn [shifted heap worklist acc events]; try done.
    - intros r Hr. apply F. by right.
    - intros n d Hn Hd. destruct (Cl n d Hn Hd) as [H|H]; [by left|].
      apply elem_of_cons in H as [->|H]; [|by right]. left.
      apply existsb_exists in E as (m & Hm & E). exists m.
      split; [by apply list_elem_of_In|done]. }
  pose proof (not_in_acc _ _ E) as Hnc.
  destruct (fetchOCIFeatureManifestIfExistsFromUserIdentifier params _) as [[manifest|]|m|];
    try (intros [= <- <-]; by destruct Ht).
  assert (∀ s2, heap s2 = heap s → worklist s2 = rest → acc s2 = acc s ++ [current] →
                events s2 = events s
                  ++ [Write ("Resolving dependencies for '" +:+ id (heap s !!! current)
                             +:+ "'...") Info; Fetch (id (heap s !!! current))] →
                BuildInv s2 → Closed s2) as Plain.
  { intros s2 EH EW EA EE I2. split; [done|rewrite EW; done|..]; rewrite ?EH, ?EW, ?EA, ?EE.
    - intros r Hr. apply F. by right.
    - intros n d [Hn| ->%list_elem_of_singleton]%elem_of_app Hd; [by eapply R|].
      rewrite (F current) in Hd by by left. by apply not_elem_of_nil in Hd.
    - intros n d [Hn| ->%list_elem_of_singleton]%elem_of_app Hd.
      + destruct (Cl n d Hn Hd) as [(m & Hm & Em)|H].
        * left. exists m. split; [|done]. apply elem_of_app. by left.
        * apply elem_of_cons in H as [->|H]; [|by right]. left. exists current.
          split; [apply elem_of_app; right; by left|apply fNodeEquality_refl].
      + rewrite (F current) in Hd by by left. by apply not_elem_of_nil in Hd.
    - rewrite fetched_app, map_app, Fe. done. }
  destruct (match annotations manifest with Some a => _ | None => None end) as [ser|].
  2: { intros [= <- <-]. by apply Plain. }
  destruct (String.eqb ser EmptyString).
  { intros [= <- <-]. by apply Plain. }
  destruct (JSON_parse params ser) as [entries|m|]; try (intros [= <- <-]; by destruct Ht).
  destruct (addDependencies params current entries _) as [s2 c] eqn:A.
  apply addDependencies_shape in A; [|done]. cbn [heap worklist acc events] in A.
  destruct A as (HL & HA & HE & (new & HW & NDn & HN & HD) & HP).
  destruct c as [[]| |]; try (intros [= <- <-]; by destruct Ht).
  intros [= <- <-]. clear Plain.
  assert (∀ a b, a < length (heap s) → b < length (heap s) →
                 fNodeEquality (heap s2 !!! a) (heap s2 !!! b)
                 = fNodeEquality (heap s !!! a) (heap s !!! b)) as EQ.
  { intros a b Ha Hb. destruct (HP a Ha) as (? & ? & _), (HP b Hb) as (? & ? & _).
    by apply fNodeEquality_ext. }
  assert (∀ n, n ∈ acc s → n < length (heap s) ∧ n ≠ current) as AccR.
  { intros n Hn. split; [by apply (bi_acc _ I)|]. intros ->. done. }
  split; cbn [heap worklist acc events]; [done|..].
  - rewrite HW. apply NoDup_app. split; [done|]. split; [|done].
    intros r Hr Hr'. apply HN in Hr' as [? _].
    assert (r < length (heap s)); [|lia]. apply (bi_worklist _ I). rewrite W. by right.
  - rewrite HW. intros r [Hr|Hr]%elem_of_app; [|by apply HN].
    assert (r < length (heap s)) as Hlt by (apply (bi_worklist _ I); rewrite W; by right).
    destruct (HP r Hlt) as (_ & _ & E3). rewrite E3; [apply F; by right|by intros ->].
  - rewrite HA. intros n d [Hn| ->%list_elem_of_singleton]%elem_of_app Hd.
    + destruct (AccR n Hn) as [Hlt Hne]. destruct (HP n Hlt) as (_ & _ & E3).
      rewrite E3 in Hd by done. specialize (R n d Hn Hd). lia.
    + rewrite HD, (F current), app_nil_l in Hd by by left. apply HN in Hd as [? _]. lia.
  - rewrite HA, HW. intros n d [Hn| ->%list_elem_of_singleton]%elem_of_app Hd.
    + destruct (AccR n Hn) as [Hlt Hne]. destruct (HP n Hlt) as (_ & _ & E3).
      rewrite E3 in Hd by done. pose proof (R n d Hn Hd) as Hdlt.
      destruct (Cl n d Hn Hd) as [(m & Hm & Em)|H].
      * left. exists m. split; [apply elem_of_app; by left|].
        rewrite EQ; [done|by apply AccR|done].
      * apply elem_of_cons in H as [->|H].
        -- left. exists current. split; [apply elem_of_app; right; by left|].
           apply fNodeEquality_refl.
        -- right. apply elem_of_app. by left.
    + rewrite HD, (F current), app_nil_l in Hd by by left.
      right. apply elem_of_app. by right.
  - rewrite HE, HA, fetched_app, map_app, Fe. cbn. f_equal.
    + apply map_ext_in. intros n Hn%list_elem_of_In. by destruct (HP n (proj1 (AccR n Hn))) as (-> & _).
    + by destruct (HP current Hc) as (-> & _).
Qed.

Lemma _buildDependencyGraph_Closed params fuel : ∀ s s' l,
  Closed s → _buildDependencyGraph fuel params s = (s', Returned l) → Closed s'.
Proof.
  induction fuel as [|fuel IH]; intros s s' l C; simpl.
  - destruct (worklist s); [|done]. by intros [= <- _].
  - destruct (worklist s) as [|current rest] eqn:W; [by intros [= <- _]|].
    destruct (turn params current (shifted s rest)) as [s1 t] eqn:T.
    destruct t; try done.
    + apply IH. eapply turn_Closed; eauto.
    + destruct (_buildDependencyGraph fuel params s1) as [s2 c2] eqn:B.
      destruct c2 as [l2| |]; try done.
      apply IH. apply IH in B; [done|]. eapply turn_Closed; eauto.
Qed.

Lemma rootNodesOf_fresh params : ∀ userFeatures rootNodes,
  rootNodesOf params userFeatures = Returned rootNodes →
  ∀ r, dependsOn (rootNodes !!! r) = [].
Proof.
  induction userFeatures as [|[fid fopts] rest IH]; intros rootNodes; simpl.
  - intros [= <-] r. by destruct r.
  - destruct (getRef params fid) as [ref|]; [|done].
    destruct (rootNodesOf params rest) as [h| |]; simpl; [|done..].
    intros [= <-] [|r]; [done|]. exact (IH h eq_refl r).
Qed.

Lemma Closed_initial rootNodes :
  (∀ r, dependsOn (rootNodes !!! r) = []) →
  Closed {| heap := rootNodes; worklist := seq 0 (length rootNodes); acc := []; events := [] |}.
Proof.
  intros F. split; cbn [heap worklist acc events]; try done.
  - split; cbn [heap worklist acc events].
    + intros r Hr. by apply not_elem_of_nil in Hr.
    + intros r Hr. apply list_elem_of_In, in_seq in Hr. lia.
    + split; [apply NoDup_nil_2|]. intros a b Ha. by apply not_elem_of_nil in Ha.
  - apply NoDup_seq.
  - intros n d Hn. by apply not_elem_of_nil in Hn.
  - intros n d Hn. by apply not_elem_of_nil in Hn.
Qed.

Lemma buildDependencyGraphFromConfig_Closed fuel params config s nodes :
  buildDependencyGraphFromConfig fuel params config = (s, Returned nodes) →
  Closed s ∧ worklist s = [] ∧ nodes = acc s.
Proof.
  unfold buildDependencyGraphFromConfig.
  destruct (userFeaturesToArray params config) as [uf|]; [|done].
  destruct (rootNodesOf params uf) as [roots| |] eqn:R; [|done..].
  intros B. split; [|by apply _buildDependencyGraph_returned in B].
  apply _buildDependencyGraph_Closed in B; [done|].
  apply Closed_initial. by eapply rootNodesOf_fresh.
Qed.

Lemma buildDependencyGraphFromFeatureRef_Closed fuel params featureRef s nodes :
  buildDependencyGraphFromFeatureRef fuel params featureRef = (s, Returned nodes) →
  Closed s ∧ worklist s = [] ∧ nodes = acc s.
Proof.
  unfold buildDependencyGraphFromFeatureRef.
  intros B. split; [|by apply _buildDependencyGraph_returned in B].
  apply _buildDependencyGraph_Closed in B; [done|].
  apply (Closed_initial [{| id := resource featureRef; options := OUndefined; dependsOn := [] |}]).
  intros [|[|r]]; done.
Qed.

Lemma Closed_returned s n d :
  Closed s → worklist s = [] → n ∈ acc s → d ∈ dependsOn (heap s !!! n) →
  ∃ m, m ∈ acc s ∧ fNodeEquality (heap s !!! m) (heap s !!! d) = true.
Proof.
  intros C W Hn Hd. destruct (cl_closed _ C n d Hn Hd) as [H|H]; [done|].
  rewrite W in H. by apply not_elem_of_nil in H.
Qed.

(** X9: the node set that the builder returns, from the features of the
    configuration or from one feature reference, is closed under
    [dependsOn]: every dependency of a returned node is equal, for
    [fNodeEquality], to a returned node; and no two returned nodes are
    equal. *)
Theorem builder_returns_a_closed_set_of_distinct_nodes fuel params :
  (∀ config s nodes,
     buildDependencyGraphFromConfig fuel params config = (s, Returned nodes) →
     distinctNodes (heap s) nodes
     ∧ ∀ n d, n ∈ nodes → d ∈ dependsOn (heap s !!! n) →
              ∃ m, m ∈ nodes ∧ fNodeEquality (heap s !!! m) (heap s !!! d) = true)
  ∧ (∀ featureRef s nodes,
       buildDependencyGraphFromFeatureRef fuel params featureRef = (s, Returned nodes) →
       distinctNodes (heap s) nodes
       ∧ ∀ n d, n ∈ nodes → d ∈ dependsOn (heap s !!! n) →
                ∃ m, m ∈ nodes ∧ fNodeEquality (heap s !!! m) (heap s !!! d) = true).
Proof.
  split.
  - intros config s nodes (C & W & ->)%buildDependencyGraphFromConfig_Closed.
    split; [apply (bi_distinct _ (cl_inv _ C))|]. intros n d. by apply Closed_returned.
  - intros featureRef s nodes (C & W & ->)%buildDependencyGraphFromFeatureRef_Closed.
    split; [apply (bi_distinct _ (cl_inv _ C))|]. intros n d. by apply Closed_returned.
Qed.

(** X10: when the builder returns, it has fetched one manifest for each returned
    node, in the order of the returned nodes, and no other. *)
Theorem builder_fetches_one_manifest_per_returned_node fuel params :
  (∀ config s nodes,
     buildDependencyGraphFromConfig fuel params config = (s, Returned nodes) →
     fetched (events s) = map (fun n => id (heap s !!! n)) nodes)
  ∧ (∀ featureRef s nodes,
       buildDependencyGraphFromFeatureRef fuel params featureRef = (s, Returned nodes) →
       fetched (events s) = map (fun n => id (heap s !!! n)) nodes).
Proof.
  split.
  - intros config s nodes (C & W & ->)%buildDependencyGraphFromConfig_Closed.
    apply (cl_fetched _ C).
  - intros featureRef s nodes (C & W & ->)%buildDependencyGraphFromFeatureRef_Closed.
    apply (cl_fetched _ C).
Qed.

(** ** The scheduler and cycles *)

Lemma min_rank (rank : nat → nat) (l : list nat) :
  l ≠ [] → ∃ n, n ∈ l ∧ ∀ m, m ∈ l → rank n ≤ rank m.
Proof.
  induction l as [|x l IH]; [done|]. intros _.
  destruct l as [|y l].
  - exists x. split; [by left|]. intros m ->%list_elem_of_singleton. done.
  - destruct IH as (n & Hn & Hmin); [done|].
    destruct (le_lt_dec (rank x) (rank n)) as [H|H].
    + exists x. split; [by left|]. intros m [->|Hm]%elem_of_cons; [done|].
      specialize (Hmin m Hm). lia.
    + exists n. split; [by right|]. intros m [->|Hm]%elem_of_cons; [lia|]. by apply Hmin.
Qed.

(** While the nodes that wait can be ranked along their dependencies and
    every dependency is equal to a node that waits or is installed, a round
    is never empty. *)
Lemma rounds_no_circular (rank : nat → nat) params h fuel : ∀ wl installationOrder evs,
  (∀ n d, n ∈ wl → d ∈ dependsOn (h !!! n) →
          ∃ m, (m ∈ wl ∨ m ∈ installationOrder) ∧ fNodeEquality (h !!! m) (h !!! d) = true) →
  (∀ n d m, n ∈ wl → d ∈ dependsOn (h !!! n) → m ∈ wl →
            fNodeEquality (h !!! m) (h !!! d) = true → rank m < rank n) →
  (rounds fuel params h wl installationOrder evs).2 ≠ Thrown "Circular dependency detected".
Proof.
  induction fuel as [|fuel IH]; intros wl io evs Cl Rk; simpl.
  - by destruct wl.
  - destruct wl as [|n0 wl0] eqn:W; [done|]. rewrite <- W in *.
    assert (wl ≠ []) as Hne by by rewrite W.
    set (round := List.filter (ready h io) wl).
    assert (round ≠ []) as Hr.
    { destruct (min_rank rank wl Hne) as (n & Hn & Hmin).
      assert (ready h io n = true) as R.
      { unfold ready. apply orb_true_iff. right. apply forallb_forall.
        intros d Hd%list_elem_of_In. apply existsb_exists.
        destruct (Cl n d Hn Hd) as (m & [Hm|Hm] & E).
        - specialize (Rk n d m Hn Hd Hm E). specialize (Hmin m Hm). lia.
        - exists m. split; [by apply list_elem_of_In|done]. }
      intros E. assert (In n round) as Hin by (apply filter_In; split; [by apply list_elem_of_In|done]).
      rewrite E in Hin. done. }
    destruct (Nat.eqb (length round) 0) eqn:E.
    { apply Nat.eqb_eq in E. by destruct round. }
    destruct (JS.sort_throwing _ round) as [round'| |] eqn:S; cbn [snd].
    + apply IH.
      * intros n d Hn Hd. apply list_elem_of_In, filter_In in Hn as [Hn Hf].
        apply list_elem_of_In in Hn.
        destruct (Cl n d Hn Hd) as (m & [Hm|Hm] & Em).
        -- destruct (existsb (fun r => fNodeEquality (h !!! r) (h !!! m)) round) eqn:X.
           ++ apply existsb_exists in X as (r & Hrr & Er). exists r. split.
              ** right. apply elem_of_app. right.
                 rewrite (sort_throwing_Permutation _ _ _ S). by apply list_elem_of_In.
              ** by eapply fNodeEquality_trans.
           ++ exists m. split; [|done]. left. apply list_elem_of_In, filter_In.
              split; [by apply list_elem_of_In|by rewrite X].
        -- exists m. split; [|done]. right. apply elem_of_app. by left.
      * intros n d m Hn Hd Hm. apply Rk; [|done|].
        -- apply list_elem_of_In, filter_In in Hn as [Hn _]. by apply list_elem_of_In.
        -- apply list_elem_of_In, filter_In in Hm as [Hm _]. by apply list_elem_of_In.
    + intros [= Hm]. apply sort_throwing_Thrown in S. rewrite S in Hm. discriminate Hm.
    + done.
Qed.

Lemma NoDup_position (out : list nat) :
  NoDup out →
  ∀ i a, out !! i = Some a →
         default 0 (fst <$> list_find (fun r => r = a) out) = i.
Proof.
  intros ND i a Hi.
  assert (list_find (fun r => r = a) out = Some (i, a)) as ->; [|done].
  apply list_find_Some. split; [done|]. split; [done|].
  intros j y Hj Hlt ->. pose proof (NoDup_lookup _ _ _ _ ND Hi Hj). lia.
Qed.

(** An order in which dependencies come first ranks its nodes. *)
Lemma dependenciesFirst_ranked h out :
  distinctNodes h out → dependenciesFirst h out → dependsOnRanked h out.
Proof.
  intros [ND D] DF.
  exists (fun n => default 0 (fst <$> list_find (fun r => r = n) out)).
  intros n d m Hn Hd Hm E.
  apply list_elem_of_lookup in Hn as [i Hi].
  destruct (DF i n d Hi Hd) as (j & b & Hj & Hb & Eb).
  assert (b = m) as ->.
  { apply D; [by eapply list_elem_of_lookup_2|done|].
    eapply fNodeEquality_trans; [exact Eb|]. by rewrite fNodeEquality_sym. }
  rewrite (NoDup_position _ ND _ _ Hi), (NoDup_position _ ND _ _ Hb). done.
Qed.

Lemma dependsOnRanked_Permutation h l l' :
  Permutation l l' → dependsOnRanked h l → dependsOnRanked h l'.
Proof.
  intros P [rank R]. exists rank. intros n d m Hn Hd Hm. apply R; [|done|]; by rewrite P.
Qed.

Lemma rounds_Thrown params h fuel : ∀ wl installationOrder evs evs' m,
  rounds fuel params h wl installationOrder evs = (evs', Thrown m) →
  m = "Circular dependency detected"
  ∨ m = "TypeError: Cannot read properties of undefined (reading 'localeCompare')".
Proof.
  induction fuel as [|fuel IH]; intros wl io evs evs' m; simpl.
  - by destruct wl.
  - destruct wl as [|n wl]; [done|].
    destruct (Nat.eqb _ 0); [intros [= _ <-]; by left|].
    destruct (JS.sort_throwing _ _) as [round'| |] eqn:S; [apply IH| |done].
    intros [= _ <-]. right. by apply sort_throwing_Thrown in S.
Qed.

(** X12: when the builder has returned its node set, the scheduler returns an
    order, or throws [Circular dependency detected], or throws the
    [TypeError] of the comparator.  It returns an order only when the
    returned nodes can be ranked along their dependencies, and it throws
    [Circular dependency detected] only when they cannot: the error does
    report a cycle. *)
Theorem circular_dependency_is_detected_on_cycles_only fuel params config s nodes :
  buildDependencyGraphFromConfig fuel params config = (s, Returned nodes) →
  let r := (computeDependsOnInstallationOrder fuel params config).2 in
  ((∃ out, r = Returned out)
   ∨ r = Thrown "Circular dependency detected"
   ∨ r = Thrown "TypeError: Cannot read properties of undefined (reading 'localeCompare')")
  ∧ ((∃ out, r = Returned out) → dependsOnRanked (heap s) nodes)
  ∧ (r = Thrown "Circular dependency detected" → ¬ dependsOnRanked (heap s) nodes).
Proof.
  intros B r.
  destruct (buildDependencyGraphFromConfig_Closed _ _ _ _ _ B) as (C & W & ->).
  assert (r = (schedule params (heap s) (acc s) (events s)).2) as Er.
  { unfold r, computeDependsOnInstallationOrder. by rewrite B. }
  pose proof (bi_distinct _ (cl_inv _ C)) as D.
  split; [|split].
  - rewrite Er. unfold schedule.
    pose proof (rounds_complete (length (acc s)) params (heap s) (acc s) []
                  (events s ++ [Write ("Starting with: " +:+ idsOf (heap s) (acc s)) Info])
                  (le_n _)) as ND.
    destruct (rounds _ _ _ _ _ _) as [evs' [out|m|]] eqn:R; cbn [snd] in *; [eauto| |done].
    right. apply rounds_Thrown in R as [->| ->]; auto.
  - intros [out Ho]. rewrite Er in Ho.
    destruct (schedule params (heap s) (acc s) (events s)) as [evs' c] eqn:S.
    cbn [snd] in Ho. subst c.
    pose proof (schedule_Permutation _ _ _ _ _ _ D S) as P.
    apply (dependsOnRanked_Permutation _ out); [done|].
    apply dependenciesFirst_ranked; [|by eapply schedule_dependenciesFirst].
    destruct D as [ND D]. split; [by rewrite P|].
    intros a b Ha Hb. rewrite P in Ha, Hb. by apply D.
  - intros Hc [rank Rk]. rewrite Er in Hc. revert Hc. unfold schedule.
    apply (rounds_no_circular rank).
    + intros n d Hn Hd. destruct (Closed_returned s n d C W Hn Hd) as (m & Hm & E). eauto.
    + done.
Qed.

(** ** Errors of the configuration *)



(** ** The properties of the hard path on example registries *)

Lemma builder_returns_a_closed_set_of_distinct_nodes_witness :
  let b := buildDependencyGraphFromConfig 10 Ex.xz Ex.noOverride in
  b.2 = Returned [0; 1]
  ∧ distinctNodes (heap b.1) [0; 1]
  ∧ ∃ m, m ∈ [0; 1] ∧ fNodeEquality (heap b.1 !!! m) (heap b.1 !!! 2) = true.
Proof.
  intros b. split; [by vm_compute|].
  destruct (proj1 (builder_returns_a_closed_set_of_distinct_nodes 10 Ex.xz)
              Ex.noOverride b.1 [0; 1]) as [D Cl]; [by vm_compute|].
  split; [exact D|]. apply (Cl 1 2).
  - right. by left.
  - replace (dependsOn (heap b.1 !!! 1)) with [2] by by vm_compute. by left.
Defined.

Lemma builder_fetches_one_manifest_per_returned_node_witness :
  let b := buildDependencyGraphFromConfig 10 Ex.abc Ex.noOverride in
  b.2 = Returned [0; 1; 2]
  ∧ fetched (events b.1) = map (fun n => id (heap b.1 !!! n)) [0; 1; 2].
Proof.
  intros b. split; [by vm_compute|].
  apply (proj1 (builder_fetches_one_manifest_per_returned_node 10 Ex.abc) Ex.noOverride).
  by vm_compute.
Defined.

Lemma circular_dependency_is_detected_on_cycles_only_witness :
  let b := buildDependencyGraphFromConfig 10 Ex.xz Ex.noOverride in
  b.2 = Returned [0; 1]
  ∧ (computeDependsOnInstallationOrder 10 Ex.xz Ex.noOverride).2
    = Thrown "Circular dependency detected"
  ∧ ¬ dependsOnRanked (heap b.1) [0; 1].
Proof.
  intros b. split; [by vm_compute|]. split; [by vm_compute|].
  apply (proj2 (proj2 (circular_dependency_is_detected_on_cycles_only
                         10 Ex.xz Ex.noOverride b.1 [0; 1] ltac:(by vm_compute)))).
  by vm_compute.
Defined.



(** ** The sanitizer of the control manifest *)

Lemma featureIdPrefixOf_true f v :
  featureIdPrefixOf f = Returned v → typeof_string v = true → hasStringPrefix f.
Proof.
  destruct f as [| | | | |items|entries]; simpl; try done; try by intros [= <-].
  intros [= <-] T. destruct (JS.Map_get entries "featureIdPrefix") as [[]|] eqn:E; try done.
  by eexists _, _.
Qed.

Lemma hasStringPrefix_keep f :
  hasStringPrefix f →
  bind (featureIdPrefixOf f) (fun v => Returned (typeof_string v)) = Returned true.
Proof. intros (entries & s & -> & E). simpl. by rewrite E. Qed.

Lemma Array_filter_throwing_Returned (l : list JSValue) : ∀ l',
  Array_filter_throwing
    (fun f => bind (featureIdPrefixOf f) (fun v => Returned (typeof_string v))) l = Returned l' →
  Forall hasStringPrefix l' ∧ sublist l' l ∧ (∀ f, f ∈ l → hasStringPrefix f → f ∈ l')
  ∧ (JNull ∉ l) ∧ (JUndefined ∉ l).
Proof.
  induction l as [|x l IH]; intros l'; simpl.
  - intros [= <-]. split; [done|]. split; [done|]. split; [done|].
    split; apply not_elem_of_nil.
  - destruct (featureIdPrefixOf x) as [v| |] eqn:P; simpl; [|done..].
    destruct (Array_filter_throwing _ l) as [r'| |] eqn:F; simpl; [|done..].
    intros [= <-]. destruct (IH r' eq_refl) as (A & S & C & N & U).
    assert (x ≠ JNull ∧ x ≠ JUndefined) as [Hn Hu] by (split; intros ->; done).
    split; [|split; [|split; [|split]]].
    + destruct (typeof_string v) eqn:T; [|done]. apply Forall_cons. split; [|done].
      by eapply featureIdPrefixOf_true.
    + destruct (typeof_string v); [by apply sublist_skip|by apply sublist_cons].
    + intros f [->|Hf]%elem_of_cons Hp.
      * pose proof (hasStringPrefix_keep _ Hp) as K. rewrite P in K. simpl in K.
        injection K as ->. by left.
      * specialize (C f Hf Hp). destruct (typeof_string v); [by right|done].
    + intros [E|H]%elem_of_cons; [by apply Hn|done].
    + intros [E|H]%elem_of_cons; [by apply Hu|done].
Qed.

Lemma Array_filter_throwing_fixed (l : list JSValue) :
  Forall hasStringPrefix l →
  Array_filter_throwing
    (fun f => bind (featureIdPrefixOf f) (fun v => Returned (typeof_string v))) l = Returned l.
Proof.
  induction 1 as [|x l Hx _ IH]; simpl; [done|].
  rewrite (hasStringPrefix_keep _ Hx). simpl. by rewrite IH.
Qed.

Lemma Array_filter_throwing_Thrown (l : list JSValue) :
  (∃ msg, Array_filter_throwing
            (fun f => bind (featureIdPrefixOf f) (fun v => Returned (typeof_string v))) l
          = Thrown msg)
  ↔ JNull ∈ l ∨ JUndefined ∈ l.
Proof.
  induction l as [|x l IH]; simpl.
  - split; [by intros [msg H]|]. intros [H|H]; by apply not_elem_of_nil in H.
  - destruct (featureIdPrefixOf x) as [v| |] eqn:P; simpl.
    + assert (x ≠ JNull ∧ x ≠ JUndefined) as [Hn Hu] by (split; intros ->; done).
      destruct (Array_filter_throwing _ l) as [r'| |] eqn:F; simpl.
      * split; [by intros [msg H]|].
        intros H. assert (JNull ∈ l ∨ JUndefined ∈ l) as H'.
        { destruct H as [[E|H]%elem_of_cons|[E|H]%elem_of_cons]; auto; congruence. }
        apply IH in H' as [msg H']. done.
      * split; [|by eauto]. intros _.
        destruct (proj1 IH) as [H|H]; [by eauto|left|right]; by right.
      * split; [by intros [msg H]|].
        intros H. assert (JNull ∈ l ∨ JUndefined ∈ l) as H'.
        { destruct H as [[E|H]%elem_of_cons|[E|H]%elem_of_cons]; auto; congruence. }
        apply IH in H' as [msg H']. done.
    + split; [|by eauto]. intros _. destruct x; try done; [right|left]; by left.
    + by destruct x.
Qed.

Lemma Array_filter_throwing_not_Diverged (l : list JSValue) :
  Array_filter_throwing
    (fun f => bind (featureIdPrefixOf f) (fun v => Returned (typeof_string v))) l ≠ Diverged.
Proof.
  induction l as [|x l IH]; simpl; [done|].
  destruct (featureIdPrefixOf x) as [v| |] eqn:P; simpl; [|done|by destruct x].
  destruct (Array_filter_throwing _ l) as [r'| |]; simpl; done.
Qed.

Lemma sanitizeControlManifest_Returned manifest m :
  sanitizeControlManifest manifest = Returned m →
  Forall hasStringPrefix (disallowedFeatures m)
  ∧ (∀ entries l,
       manifest = JObject entries →
       JS.Map_get entries "disallowedFeatures" = Some (JArray l) →
       sublist (disallowedFeatures m) l
       ∧ ∀ f, f ∈ l → hasStringPrefix f → f ∈ disallowedFeatures m)
  ∧ ((∀ entries l, manifest = JObject entries →
                   JS.Map_get entries "disallowedFeatures" ≠ Some (JArray l)) →
     disallowedFeatures m = []).
Proof.
  intros H. unfold sanitizeControlManifest in H.
  destruct manifest as [| | | | |items|entries];
    try (injection H as <-; split; [done|]; split; [by intros ? ? [=]|done]).
  destruct (JS.Map_get entries "disallowedFeatures") as [v|] eqn:E.
  2: { injection H as <-. split; [done|]. split; [|done]. intros ? ? [= <-]. by rewrite E. }
  destruct v as [| | | | |l|];
    try (injection H as <-; split; [done|]; split; [|done]; intros ? ? [= <-]; by rewrite E).
  destruct (Array_filter_throwing _ l) as [l'| |] eqn:F; simpl in H; [|done..].
  injection H as <-. simpl.
  destruct (Array_filter_throwing_Returned _ _ F) as (A & S & C & _).
  split; [done|]. split.
  - intros ? ? [= <-]. rewrite E. intros [= <-]. done.
  - intros N. by destruct (N entries l eq_refl).
Qed.

(** X15: what the sanitizer returns holds only objects whose [featureIdPrefix] is
    a string: those of the [disallowedFeatures] array of the manifest, in
    their order, and nothing when the manifest is no object or has no such
    array.  Sanitizing what the sanitizer returned changes nothing. *)
Theorem sanitizeControlManifest_keeps_the_entries_with_a_string_prefix manifest m :
  sanitizeControlManifest manifest = Returned m →
  Forall hasStringPrefix (disallowedFeatures m)
  ∧ (∀ entries l,
       manifest = JObject entries →
       JS.Map_get entries "disallowedFeatures" = Some (JArray l) →
       sublist (disallowedFeatures m) l
       ∧ ∀ f, f ∈ l → hasStringPrefix f → f ∈ disallowedFeatures m)
  ∧ ((∀ entries l, manifest = JObject entries →
                   JS.Map_get entries "disallowedFeatures" ≠ Some (JArray l)) →
     disallowedFeatures m = [])
  ∧ sanitizeControlManifest (JObject [("disallowedFeatures", JArray (disallowedFeatures m))])
    = Returned m.
Proof.
  intros H. destruct (sanitizeControlManifest_Returned _ _ H) as (A & B & C).
  split; [done|]. split; [done|]. split; [done|].
  simpl. rewrite Array_filter_throwing_fixed by done. simpl. by destruct m.
Qed.

(** X16: the sanitizer throws exactly when the [disallowedFeatures] array of the
    manifest holds [null] or [undefined]; it always completes. *)
Theorem sanitizeControlManifest_throws_on_a_null_entry manifest :
  sanitizeControlManifest manifest ≠ Diverged
  ∧ ((∃ msg, sanitizeControlManifest manifest = Thrown msg)
     ↔ ∃ entries l, manifest = JObject entries
                    ∧ JS.Map_get entries "disallowedFeatures" = Some (JArray l)
                    ∧ (JNull ∈ l ∨ JUndefined ∈ l)).
Proof.
  unfold sanitizeControlManifest.
  destruct manifest as [| | | | |items|entries];
    try (split; [done|]; split; [by intros [? ?]|by intros (? & ? & [=] & _)]).
  destruct (JS.Map_get entries "disallowedFeatures") as [v|] eqn:E.
  2: { split; [done|]. split; [by intros [? ?]|]. intros (? & ? & [= <-] & E' & _). congruence. }
  destruct v as [| | | | |l|];
    try (split; [done|]; split; [by intros [? ?]|];
         intros (? & ? & [= <-] & E' & _); congruence).
  pose proof (Array_filter_throwing_not_Diverged l) as ND.
  pose proof (Array_filter_throwing_Thrown l) as T.
  destruct (Array_filter_throwing _ l) as [l'| |] eqn:F; simpl; [| |done].
  - split; [done|]. split; [by intros [? ?]|].
    intros (? & l0 & [= <-] & E' & H). rewrite E in E'. injection E' as <-.
    apply T in H as [? ?]. done.
  - split; [done|]. split; [|by eauto]. intros _. exists entries, l.
    split; [done|]. split; [done|]. apply T. by eauto.
Qed.

(** ** Reading and updating the cached control manifest *)

Lemma andThen_inv {A B} (m : Run A) (k : A → Run B) effects r :
  andThen m k = (effects, r) →
  (∃ a e2, m = (take (length effects - length e2) effects, Returned a)
           ∧ k a = (e2, r) ∧ effects = m.1 ++ e2)
  ∨ (m = (effects, Thrown (match r with Thrown msg => msg | _ => EmptyString end))
     ∧ ∃ msg, r = Thrown msg)
  ∨ (m = (effects, Diverged) ∧ r = Diverged).
Proof.
  destruct m as [e1 [a|msg|]]; simpl.
  - destruct (k a) as [e2 r'] eqn:K. simpl. intros [= <- <-]. left. exists a, e2.
    rewrite length_app, Nat.add_sub, take_app_length. done.
  - intros [= <- <-]. right. left. eauto.
  - intros [= <- <-]. right. right. done.
Qed.

Lemma andThen_Returned {A B} (m : Run A) (k : A → Run B) effects b :
  andThen m k = (effects, Returned b) →
  ∃ e1 a e2, m = (e1, Returned a) ∧ k a = (e2, Returned b) ∧ effects = e1 ++ e2.
Proof.
  destruct m as [e1 [a|msg|]]; simpl; [|done..].
  destruct (k a) as [e2 r'] eqn:K. simpl. intros [= <- <-]. by eexists _, _, _.
Qed.

Lemma string_length_append (s t : string) :
  String.length (s +:+ t) = String.length s + String.length t.
Proof. induction s as [|c s IH]; simpl; [done|]. by rewrite IH. Qed.

Lemma tmp_path_differs (path uuid : string) : path +:+ "-" +:+ uuid ≠ path.
Proof.
  intros E. apply (f_equal String.length) in E.
  rewrite !string_length_append in E. simpl in E. lia.
Qed.

(** What [storeControlManifest] does: it creates the directory, writes the
    buffer to the temporary path and renames that to the cache path, as far
    as these calls succeed. *)
Lemma storeControlManifest_spec host buffer effects r :
  storeControlManifest host buffer = (effects, r) →
  let tmp := controlManifestPath host +:+ "-" +:+ crypto_randomUUID host in
  let all := [FsMkdir (path_dirname host (controlManifestPath host));
              FsWriteFile tmp buffer; FsRename tmp (controlManifestPath host)] in
  effects `prefix_of` all
  ∧ (∀ m, r = Returned m →
          effects = all ∧ sanitizeControlManifest (jsonc_parse host buffer) = Returned m).
Proof.
  unfold storeControlManifest, await, lift.
  destruct (fs_mkdir host) as [[]|e|]; simpl.
  2,3: intros [= <- <-]; split; [by eexists|done].
  destruct (fs_writeFile host) as [[]|e|]; simpl.
  2,3: intros [= <- <-]; split; [by eexists|done].
  destruct (fs_rename host) as [[]|e|]; simpl.
  2,3: intros [= <- <-]; split; [by eexists|done].
  intros [= <- <-]. split; [by exists []|]. done.
Qed.

Lemma younger_spec host st :
  negb (Qle_bool (mtimeMs st + cacheTimeoutMillis)%Q (Date_now host)) = true ↔ younger host st.
Proof.
  unfold younger. rewrite negb_true_iff. split.
  - intros H. apply Qnot_le_lt. intros L. apply Qle_bool_iff in L. congruence.
  - intros H. destruct (Qle_bool _ _) eqn:E; [|done].
    apply Qle_bool_iff in E. by apply Qle_not_lt in E.
Qed.

(** The runs of [updateControlManifest] that return. *)
Lemma updateControlManifest_Returned host oldManifest effects m :
  updateControlManifest host oldManifest = (effects, Returned m) →
  let path := controlManifestPath host in
  let tmp := path +:+ "-" +:+ crypto_randomUUID host in
  let store data := [FsMkdir (path_dirname host path); FsWriteFile tmp data; FsRename tmp path] in
  (∃ data, request host = Fulfilled data
           ∧ sanitizeControlManifest (jsonc_parse host data) = Returned m
           ∧ effects = HttpGet controlManifestURL :: store data)
  ∨ (∃ err, request host = Rejected err ∧ oldManifest = Some m
            ∧ effects = [HttpGet controlManifestURL;
                         OutputWrite ("Failed to fetch control manifest: " +:+ message err) Error;
                         FsUtimes path (new_Date host) (new_Date host)])
  ∨ (∃ err, request host = Rejected err ∧ oldManifest = None
            ∧ sanitizeControlManifest (jsonc_parse host emptyControlManifestText) = Returned m
            ∧ effects = [HttpGet controlManifestURL;
                         OutputWrite ("Failed to fetch control manifest: " +:+ message err) Error]
                        ++ store emptyControlManifestText).
Proof.
  unfold updateControlManifest, fetchControlManifest, await.
  destruct (request host) as [data|err|]; [| |done].
  - intros (e1 & [] & e2 & [= <-] & S & ->)%andThen_Returned.
    apply storeControlManifest_spec in S as [_ S]. destruct (S m eq_refl) as [-> E].
    left. by exists data.
  - intros (e1 & [] & e2 & [= <-] & S & ->)%andThen_Returned.
    destruct oldManifest as [old|].
    + apply andThen_Returned in S as (e3 & [] & e4 & U & [= <- <-] & ->).
      unfold await in U. destruct (fs_utimes host) as [[]| |]; [|done..].
      injection U as <-. right. left. by exists err.
    + apply storeControlManifest_spec in S as [_ S]. destruct (S m eq_refl) as [-> E].
      right. right. by exists err.
Qed.

(** The effects of any run of [updateControlManifest], whether it returns
    or not: a request first, and a write only to the temporary path. *)
Lemma updateControlManifest_effects host oldManifest effects r :
  updateControlManifest host oldManifest = (effects, r) →
  let path := controlManifestPath host in
  let tmp := path +:+ "-" +:+ crypto_randomUUID host in
  HttpGet controlManifestURL ∈ effects
  ∧ ∀ e, e ∈ effects →
      e = HttpGet controlManifestURL
      ∨ (∃ err, request host = Rejected err
                ∧ (e = OutputWrite ("Failed to fetch control manifest: " +:+ message err) Error
                   ∨ e = FsUtimes path (new_Date host) (new_Date host)
                   ∨ e = FsWriteFile tmp emptyControlManifestText))
      ∨ (∃ data, request host = Fulfilled data ∧ e = FsWriteFile tmp data)
      ∨ e = FsMkdir (path_dirname host path)
      ∨ e = FsRename tmp path.
Proof.
  intros H path tmp.
  assert (∀ data e r', storeControlManifest host data = (e, r') →
            ∀ x, x ∈ e → x = FsMkdir (path_dirname host path) ∨ x = FsWriteFile tmp data
                         ∨ x = FsRename tmp path) as St.
  { intros data e r' [[k Hk] _]%storeControlManifest_spec x Hx.
    assert (x ∈ e ++ k) as Hx' by (apply elem_of_app; by left).
    rewrite <- Hk in Hx'.
    repeat (apply elem_of_cons in Hx' as [->|Hx']); auto. by apply not_elem_of_nil in Hx'. }
  revert H. unfold updateControlManifest, fetchControlManifest, await.
  destruct (request host) as [data|err|].
  - destruct (storeControlManifest host data) as [e2 r2] eqn:S. simpl. intros [= <- <-].
    split; [by left|]. intros e [->|He]%elem_of_cons; [by left|].
    destruct (St _ _ _ S e He) as [-> | [-> | ->]]; eauto 10.
  - destruct oldManifest as [old|]; simpl.
    + unfold await. destruct (fs_utimes host) as [[]| |]; simpl; intros [= <- <-];
        (split; [by left|]); intros e He;
        repeat (apply elem_of_cons in He as [->|He]); eauto 10; by apply not_elem_of_nil in He.
    + destruct (storeControlManifest host emptyControlManifestText) as [e2 r2] eqn:S. simpl.
      intros [= <- <-]. split; [by left|].
      intros e [->|[->|He]%elem_of_cons]%elem_of_cons; [by left|eauto 10|].
      destruct (St _ _ _ S e He) as [-> | [-> | ->]]; eauto 10.
  - intros [= <- <-]. split; [by left|]. intros e ->%list_elem_of_singleton. by left.
Qed.

(** The runs of [getControlManifest]: a failure while the cache is read, a
    cache that is young enough, a cache that is too old, or no cache. *)
Lemma getControlManifest_cases host effects r :
  getControlManifest host = (effects, r) →
  let path := controlManifestPath host in
  ((∀ m, r ≠ Returned m) ∧ effects `prefix_of` [FsStat path; FsReadFile path])
  ∨ (∃ st buffer m, cacheOf host = Some (st, buffer)
       ∧ sanitizeControlManifest (jsonc_parse host buffer) = Returned m
       ∧ younger host st
       ∧ effects = [FsStat path; FsReadFile path] ∧ r = Returned m)
  ∨ (∃ st buffer m e2, cacheOf host = Some (st, buffer)
       ∧ sanitizeControlManifest (jsonc_parse host buffer) = Returned m
       ∧ ¬ younger host st
       ∧ updateControlManifest host (Some m) = (e2, r)
       ∧ effects = [FsStat path; FsReadFile path] ++ e2)
  ∨ (∃ front e2, cacheOf host = None
       ∧ updateControlManifest host None = (e2, r)
       ∧ effects = front ++ e2
       ∧ (front = [FsStat path] ∨ front = [FsStat path; FsReadFile path])).
Proof.
  intros H path. revert H.
  unfold getControlManifest, awaitUnlessENOENT, cacheOf, lift, ret. fold path.
  assert (∀ front, front = [FsStat path] ∨ front = [FsStat path; FsReadFile path] →
            front `prefix_of` [FsStat path; FsReadFile path]) as Pre.
  { intros front [->| ->]; [by exists [FsReadFile path]|by exists []]. }
  destruct (fs_stat host) as [st|err|]; simpl.
  - destruct (isFile st); simpl.
    + destruct (fs_readFile host) as [buffer|err|]; simpl.
      * destruct (sanitizeControlManifest (jsonc_parse host buffer)) as [m| |] eqn:S; simpl.
        -- destruct (negb _) eqn:Y; simpl.
           ++ intros [= <- <-]. right. left. exists st, buffer, m.
              split; [done|]. split; [done|]. split; [by apply younger_spec|done].
           ++ destruct (updateControlManifest host (Some m)) as [e2 r2] eqn:U. simpl.
              intros [= <- <-]. right. right. left. exists st, buffer, m, e2.
              split; [done|]. split; [done|]. split; [|done].
              intros Hy%younger_spec. congruence.
        -- intros [= <- <-]. left. split; [done|]. apply Pre. by right.
        -- intros [= <- <-]. left. split; [done|]. apply Pre. by right.
      * destruct (code err) as [c|]; [destruct (String.eqb c "ENOENT")|]; simpl.
        -- destruct (updateControlManifest host None) as [e2 r2] eqn:U. simpl.
           intros [= <- <-]. right. right. right. exists [FsStat path; FsReadFile path], e2.
           split; [done|]. split; [done|]. split; [done|]. by right.
        -- intros [= <- <-]. left. split; [done|]. apply Pre. by right.
        -- intros [= <- <-]. left. split; [done|]. apply Pre. by right.
      * intros [= <- <-]. left. split; [done|]. apply Pre. by right.
    + destruct (updateControlManifest host None) as [e2 r2] eqn:U. simpl.
      intros [= <- <-]. right. right. right. exists [FsStat path], e2.
      split; [done|]. split; [done|]. split; [done|]. by left.
  - destruct (code err) as [c|]; [destruct (String.eqb c "ENOENT")|]; simpl.
    + destruct (updateControlManifest host None) as [e2 r2] eqn:U. simpl.
      intros [= <- <-]. right. right. right. exists [FsStat path], e2.
      split; [done|]. split; [done|]. split; [done|]. by left.
    + intros [= <- <-]. left. split; [done|]. apply Pre. by left.
    + intros [= <- <-]. left. split; [done|]. apply Pre. by left.
  - intros [= <- <-]. left. split; [done|]. apply Pre. by left.
Qed.

(** X17: a manifest that [getControlManifest] returns has passed the sanitizer:
    it is what [sanitizeControlManifest] gave for the parsed cache file, for
    the parsed answer of the server, or for the empty manifest; so each of
    its entries is an object whose [featureIdPrefix] is a string. *)
Theorem getControlManifest_returns_a_sanitized_manifest host effects m :
  getControlManifest host = (effects, Returned m) →
  Forall hasStringPrefix (disallowedFeatures m)
  ∧ ((∃ st buffer, cacheOf host = Some (st, buffer)
                   ∧ sanitizeControlManifest (jsonc_parse host buffer) = Returned m)
     ∨ (∃ data, request host = Fulfilled data
                ∧ sanitizeControlManifest (jsonc_parse host data) = Returned m)
     ∨ (cacheOf host = None
        ∧ sanitizeControlManifest (jsonc_parse host emptyControlManifestText) = Returned m)).
Proof.
  intros H.
  assert ((∃ st buffer, cacheOf host = Some (st, buffer)
                        ∧ sanitizeControlManifest (jsonc_parse host buffer) = Returned m)
          ∨ (∃ data, request host = Fulfilled data
                     ∧ sanitizeControlManifest (jsonc_parse host data) = Returned m)
          ∨ (cacheOf host = None
             ∧ sanitizeControlManifest (jsonc_parse host emptyControlManifestText) = Returned m))
    as Src.
  { apply getControlManifest_cases in H
      as [[N _]|[(st & buffer & m' & C & S & _ & _ & [= <-])
               |[(st & buffer & m' & e2 & C & S & _ & U & _)|(front & e2 & C & U & _)]]].
    - by destruct (N m).
    - left. eauto.
    - apply updateControlManifest_Returned in U
        as [(data & R & S' & _)|[(err & _ & [= <-] & _)|(err & _ & [=] & _)]]; eauto 10.
    - apply updateControlManifest_Returned in U
        as [(data & R & S' & _)|[(err & _ & [=] & _)|(err & _ & _ & S' & _)]]; eauto 10. }
  split; [|done].
  destruct Src as [(st & buffer & _ & S)|[(data & _ & S)|[_ S]]];
    by apply sanitizeControlManifest_Returned in S as [A _].
Qed.

(** X18: a cache file that is younger than five minutes and passes the sanitizer
    is returned after a [stat] and a [readFile], with no request and no
    write; and a manifest is returned without a request from such a cache
    only. *)
Theorem young_cache_is_returned_without_a_request host :
  let path := controlManifestPath host in
  (∀ st buffer m,
     cacheOf host = Some (st, buffer) →
     sanitizeControlManifest (jsonc_parse host buffer) = Returned m →
     younger host st →
     getControlManifest host = ([FsStat path; FsReadFile path], Returned m))
  ∧ (∀ effects m,
       getControlManifest host = (effects, Returned m) →
       HttpGet controlManifestURL ∉ effects →
       ∃ st buffer, cacheOf host = Some (st, buffer) ∧ younger host st
                    ∧ sanitizeControlManifest (jsonc_parse host buffer) = Returned m).
Proof.
  intros path. split.
  - intros st buffer m C S Y. unfold cacheOf in C.
    unfold getControlManifest, awaitUnlessENOENT, lift, ret. fold path.
    destruct (fs_stat host) as [st0| |]; [|done..]. destruct (isFile st0) eqn:F; [|done].
    destruct (fs_readFile host) as [b0| |]; [|done..]. injection C as -> ->.
    cbn [andThen fst snd app]. rewrite F. cbn [andThen fst snd app].
    rewrite S. cbn [andThen fst snd app].
    apply younger_spec in Y. rewrite Y. done.
  - intros effects m G NR.
    apply getControlManifest_cases in G
      as [[N _]|[(st & buffer & m' & C & S & Y & _ & [= <-])
               |[(st & buffer & m' & e2 & C & S & _ & U & ->)|(front & e2 & C & U & -> & _)]]].
    + by destruct (N m).
    + eauto.
    + exfalso. apply NR. apply elem_of_app. right.
      by apply updateControlManifest_effects in U as [U _].
    + exfalso. apply NR. apply elem_of_app. right.
      by apply updateControlManifest_effects in U as [U _].
Qed.

(** X19: when the request for the control manifest fails, the failure is logged.
    With a cache that passes the sanitizer the cached manifest is returned
    and the cache file gets a new time stamp; nothing is written or renamed.
    Without a cache the empty manifest is written and returned. *)
Theorem failed_request_keeps_the_cached_manifest host err effects m :
  request host = Rejected err →
  getControlManifest host = (effects, Returned m) →
  HttpGet controlManifestURL ∈ effects →
  let path := controlManifestPath host in
  let tmp := path +:+ "-" +:+ crypto_randomUUID host in
  OutputWrite ("Failed to fetch control manifest: " +:+ message err) Error ∈ effects
  ∧ (∀ st buffer,
       cacheOf host = Some (st, buffer) →
       sanitizeControlManifest (jsonc_parse host buffer) = Returned m
       ∧ last effects = Some (FsUtimes path (new_Date host) (new_Date host))
       ∧ (∀ p data, FsWriteFile p data ∉ effects)
       ∧ (∀ a b, FsRename a b ∉ effects))
  ∧ (cacheOf host = None →
     sanitizeControlManifest (jsonc_parse host emptyControlManifestText) = Returned m
     ∧ FsWriteFile tmp emptyControlManifestText ∈ effects
     ∧ last effects = Some (FsRename tmp path)).
Proof.
  intros R G H path tmp.
  apply getControlManifest_cases in G
    as [[N _]|[(st & buffer & m' & C & S & Y & -> & [= <-])
             |[(st & buffer & m' & e2 & C & S & _ & U & ->)|(front & e2 & C & U & -> & F)]]].
  - by destruct (N m).
  - exfalso. repeat (apply elem_of_cons in H as [H|H]; [done|]). by apply not_elem_of_nil in H.
  - apply updateControlManifest_Returned in U
      as [(data & R' & _)|[(err' & R' & [= <-] & ->)|(err' & _ & [=] & _)]]; [congruence|].
    rewrite R in R'. injection R' as <-. fold path.
    split; [|split].
    + apply list_elem_of_In. simpl. auto.
    + intros st' buffer' C'. rewrite C in C'. injection C' as <- <-.
      split; [done|]. split; [done|]. split.
      * intros p data Hin. repeat (apply elem_of_cons in Hin as [Hin|Hin]; [done|]).
        by apply not_elem_of_nil in Hin.
      * intros a b Hin. repeat (apply elem_of_cons in Hin as [Hin|Hin]; [done|]).
        by apply not_elem_of_nil in Hin.
    + congruence.
  - apply updateControlManifest_Returned in U
      as [(data & R' & _)|[(err' & _ & [=] & _)|(err' & R' & _ & S & ->)]]; [congruence|].
    rewrite R in R'. injection R' as <-. fold path tmp.
    split; [|split].
    + apply elem_of_app. right. apply list_elem_of_In. simpl. auto.
    + congruence.
    + intros _. split; [done|]. split.
      * apply elem_of_app. right. apply list_elem_of_In. simpl. auto.
      * destruct F as [-> | ->]; done.
Qed.

(** X20: the cache file is never written in place.  Whatever the run does, a
    write goes to the temporary path beside the cache file, which differs
    from the cache path, and a rename moves that path onto the cache path.
    When a run that has written returns, the rename was its last effect and
    the manifest returned is the sanitized form of what was written. *)
Theorem cache_file_is_replaced_by_a_rename host effects r :
  getControlManifest host = (effects, r) →
  let path := controlManifestPath host in
  let tmp := path +:+ "-" +:+ crypto_randomUUID host in
  tmp ≠ path
  ∧ (∀ p data, FsWriteFile p data ∈ effects → p = tmp)
  ∧ (∀ a b, FsRename a b ∈ effects → a = tmp ∧ b = path)
  ∧ (∀ p data m, FsWriteFile p data ∈ effects → r = Returned m →
                 last effects = Some (FsRename tmp path)
                 ∧ sanitizeControlManifest (jsonc_parse host data) = Returned m).
Proof.
  intros G path tmp. split; [apply tmp_path_differs|].
  assert (∀ front e2, front `prefix_of` [FsStat path; FsReadFile path] →
            ∀ e, e ∈ front ++ e2 → (∀ p, e ≠ FsStat p) → (∀ p, e ≠ FsReadFile p) → e ∈ e2) as Fr.
  { intros front e2 [k Hk] e [He|He]%elem_of_app N1 N2; [|done]. exfalso.
    assert (e ∈ front ++ k) as He' by (apply elem_of_app; by left). rewrite <- Hk in He'.
    repeat (apply elem_of_cons in He' as [->|He']); [by eapply N1|by eapply N2|].
    by apply not_elem_of_nil in He'. }
  assert (∀ front, front = [FsStat path] ∨ front = [FsStat path; FsReadFile path] →
            front `prefix_of` [FsStat path; FsReadFile path]) as Pre.
  { intros front [->| ->]; [by exists [FsReadFile path]|by exists []]. }
  assert (∃ front e2 old, effects = front ++ e2
            ∧ front `prefix_of` [FsStat path; FsReadFile path]
            ∧ (e2 = [] ∨ updateControlManifest host old = (e2, r))) as (front & e2 & old & -> & P & U).
  { apply getControlManifest_cases in G
      as [[N P]|[(st & buffer & m' & C & S & Y & -> & ->)
               |[(st & buffer & m' & e2 & C & S & _ & U & ->)|(front & e2 & C & U & -> & F)]]].
    - exists effects, [], None. rewrite app_nil_r. auto.
    - exists [FsStat path; FsReadFile path], [], None. split; [done|]. split; [by exists []|auto].
    - exists [FsStat path; FsReadFile path], e2, (Some m'). split; [done|].
      split; [by exists []|auto].
    - exists front, e2, None. auto. }
  assert (∀ e, e ∈ front ++ e2 → (∀ p, e ≠ FsStat p) → (∀ p, e ≠ FsReadFile p) → e ∈ e2) as In2
    by by apply Fr.
  destruct U as [->|U].
  { split; [|split]; intros; exfalso; eapply not_elem_of_nil; eapply In2; eauto; done. }
  pose proof (updateControlManifest_effects _ _ _ _ U) as [_ All].
  split; [|split].
  - intros p data Hin%In2; [|done..].
    destruct (All _ Hin) as [E|[(err & _ & [E|[E|E]])|[(d & _ & E)|[E|E]]]];
      try discriminate E; by injection E as -> _.
  - intros a b Hin%In2; [|done..].
    destruct (All _ Hin) as [E|[(err & _ & [E|[E|E]])|[(d & _ & E)|[E|E]]]];
      try discriminate E. by injection E as -> ->.
  - intros p data m Hin%In2 ->; [|done..].
    apply updateControlManifest_Returned in U
      as [(d & R & S & ->)|[(err & R & _ & ->)|(err & R & _ & S & ->)]].
    + split; [by rewrite last_app|].
      repeat (apply elem_of_cons in Hin as [Hin|Hin]; try done).
      * by injection Hin as _ ->.
      * by apply not_elem_of_nil in Hin.
    + exfalso. repeat (apply elem_of_cons in Hin as [Hin|Hin]; [done|]).
      by apply not_elem_of_nil in Hin.
    + split; [by rewrite last_app|].
      repeat (apply elem_of_cons in Hin as [Hin|Hin]; try done).
      * by injection Hin as _ ->.
      * by apply not_elem_of_nil in Hin.
Qed.

(** ** The control manifest on example hosts *)

Lemma sanitizeControlManifest_keeps_the_entries_with_a_string_prefix_witness :
  let kept := [JObject [("featureIdPrefix", JString "ghcr.io/acme/bad")]] in
  sanitizeControlManifest Ex.mixedManifest = Returned {| disallowedFeatures := kept |}
  ∧ Forall hasStringPrefix kept
  ∧ sanitizeControlManifest (JObject [("disallowedFeatures", JArray kept)])
    = Returned {| disallowedFeatures := kept |}.
Proof.
  intros kept. split; [reflexivity|].
  destruct (sanitizeControlManifest_keeps_the_entries_with_a_string_prefix
              Ex.mixedManifest {| disallowedFeatures := kept |}) as (A & _ & _ & I).
  - reflexivity.
  - split; [exact A|exact I].
Defined.

Lemma sanitizeControlManifest_throws_on_a_null_entry_witness :
  ∃ msg, sanitizeControlManifest (JObject [("disallowedFeatures", JArray [JNull])]) = Thrown msg.
Proof.
  apply (proj2 (sanitizeControlManifest_throws_on_a_null_entry
                  (JObject [("disallowedFeatures", JArray [JNull])]))).
  exists [("disallowedFeatures", JArray [JNull])], [JNull].
  split; [reflexivity|]. split; [reflexivity|]. left. by left.
Defined.

Lemma getControlManifest_returns_a_sanitized_manifest_witness :
  let host := Ex.hostOf Ex.noEntry Ex.noEntry 400000 (Fulfilled "new/") in
  let m := {| disallowedFeatures := [JObject [("featureIdPrefix", JString "new/")]] |} in
  (getControlManifest host).2 = Returned m
  ∧ Forall hasStringPrefix (disallowedFeatures m).
Proof.
  intros host m. split; [by vm_compute|].
  apply (getControlManifest_returns_a_sanitized_manifest host (getControlManifest host).1 m).
  by vm_compute.
Defined.

Lemma young_cache_is_returned_without_a_request_witness :
  let host := Ex.hostOf Ex.cached Ex.cachedText 300999 Ex.offline in
  getControlManifest host
  = ([FsStat (controlManifestPath host); FsReadFile (controlManifestPath host)],
     Returned {| disallowedFeatures := [JObject [("featureIdPrefix", JString "old/")]] |}).
Proof.
  intros host.
  apply (proj1 (young_cache_is_returned_without_a_request host)
           {| isFile := true; mtimeMs := 1000 |} "old/").
  - reflexivity.
  - reflexivity.
  - by vm_compute.
Defined.

Lemma failed_request_keeps_the_cached_manifest_witness :
  let host := Ex.hostOf Ex.cached Ex.cachedText 301000 Ex.offline in
  let effects := (getControlManifest host).1 in
  (getControlManifest host).2
  = Returned {| disallowedFeatures := [JObject [("featureIdPrefix", JString "old/")]] |}
  ∧ OutputWrite "Failed to fetch control manifest: getaddrinfo ENOTFOUND containers.dev" Error
    ∈ effects
  ∧ last effects = Some (FsUtimes (controlManifestPath host) 301000 301000)
  ∧ ∀ p data, FsWriteFile p data ∉ effects.
Proof.
  intros host effects. split; [by vm_compute|].
  destruct (failed_request_keeps_the_cached_manifest host
              {| code := Some "ENOTFOUND"; message := "getaddrinfo ENOTFOUND containers.dev" |}
              effects
              {| disallowedFeatures := [JObject [("featureIdPrefix", JString "old/")]] |})
    as (L & C & _).
  - reflexivity.
  - by vm_compute.
  - apply list_elem_of_In. vm_compute. auto.
  - split; [exact L|].
    destruct (C {| isFile := true; mtimeMs := 1000 |} "old/" eq_refl) as (_ & U & W & _).
    split; [exact U|exact W].
Defined.

Lemma cache_file_is_replaced_by_a_rename_witness :
  let host := Ex.hostOf Ex.cached Ex.cachedText 301000 (Fulfilled "new/") in
  let tmp := controlManifestPath host +:+ "-1b9d6bcd" in
  FsWriteFile tmp "new/" ∈ (getControlManifest host).1
  ∧ last (getControlManifest host).1 = Some (FsRename tmp (controlManifestPath host))
  ∧ sanitizeControlManifest (jsonc_parse host "new/")
    = Returned {| disallowedFeatures := [JObject [("featureIdPrefix", JString "new/")]] |}.
Proof.
  intros host tmp.
  assert (FsWriteFile tmp "new/" ∈ (getControlManifest host).1) as W.
  { apply list_elem_of_In. vm_compute. auto 10. }
  split; [exact W|].
  apply (proj2 (proj2 (proj2 (cache_file_is_replaced_by_a_rename host
                                (getControlManifest host).1 (getControlManifest host).2
                                ltac:(by vm_compute)))) tmp "new/").
  - exact W.
  - by vm_compute.
Defined.


(** ** The layers of the soft order *)

Lemma StronglySorted_app {A} (R : A → A → Prop) (l1 l2 : list A) :
  StronglySorted R l1 → StronglySorted R l2 →
  (∀ a b, a ∈ l1 → b ∈ l2 → R a b) → StronglySorted R (l1 ++ l2).
Proof.
  induction 1 as [|x l1 S IH F]; intros S2 C; simpl; [done|].
  constructor.
  - apply IH; [done|]. intros a b Ha. apply C. by right.
  - apply List.Forall_forall. intros b Hb%in_app_iff. destruct Hb as [Hb|Hb].
    + rewrite List.Forall_forall in F. by apply F.
    + apply C; [by left|by apply list_elem_of_In].
Qed.

Lemma StronglySorted_impl {A} (R R' : A → A → Prop) (l : list A) :
  StronglySorted R l → (∀ a b, a ∈ l → b ∈ l → R a b → R' a b) → StronglySorted R' l.
Proof.
  induction 1 as [|x l S IH F]; intros I; constructor.
  - apply IH. intros a b Ha Hb. apply I; by right.
  - rewrite List.Forall_forall in *. intros b Hb. apply I; [by left| |by apply F].
    right. by apply list_elem_of_In.
Qed.

Section Depth.
Context (G0 : Graph) (nodes : list nat).
Hypothesis before_nodes : ∀ x l, l ∈ before (G0 !!! x) → l ∈ nodes.
Hypothesis before_after : ∀ x l, l ∈ before (G0 !!! x) → x ∈ after (G0 !!! l).
Hypothesis after_before : ∀ x y, y ∈ after (G0 !!! x) → x ∈ before (G0 !!! y).
Hypothesis before_NoDup : ∀ x, NoDup (before (G0 !!! x)).
Hypothesis feature_inj :
  ∀ x y, x ∈ nodes → y ∈ nodes → feature (G0 !!! x) = feature (G0 !!! y) → x = y.
Context (σ : Store) (depth : nat → nat).
Hypothesis id_inj :
  ∀ x y, x ∈ nodes → y ∈ nodes →
         userFeatureIdOf σ (feature (G0 !!! x)) = userFeatureIdOf σ (feature (G0 !!! y)) → x = y.
Hypothesis depth_lt : ∀ x y, x ∈ nodes → y ∈ after (G0 !!! x) → depth y < depth x.
Hypothesis depth_succ :
  ∀ x, x ∈ nodes → after (G0 !!! x) ≠ [] → ∃ y, y ∈ after (G0 !!! x) ∧ depth x = S (depth y).

Local Abbreviation Layer := (Layer G0 nodes).
Local Abbreviation Ranked := (Ranked σ depth G0 nodes).

Lemma Ranked_next k seen current G ordered :
  Layer seen current G ordered → Ranked k seen current ordered →
  let st := foldl visitAll (G, []) current in
  Ranked (S k) (seen ++ current) st.2
         (ordered ++ sortFeatures σ (map (fun node => feature (G !!! node)) current)).
Proof.
  intros L [RC RS RO] st.
  pose proof (Layer_next G0 nodes before_nodes before_after after_before before_NoDup
                feature_inj σ _ _ _ _ L) as L'. fold st in L'.
  destruct L as [M Hs Hc Hp Hv]. destruct L' as [M' Hs' Hc' Hp' Hv'].
  assert (map (fun node => feature (G !!! node)) current
          = map (fun node => feature (G0 !!! node)) current) as EF.
  { apply map_ext. intros x. apply (mid_feature _ _ _ _ _ _ M). }
  rewrite EF. split.
  - intros x Hx.
    pose proof (Hc' x Hx) as Hn.
    pose proof (mid_NoDup _ _ _ _ _ _ M') as ND. cbn [snd] in ND. rewrite app_nil_r in ND.
    assert (x ∉ seen ++ current) as Hnot.
    { apply NoDup_app in ND as (_ & D & _). intros H. by apply (D x H). }
    assert (∀ y, y ∈ after (G0 !!! x) → y ∈ seen ++ current) as Hb.
    { intros y Hy. destruct (mid_after _ _ _ _ _ _ M' x y Hy) as [H|[H|[]]]; [|done].
      pose proof (mid_empty _ _ _ _ _ _ M' x ltac:(auto)) as E'.
      cbn [fst snd] in H, E'. rewrite E' in H. by apply not_elem_of_nil in H. }
    assert (∃ y, y ∈ current ∧ y ∈ after (G0 !!! x)) as (y0 & Hy0 & Ha0).
    { destruct (decide (Exists (fun y => y ∈ current) (after (G0 !!! x)))) as [E|N].
      - apply Exists_exists in E as (y & Hy & Hyc). eauto.
      - exfalso. rewrite <- Forall_Exists_neg, Forall_forall in N.
        assert (after (G !!! x) = []) as E0.
        { destruct (after (G !!! x)) as [|y l] eqn:A; [done|]. exfalso.
          destruct (mid_exact _ _ _ _ _ _ M x y) as (H1 & H2 & _); [cbn [fst]; rewrite A; by left|].
          pose proof (Hb y H1) as [H3|H3]%elem_of_app; [done|by apply (N y)]. }
        destruct (mid_complete _ _ _ _ _ _ M x Hn E0) as [H|[H|[H|[H1 H2]]]].
        + apply Hnot, elem_of_app. by left.
        + apply Hnot, elem_of_app. by right.
        + by apply not_elem_of_nil in H.
        + destruct (mid_linked _ _ _ _ _ _ M' x); auto. }
    destruct (depth_succ x Hn) as (y & Hy & Ed).
    { intros E. rewrite E in Ha0. by apply not_elem_of_nil in Ha0. }
    pose proof (depth_lt x y0 Hn Ha0) as Hlt. rewrite (RC y0 Hy0) in Hlt.
    assert (depth y ≤ k); [|lia].
    apply Hb, elem_of_app in Hy as [Hy|Hy]; [apply RS in Hy; lia|by rewrite (RC y Hy)].
  - intros x [Hx|Hx]%elem_of_app; [apply RS in Hx; lia|rewrite (RC x Hx); lia].
  - assert (∀ f, f ∈ ordered → ∀ a, a ∈ nodes → feature (G0 !!! a) = f → a ∈ seen) as InS.
    { intros f Hf a Ha E. rewrite Hp in Hf.
      apply list_elem_of_In, in_map_iff in Hf as (a' & E' & Ha'). apply list_elem_of_In in Ha'.
      assert (a = a') as -> by (apply feature_inj; [done|by apply Hs|congruence]). done. }
    assert (∀ f, f ∈ sortFeatures σ (map (fun node => feature (G0 !!! node)) current) →
                 ∀ a, a ∈ nodes → feature (G0 !!! a) = f → a ∈ current) as InC.
    { intros f Hf a Ha E. rewrite sortFeatures_Permutation in Hf.
      apply list_elem_of_In, in_map_iff in Hf as (a' & E' & Ha'). apply list_elem_of_In in Ha'.
      assert (a = a') as -> by (apply feature_inj; [done|by apply Hc|congruence]). done. }
    apply StronglySorted_app; [done| |].
    + eapply StronglySorted_impl.
      * apply sortFeatures_sorted. rewrite map_map.
        apply NoDup_map_inj_on.
        -- intros a b Ha Hb. apply id_inj; by apply Hc.
        -- pose proof (mid_NoDup _ _ _ _ _ _ M) as ND. cbn [snd] in ND.
           rewrite app_nil_r in ND. by apply NoDup_app in ND as (_ & _ & ND).
      * intros fa fb Hfa Hfb Hlt a b Ha Hb Ea Eb. right. split; [|done].
        assert (a ∈ current) as Hac by by apply (InC fa Hfa).
        assert (b ∈ current) as Hbc by by apply (InC fb Hfb).
        by rewrite (RC a Hac), (RC b Hbc).
    + intros fa fb Hfa Hfb a b Ha Hb Ea Eb. left.
      pose proof (RS a (InS fa Hfa a Ha Ea)).
      assert (b ∈ current) as Hbc by by apply (InC fb Hfb).
      by rewrite (RC b Hbc).
Qed.

Lemma peel_Ranked (fuel : nat) : ∀ k seen current G ordered G' ordered',
  Layer seen current G ordered → Ranked k seen current ordered →
  peel fuel σ G current ordered = Returned (G', ordered') →
  StronglySorted (byDepthThenId σ depth G0 nodes) ordered'.
Proof.
  induction fuel as [|fuel IH]; intros k seen current G ordered G' ordered' L R.
  - destruct current; [|done]. simpl. intros [= _ <-]. apply (rk_sorted _ _ _ _ _ _ _ _ R).
  - destruct current as [|c current]; [simpl; intros [= _ <-]; apply (rk_sorted _ _ _ _ _ _ _ _ R)|].
    change (peel (S fuel) σ G (c :: current) ordered)
      with (peel fuel σ (foldl visitAll (G, []) (c :: current)).1
                 (foldl visitAll (G, []) (c :: current)).2
                 (ordered ++ sortFeatures σ (map (fun node => feature (G !!! node)) (c :: current)))).
    apply (IH (S k) (seen ++ c :: current)).
    + apply (Layer_next G0 nodes before_nodes before_after after_before before_NoDup
               feature_inj σ _ _ _ _ L).
    + by apply Ranked_next.
Qed.

End Depth.

Lemma string_lt_irrefl a : JS.string_lt a a = false.
Proof.
  unfold JS.string_lt, String.ltb.
  assert (String.compare a a = Eq) as ->; [|done].
  induction a as [|c a IH]; simpl; [done|].
  assert (Ascii.compare c c = Eq) as -> by (unfold Ascii.compare; apply N.compare_refl).
  done.
Qed.

(** The returned order, with the layers: the features of the nodes with
    edges in the order by depth, then by identifier, followed by the
    features of the nodes without, sorted. *)
Lemma computeInstallationOrder_layers σ features σ' out depth :
  computeInstallationOrder σ features = (σ', Returned out) →
  layering σ features depth →
  ∃ ordered seen,
    out = ordered
          ++ sortFeatures (p_store (prepare σ features))
               (map (fun n => features !!! n)
                    (rootsAndIslands (p_graph (prepare σ features))
                                     (p_nodes (prepare σ features))).2)
    ∧ Permutation ordered (map (fun n => features !!! n) seen)
    ∧ (∀ x, x ∈ seen → x ∈ p_nodes (prepare σ features) ∧ ¬ unrelated σ features x)
    ∧ StronglySorted (byDepthThenId (p_store (prepare σ features)) depth
                        (p_graph (prepare σ features)) (p_nodes (prepare σ features)))
                     ordered.
Proof.
  intros H Lay.
  set (p := prepare σ features) in *.
  pose proof (prepare_before_nodes σ features) as B1.
  pose proof (fun x l => proj1 (gi_inverse _ _ _ (prepare_graph σ features) l x)) as B2.
  pose proof (fun x y => proj2 (gi_inverse _ _ _ (prepare_graph σ features) x y)) as B3.
  pose proof (gi_before_NoDup _ _ _ (prepare_graph σ features)) as B4.
  pose proof (prepare_feature_inj σ features) as B5.
  fold p in B1, B2, B3, B4, B5.
  destruct (peel_Layer (p_graph p) (p_nodes p) B1 B2 B3 B4 B5 (p_store p)
              (S (length (p_nodes p))) []
              (rootsAndIslands (p_graph p) (p_nodes p)).1
              (p_graph p) [] (Layer_roots σ features))
    as (G' & ordered & seen & Hpeel & [M Hs _ Hp _]); [cbn [length]; lia|].
  exists ordered, seen.
  assert (∀ l, map (fun node => feature (p_graph p !!! node)) l
               = map (fun n => features !!! n) l) as EF.
  { intros l. apply map_ext. intros x. apply prepare_feature. }
  assert (∀ r, userFeatureIdOf (p_store p) r = userFeatureIdOf σ r) as EU.
  { intros r. unfold userFeatureIdOf, p.
    by destruct (prepare_store σ features r) as (_ & [-> _] & _). }
  split; [|split; [|split]].
  - unfold computeInstallationOrder, layeredOrder in H. fold p in H. rewrite Hpeel in H.
    cbn [bind snd] in H. rewrite EF in H. destruct (negb _); [done|]. by injection H as _ <-.
  - by rewrite Hp, EF.
  - intros x Hx. split; [by apply Hs|]. intros U.
    apply unrelated_island in U as (_ & Ha & Hb)%elem_of_islands; [|by apply Hs].
    destruct (mid_linked _ _ _ _ _ _ M x); auto.
  - apply (peel_Ranked (p_graph p) (p_nodes p) B1 B2 B3 B4 B5 (p_store p) depth)
      with (fuel := S (length (p_nodes p))) (k := 0) (seen := [])
           (current := (rootsAndIslands (p_graph p) (p_nodes p)).1)
           (G := p_graph p) (ordered := []) (G' := G').
    + intros a b Ha Hb E. apply (prepare_key_inj σ features); [done..|].
      rewrite !EU in E. unfold p in E. rewrite !prepare_feature in E.
      unfold keyOf. by rewrite E.
    + intros a b Ha Hb. by apply Lay, prepare_edges_declared.
    + intros a Ha Hne. destruct (after (p_graph p !!! a)) as [|b l] eqn:A; [done|].
      destruct (proj2 (proj2 (Lay a Ha))) as (c & Hc & Ec).
      * exists b. apply prepare_edges_declared. fold p. rewrite A. by left.
      * exists c. split; [|done]. apply prepare_edges in Hc. fold p in Hc. by rewrite <- A.
    + apply Layer_roots.
    + split.
      * intros a (Ha & Haf & _)%elem_of_roots. apply Lay; [done|].
        intros b Hb%prepare_edges. rewrite Haf in Hb.
        by apply not_elem_of_nil in Hb.
      * intros a Ha. by apply not_elem_of_nil in Ha.
      * constructor.
    + done.
Qed.

(** X2: of two features that take part in installs-after edges, the one in the
    lower layer comes first, and within a layer the one with the smaller
    identifier: the order of the input plays no part. *)
Theorem linked_features_are_ordered_by_depth_then_identifier
    σ features σ' out depth i j x y :
  computeInstallationOrder σ features = (σ', Returned out) →
  layering σ features depth →
  x ∈ p_nodes (prepare σ features) → y ∈ p_nodes (prepare σ features) →
  ¬ unrelated σ features x → ¬ unrelated σ features y →
  out !! i = Some (features !!! x) → out !! j = Some (features !!! y) →
  i < j ↔
  depth x < depth y
  ∨ (depth x = depth y
     ∧ JS.string_lt (userFeatureIdOf σ (features !!! x))
                    (userFeatureIdOf σ (features !!! y)) = true).
Proof.
  intros H Lay Hx Hy Ux Uy Hi Hj.
  destruct (computeInstallationOrder_layers _ _ _ _ _ H Lay)
    as (ordered & seen & -> & Hp & Hs & SS).
  set (p := prepare σ features) in *.
  set (islands := (rootsAndIslands (p_graph p) (p_nodes p)).2) in *.
  assert (∀ r, userFeatureIdOf (p_store p) r = userFeatureIdOf σ r) as EU.
  { intros r. unfold userFeatureIdOf, p.
    by destruct (prepare_store σ features r) as (_ & [-> _] & _). }
  assert (∀ k z, z ∈ p_nodes p → ¬ unrelated σ features z →
                 (ordered ++ sortFeatures (p_store p) (map (fun n => features !!! n) islands))
                   !! k = Some (features !!! z) →
                 ordered !! k = Some (features !!! z)) as Hlt.
  { intros k z Hz Uz Hk. destruct (decide (k < length ordered)) as [Hlt|Hge];
      [by rewrite lookup_app_l in Hk|]. exfalso.
    rewrite lookup_app_r in Hk by lia.
    assert (features !!! z ∈ sortFeatures (p_store p) (map (fun n => features !!! n) islands))
      as Hin by (apply list_elem_of_lookup; eauto).
    rewrite sortFeatures_Permutation in Hin.
    apply list_elem_of_In, in_map_iff in Hin as (m & Em & Hm). apply list_elem_of_In in Hm.
    assert (m = z) as ->.
    { apply (prepare_key_inj σ features); [by apply elem_of_islands in Hm as [Hm _]|done|].
      by rewrite Em. }
    apply Uz. by apply unrelated_island. }
  apply Hlt in Hi, Hj; [|done..].
  assert (∀ i j a b, a ∈ p_nodes p → b ∈ p_nodes p →
            ordered !! i = Some (features !!! a) → ordered !! j = Some (features !!! b) → i < j →
            depth a < depth b
            ∨ (depth a = depth b
               ∧ JS.string_lt (userFeatureIdOf σ (features !!! a))
                              (userFeatureIdOf σ (features !!! b)) = true)) as Fwd.
  { intros i' j' a b Ha Hb Hi' Hj' Hij.
    pose proof (StronglySorted_lookup _ _ SS i' j' _ _ Hij Hi' Hj' a b Ha Hb
                  (prepare_feature σ features a) (prepare_feature σ features b)) as R.
    by rewrite !EU in R. }
  split; [by apply Fwd|].
  intros R. destruct (Nat.lt_trichotomy i j) as [Hij|[->|Hji]]; [done|exfalso..].
  - rewrite Hi in Hj. injection Hj as E.
    assert (x = y) as -> by (apply (prepare_key_inj σ features); [done..|]; by rewrite E).
    destruct R as [R|[_ R]]; [lia|]. by rewrite string_lt_irrefl in R.
  - destruct (Fwd j i y x Hy Hx Hj Hi Hji) as [R'|[E' R']]; destruct R as [R|[E R]]; try lia.
    pose proof (string_lt_trans _ _ _ R R') as T. by rewrite string_lt_irrefl in T.
Qed.

Lemma chain_layering :
  layering Ex.chain [0; 1; 2] (fun n => match n with 1 => 0 | 2 => 1 | _ => 2 end).
Proof.
  assert (∀ later first, installsAfterEdge Ex.chain [0; 1; 2] later first →
                         (later = 0 ∧ first = 2) ∨ (later = 2 ∧ first = 1)) as Edges.
  { intros later first (Hl & firstId & Hid & R).
    assert (p_nodes (prepare Ex.chain [0; 1; 2]) = [0; 1; 2]) as EN by by vm_compute.
    rewrite EN in Hl.
    repeat (apply elem_of_cons in Hl as [->|Hl]); [| | |by apply not_elem_of_nil in Hl].
    - assert (installsAfterOf (p_store (prepare Ex.chain [0; 1; 2]))
                              (p_graph (prepare Ex.chain [0; 1; 2])) 0 = ["b"]) as EI by by vm_compute.
      rewrite EI in Hid. apply list_elem_of_singleton in Hid. subst firstId.
      vm_compute in R. injection R as <-. auto.
    - assert (installsAfterOf (p_store (prepare Ex.chain [0; 1; 2]))
                              (p_graph (prepare Ex.chain [0; 1; 2])) 1 = []) as EI by by vm_compute.
      rewrite EI in Hid. by apply not_elem_of_nil in Hid.
    - assert (installsAfterOf (p_store (prepare Ex.chain [0; 1; 2]))
                              (p_graph (prepare Ex.chain [0; 1; 2])) 2 = ["a"]) as EI by by vm_compute.
      rewrite EI in Hid. apply list_elem_of_singleton in Hid. subst firstId.
      vm_compute in R. injection R as <-. auto. }
  assert (installsAfterEdge Ex.chain [0; 1; 2] 0 2) as E02.
  { split.
    - replace (p_nodes (prepare Ex.chain [0; 1; 2])) with [0; 1; 2] by by vm_compute.
      apply list_elem_of_In. simpl. auto.
    - exists "b". split; [|by vm_compute].
      replace (installsAfterOf _ _ 0) with ["b"] by by vm_compute. by left. }
  intros x Hx.
  replace (p_nodes (prepare Ex.chain [0; 1; 2])) with [0; 1; 2] in Hx by by vm_compute.
  split; [|split].
  - intros N. repeat (apply elem_of_cons in Hx as [->|Hx]); [| | |by apply not_elem_of_nil in Hx].
    + by destruct (N 2).
    + done.
    + destruct (N 1). exact chain_edge.
  - intros y [[-> ->]|[-> ->]]%Edges; lia.
  - intros [y [[-> ->]|[-> ->]]%Edges].
    + exists 2. split; [exact E02|done].
    + exists 1. split; [exact chain_edge|done].
Defined.

Lemma linked_features_are_ordered_by_depth_then_identifier_witness :
  computeInstallationOrder Ex.chain [0; 1; 2] = (Ex.chain, Returned [1; 2; 0])
  ∧ (1 < 2 ↔ (1 < 2 ∨ (1 = 2 ∧ JS.string_lt "b" "c" = true))).
Proof.
  split; [by vm_compute|].
  apply (linked_features_are_ordered_by_depth_then_identifier
           Ex.chain [0; 1; 2] Ex.chain [1; 2; 0]
           (fun n => match n with 1 => 0 | 2 => 1 | _ => 2 end) 1 2 2 0).
  - by vm_compute.
  - exact chain_layering.
  - replace (p_nodes (prepare Ex.chain [0; 1; 2])) with [0; 1; 2] by by vm_compute.
    apply list_elem_of_In. simpl. auto.
  - replace (p_nodes (prepare Ex.chain [0; 1; 2])) with [0; 1; 2] by by vm_compute.
    apply list_elem_of_In. simpl. auto.
  - intros U. apply (proj1 (U 1)). exact chain_edge.
  - intros U. apply (proj1 (U 2)).
    split.
    + replace (p_nodes (prepare Ex.chain [0; 1; 2])) with [0; 1; 2] by by vm_compute.
      apply list_elem_of_In. simpl. auto.
    + exists "b". split; [|by vm_compute].
      replace (installsAfterOf _ _ 0) with ["b"] by by vm_compute. by left.
  - reflexivity.
  - reflexivity.
Defined.


(** ** The errors of the hard path *)

Lemma addDependencies_Thrown params current entries : ∀ s s' m,
  addDependencies params current entries s = (s', Thrown m) →
  ∃ i, getRef params i = None ∧ m = "Invalid reference '" +:+ i +:+ "'".
Proof.
  induction entries as [|[i o] entries IH]; intros s s' m; simpl; [done|].
  destruct (getRef params i) as [ref|] eqn:R; [apply IH|].
  intros [= _ <-]. eauto.
Qed.

Lemma turn_Throws params current s s' m :
  turn params current s = (s', Throws m) →
  (∃ i, getRef params i = None ∧ m = "Invalid reference '" +:+ i +:+ "'")
  ∨ (∃ i, fetchOCIFeatureManifestIfExistsFromUserIdentifier params i = Returned None
          ∧ m = "Manifest for '" +:+ i +:+ "' not found"
          ∧ last (events s') = Some (Fetch i))
  ∨ (∃ i, fetchOCIFeatureManifestIfExistsFromUserIdentifier params i = Thrown m
          ∧ last (events s') = Some (Fetch i))
  ∨ (∃ t, JSON_parse params t = Thrown m).
Proof.
  unfold turn. destruct (existsb _ (acc s)); [done|].
  destruct (fetchOCIFeatureManifestIfExistsFromUserIdentifier params _)
    as [[manifest|]|m'|] eqn:F; [| | |done].
  - destruct (match annotations manifest with Some a => _ | None => None end) as [ser|]; [|done].
    destruct (String.eqb ser EmptyString); [done|].
    destruct (JSON_parse params ser) as [entries|m'|] eqn:P; [| |done].
    + destruct (addDependencies params current entries _) as [s2 [[]|m'|]] eqn:A; try done.
      intros [= <- <-]. left. by eapply addDependencies_Thrown.
    + intros [= <- <-]. right. right. right. eauto.
  - intros [= <- <-]. right. left. eexists. split; [exact F|]. split; [done|].
    cbn [events]. by rewrite last_app.
  - intros [= <- <-]. right. right. left. eexists. split; [exact F|].
    cbn [events]. by rewrite last_app.
Qed.

Lemma _buildDependencyGraph_Thrown params fuel : ∀ s s' m,
  _buildDependencyGraph fuel params s = (s', Thrown m) →
  (∃ i, getRef params i = None ∧ m = "Invalid reference '" +:+ i +:+ "'")
  ∨ (∃ i, fetchOCIFeatureManifestIfExistsFromUserIdentifier params i = Returned None
          ∧ m = "Manifest for '" +:+ i +:+ "' not found"
          ∧ last (events s') = Some (Fetch i))
  ∨ (∃ i, fetchOCIFeatureManifestIfExistsFromUserIdentifier params i = Thrown m
          ∧ last (events s') = Some (Fetch i))
  ∨ (∃ t, JSON_parse params t = Thrown m).
Proof.
  induction fuel as [|fuel IH]; intros s s' m; simpl.
  - by destruct (worklist s).
  - destruct (worklist s) as [|current rest]; [done|].
    destruct (turn params current (shifted s rest)) as [s1 t] eqn:T.
    destruct t as [| |m'|]; [apply IH| | |done].
    + destruct (_buildDependencyGraph fuel params s1) as [s2 [l|m'|]] eqn:B; [apply IH| |done].
      intros [= <- <-]. by apply IH in B.
    + intros [= <- <-]. by apply turn_Throws in T.
Qed.

Lemma rootNodesOf_Thrown params : ∀ userFeatures m,
  rootNodesOf params userFeatures = Thrown m →
  ∃ i, getRef params i = None ∧ m = "Invalid reference '" +:+ i +:+ "'".
Proof.
  induction userFeatures as [|[fid fopts] rest IH]; intros m; simpl; [done|].
  destruct (getRef params fid) as [ref|] eqn:R; [|intros [= <-]; eauto].
  destruct (rootNodesOf params rest) as [h|m'|]; simpl; [done| |done].
  intros [= <-]. by apply IH.
Qed.

(** X14: the errors that [computeDependsOnInstallationOrder] throws: no feature
    in the configuration; an identifier that is no valid reference; a
    manifest that is not found, or whose fetch fails, and then that fetch is
    the last event; a [dependsOn] annotation that does not parse; a circular
    dependency; or the [TypeError] of the comparator. *)
Theorem errors_of_the_dependency_order fuel params config h evs m :
  computeDependsOnInstallationOrder fuel params config = (h, evs, Thrown m) →
  m = "No features found. Nothing to do."
  ∨ (∃ i, getRef params i = None ∧ m = "Invalid reference '" +:+ i +:+ "'")
  ∨ (∃ i, fetchOCIFeatureManifestIfExistsFromUserIdentifier params i = Returned None
          ∧ m = "Manifest for '" +:+ i +:+ "' not found"
          ∧ last evs = Some (Fetch i))
  ∨ (∃ i, fetchOCIFeatureManifestIfExistsFromUserIdentifier params i = Thrown m
          ∧ last evs = Some (Fetch i))
  ∨ (∃ t, JSON_parse params t = Thrown m)
  ∨ m = "Circular dependency detected"
  ∨ m = "TypeError: Cannot read properties of undefined (reading 'localeCompare')".
Proof.
  unfold computeDependsOnInstallationOrder.
  destruct (buildDependencyGraphFromConfig fuel params config) as [s [wl|m'|]] eqn:B;
    cbn [fst snd]; [| |done].
  - destruct (schedule params (heap s) wl (events s)) as [evs' c] eqn:S. cbn [fst snd].
    intros [= <- <- ->]. unfold schedule in S.
    apply rounds_Thrown in S as [->| ->]; auto 10.
  - intros [= <- <- <-]. unfold buildDependencyGraphFromConfig in B.
    destruct (userFeaturesToArray params config) as [uf|]; [|injection B as <- <-; by left].
    destruct (rootNodesOf params uf) as [roots|m''|] eqn:R; [| |done].
    + apply _buildDependencyGraph_Thrown in B as [H|[H|[H|H]]]; auto 10.
    + injection B as <- <-. apply rootNodesOf_Thrown in R. auto.
Qed.

Lemma errors_of_the_dependency_order_witness :
  ∃ h evs, computeDependsOnInstallationOrder 10 Ex.xz Ex.noOverride
           = (h, evs, Thrown "Circular dependency detected").
Proof.
  eexists _, _.
  destruct (errors_of_the_dependency_order 10 Ex.xz Ex.noOverride
              (computeDependsOnInstallationOrder 10 Ex.xz Ex.noOverride).1.1
              (computeDependsOnInstallationOrder 10 Ex.xz Ex.noOverride).1.2
              "Circular dependency detected" ltac:(by vm_compute)) as [H|H].
  - discriminate H.
  - by vm_compute.
Defined.


(** ** The returned hard order and the node set of the builder *)

(** X11: an order that [computeDependsOnInstallationOrder] returns is a
    rearrangement of the node set that the builder returned: it holds each
    of these nodes once, and no two of its nodes are equal for
    [fNodeEquality]. *)
Theorem hard_order_is_a_rearrangement_of_the_node_set fuel params config h evs out :
  computeDependsOnInstallationOrder fuel params config = (h, evs, Returned out) →
  ∃ s nodes, buildDependencyGraphFromConfig fuel params config = (s, Returned nodes)
             ∧ h = heap s ∧ Permutation out nodes
             ∧ NoDup out
             ∧ ∀ i j a b, out !! i = Some a → out !! j = Some b →
                          fNodeEquality (h !!! a) (h !!! b) = true → i = j.
Proof.
  intros H.
  destruct (computeDependsOnInstallationOrder_distinct _ _ _ _ _ _ H) as ([ND D] & s & B & P).
  exists s, (acc s). split; [done|]. split.
  - unfold computeDependsOnInstallationOrder in H. rewrite B in H. cbn [fst snd] in H.
    by injection H as <- _ _.
  - split; [done|]. split; [done|]. intros i j a b Hi Hj E.
    assert (a = b) as -> by (apply D; [by eapply list_elem_of_lookup_2..|done]).
    by eapply NoDup_lookup.
Qed.

Lemma hard_order_is_a_rearrangement_of_the_node_set_witness :
  (computeDependsOnInstallationOrder 10 Ex.abc Ex.noOverride).2 = Returned [2; 1; 0]
  ∧ ∃ s nodes, buildDependencyGraphFromConfig 10 Ex.abc Ex.noOverride = (s, Returned nodes)
               ∧ Permutation [2; 1; 0] nodes.
Proof.
  split; [vm_compute; reflexivity|].
  assert (computeDependsOnInstallationOrder 10 Ex.abc Ex.noOverride
          = (Ex.abcHeap, (computeDependsOnInstallationOrder 10 Ex.abc Ex.noOverride).1.2,
             Returned [2; 1; 0])) as H by (vm_compute; reflexivity).
  destruct (hard_order_is_a_rearrangement_of_the_node_set _ _ _ _ _ _ H)
    as (s & nodes & B & _ & P & _).
  exists s, nodes. exact (conj B P).
Defined.

Lemma computeInstallationOrder_returns_iff_acyclic_witness :
  acyclic Ex.chain [0; 1; 2]
  ∧ ∃ σ' out, computeInstallationOrder Ex.chain [0; 1; 2] = (σ', Returned out).
Proof.
  split; [exact chain_acyclic|].
  apply (proj2 (proj1 (computeInstallationOrder_returns_iff_acyclic Ex.chain [0; 1; 2]))).
  exact chain_acyclic.
Defined.


(** ** A feature that refers to itself *)

Lemma schedule_Returned_ranked params h wl evs evs' out :
  distinctNodes h wl → schedule params h wl evs = (evs', Returned out) → dependsOnRanked h wl.
Proof.
  intros D S.
  pose proof (schedule_Permutation _ _ _ _ _ _ D S) as P.
  apply (dependsOnRanked_Permutation _ out); [done|].
  apply dependenciesFirst_ranked; [|by eapply schedule_dependenciesFirst].
  destruct D as [ND D]. split; [by rewrite P|].
  intros a b Ha Hb. rewrite P in Ha, Hb. by apply D.
Qed.

(** X21: a feature that installs after itself makes [computeInstallationOrder]
    throw the cyclic dependency error; and when a node that the builder
    returned has a dependency that is equal to the node itself,
    [computeDependsOnInstallationOrder] returns no order. *)
Theorem self_reference_is_a_cycle :
  (∀ σ features x,
     installsAfterEdge σ features x x →
     ∃ σ' keys, keys ≠ []
       ∧ computeInstallationOrder σ features
         = (σ', Thrown ("Features declare cyclic dependency: " +:+ JS.join ", " keys)))
  ∧ (∀ fuel params config s nodes n d,
       buildDependencyGraphFromConfig fuel params config = (s, Returned nodes) →
       n ∈ nodes → d ∈ dependsOn (heap s !!! n) →
       fNodeEquality (heap s !!! n) (heap s !!! d) = true →
       ∀ out, (computeDependsOnInstallationOrder fuel params config).2 ≠ Returned out).
Proof.
  split.
  - intros σ features x E.
    destruct (computeInstallationOrder_cases σ features) as [[out H]|(keys & K & H)]; [|eauto].
    exfalso. apply computeInstallationOrder_Returned_acyclic in H as [rank R].
    specialize (R x x E). lia.
  - intros fuel params config s nodes n d B Hn Hd E out Ho.
    destruct (buildDependencyGraphFromConfig_Closed _ _ _ _ _ B) as (C & W & ->).
    unfold computeDependsOnInstallationOrder in Ho. rewrite B in Ho. cbn [fst snd] in Ho.
    destruct (schedule params (heap s) (acc s) (events s)) as [evs' c] eqn:S.
    cbn [snd] in Ho. subst c.
    apply schedule_Returned_ranked in S as [rank R]; [|apply (bi_distinct _ (cl_inv _ C))].
    specialize (R n d n Hn Hd Hn E). lia.
Qed.

Lemma self_reference_is_a_cycle_witness :
  (∃ σ' keys, keys ≠ []
     ∧ computeInstallationOrder Ex.selfish [0; 1]
       = (σ', Thrown ("Features declare cyclic dependency: " +:+ JS.join ", " keys)))
  ∧ (computeDependsOnInstallationOrder 10 Ex.narcissus Ex.noOverride).2 ≠ Returned [0].
Proof.
  split.
  - apply (proj1 self_reference_is_a_cycle Ex.selfish [0; 1] 0).
    split.
    + replace (p_nodes (prepare Ex.selfish [0; 1])) with [0; 1] by by vm_compute.
      by left.
    + exists "a". split; [|by vm_compute].
      replace (installsAfterOf _ _ 0) with ["a"] by by vm_compute. by left.
  - apply (proj2 self_reference_is_a_cycle 10 Ex.narcissus Ex.noOverride
             (buildDependencyGraphFromConfig 10 Ex.narcissus Ex.noOverride).1 [0] 0 1).
    + by vm_compute.
    + by left.
    + replace (dependsOn _) with [1] by by vm_compute. by left.
    + by vm_compute.
Defined.


(** ** The rounds of the hard order *)

Lemma sort_insert_throwing_sorted {A} (cmp : A → A → Completion Z) (P : A → Prop) :
  let le := fun a b => ∃ c, cmp a b = Returned c ∧ (c <= 0)%Z in
  (∀ a b c, P a → P b → P c → le a b → le b c → le a c) →
  (∀ a b c, P a → P b → cmp a b = Returned c → (0 < c)%Z → le b a) →
  ∀ x l l', P x → Forall P l → StronglySorted le l →
            JS.sort_insert_throwing cmp x l = Returned l' → StronglySorted le l'.
Proof.
  intros le T O x l. induction l as [|y r IH]; intros l' Px Pl S; simpl.
  - intros [= <-]. repeat constructor.
  - apply Forall_cons in Pl as [Py Pr]. apply StronglySorted_inv in S as [S F].
    destruct (cmp x y) as [c| |] eqn:C; simpl; [|done..].
    destruct (Z.leb_spec c 0) as [Hle|Hgt].
    + intros [= <-]. constructor; [by constructor|].
      assert (le x y) as Lxy by by exists c.
      constructor; [done|]. rewrite List.Forall_forall in *. intros z Hz.
      apply (T x y z); [done..| |done|by apply F].
      by apply Pr.
    + destruct (JS.sort_insert_throwing cmp x r) as [r'| |] eqn:I; simpl; [|done..].
      intros [= <-]. constructor; [by apply IH|].
      apply sort_insert_throwing_Permutation in I.
      rewrite List.Forall_forall in *. intros z Hz%list_elem_of_In. rewrite I in Hz.
      apply elem_of_cons in Hz as [->|Hz]; [by apply (O x y c)|].
      by apply F, list_elem_of_In.
Qed.

Lemma sort_throwing_sorted {A} (cmp : A → A → Completion Z) (P : A → Prop) :
  let le := fun a b => ∃ c, cmp a b = Returned c ∧ (c <= 0)%Z in
  (∀ a b c, P a → P b → P c → le a b → le b c → le a c) →
  (∀ a b c, P a → P b → cmp a b = Returned c → (0 < c)%Z → le b a) →
  ∀ l l', Forall P l → JS.sort_throwing cmp l = Returned l' → StronglySorted le l'.
Proof.
  intros le T O l. induction l as [|x r IH]; intros l' Pl; simpl.
  - intros [= <-]. constructor.
  - apply Forall_cons in Pl as [Px Pr].
    destruct (JS.sort_throwing cmp r) as [r'| |] eqn:S; simpl; [|done..].
    apply (sort_insert_throwing_sorted cmp P T O); [done| |by apply IH].
    apply sort_throwing_Permutation in S. by rewrite S.
Qed.

Section Rounds.
Context (params : CommonParams) (h : Heap) (nodes : list nat) (depth : nat → nat).
Hypothesis distinct : distinctNodes h nodes.
Hypothesis closed :
  ∀ n d, n ∈ nodes → d ∈ dependsOn (h !!! n) →
         ∃ m, m ∈ nodes ∧ fNodeEquality (h !!! m) (h !!! d) = true.
Hypothesis numbering : roundNumbering h nodes depth.
Hypothesis comparator : consistentComparator params h nodes.

(** In round [k] the nodes that are ready are those of depth [k]. *)
Lemma ready_depth k (wl installationOrder : list nat) n :
  (∀ x, x ∈ wl → x ∈ nodes ∧ k ≤ depth x) →
  (∀ x, x ∈ installationOrder ↔ x ∈ nodes ∧ depth x < k) →
  n ∈ wl → ready h installationOrder n = true ↔ depth n = k.
Proof.
  intros Hwl Hio Hn. destruct (Hwl n Hn) as [Hnn Hk].
  destruct (numbering n Hnn) as (N0 & N1 & N2).
  unfold ready. rewrite orb_true_iff, Nat.eqb_eq, forallb_forall. split.
  - intros [E|A].
    + apply length_zero_iff_nil in E. specialize (N0 E). lia.
    + destruct (dependsOn (h !!! n)) as [|d0 l] eqn:Ed; [specialize (N0 eq_refl); lia|].
      destruct N2 as (d & m & Hd & Hm & Em & En); [done|].
      specialize (A d (proj1 (list_elem_of_In _ _) Hd)).
      apply existsb_exists in A as (b & Hb%list_elem_of_In & Eb).
      apply Hio in Hb as [Hbn Hbk].
      assert (b = m) as ->; [|lia].
      apply distinct; [done..|]. eapply fNodeEquality_trans; [exact Eb|].
      by rewrite fNodeEquality_sym.
  - intros <-. right. intros d Hd%list_elem_of_In. apply existsb_exists.
    destruct (closed n d Hnn Hd) as (m & Hm & Em). exists m. split; [|done].
    apply list_elem_of_In, Hio. split; [done|]. by apply (N1 d m).
Qed.

Lemma rounds_sorted (fuel : nat) : ∀ k (wl installationOrder : list nat) evs evs' out,
  NoDup wl →
  (∀ x, x ∈ wl ↔ x ∈ nodes ∧ k ≤ depth x) →
  (∀ x, x ∈ installationOrder ↔ x ∈ nodes ∧ depth x < k) →
  StronglySorted (byRoundThenComparator params h depth) installationOrder →
  rounds fuel params h wl installationOrder evs = (evs', Returned out) →
  StronglySorted (byRoundThenComparator params h depth) out.
Proof.
  induction fuel as [|fuel IH]; intros k wl io evs evs' out ND Hwl Hio SS; simpl.
  - destruct wl; [|done]. by intros [= _ <-].
  - destruct wl as [|n0 wl0] eqn:W; [by intros [= _ <-]|]. rewrite <- W in *. clear W n0 wl0.
    assert (distinctNodes h wl) as Dw.
    { split; [done|]. intros a b Ha%Hwl Hb%Hwl. apply distinct; tauto. }
    rewrite (round_deleted h io wl Dw).
    set (round := List.filter (ready h io) wl).
    destruct (Nat.eqb (length round) 0); [done|].
    destruct (JS.sort_throwing _ round) as [round'| |] eqn:Srt; [|done..].
    assert (∀ x, x ∈ round ↔ x ∈ nodes ∧ depth x = k) as Hr.
    { intros x. unfold round. rewrite list_elem_of_In, filter_In, <- list_elem_of_In. split.
      - intros [Hx R]. split; [by apply Hwl in Hx as [? _]|].
        apply (ready_depth k wl io x); [intros y Hy; by apply Hwl|done..].
      - intros [Hx E]. assert (x ∈ wl) as Hxw by (apply Hwl; split; [done|lia]).
        split; [done|]. apply (ready_depth k wl io x); [intros y Hy; by apply Hwl|done..]. }
    pose proof (sort_throwing_Permutation _ _ _ Srt) as P.
    apply (IH (S k)).
    + by apply NoDup_ListNoDup, List.NoDup_filter, NoDup_ListNoDup.
    + intros x. rewrite list_elem_of_In, filter_In, <- list_elem_of_In, negb_true_iff. split.
      * intros [Hx R]. pose proof (proj1 (Hwl x) Hx) as [Hxn Hk]. split; [done|].
        destruct (decide (depth x = k)) as [E|]; [|lia].
        apply (ready_depth k wl io x) in E; [congruence|intros y Hy; by apply Hwl|done..].
      * intros [Hx Hk]. assert (x ∈ wl) as Hxw by (apply Hwl; split; [done|lia]).
        split; [done|]. destruct (ready h io x) eqn:R; [|done].
        apply (ready_depth k wl io x) in R; [lia|intros y Hy; by apply Hwl|done..].
    + intros x. rewrite elem_of_app, P, Hio, Hr. split.
      * intros [[? ?]|[? ?]]; split; try done; lia.
      * intros [Hx Hk]. destruct (decide (depth x = k)); [right|left]; split; try done; lia.
    + apply StronglySorted_app; [done| |].
      * eapply StronglySorted_impl.
        -- apply (sort_throwing_sorted _ (fun x => x ∈ nodes)
                    (proj1 comparator) (proj2 comparator) round); [|exact Srt].
           apply Forall_forall. intros x Hx. by apply Hr in Hx as [? _].
        -- intros a b Ha Hb L. rewrite P in Ha, Hb. apply Hr in Ha as [_ Ea], Hb as [_ Eb].
           right. split; [congruence|done].
      * intros a b Ha Hb. rewrite P in Hb. apply Hio in Ha as [_ Ha]. apply Hr in Hb as [_ Hb].
        left. lia.
Qed.

End Rounds.

Lemma roundNumbering_Permutation h l l' depth :
  Permutation l l' → roundNumbering h l depth → roundNumbering h l' depth.
Proof.
  intros P N n Hn. rewrite <- P in Hn. destruct (N n Hn) as (N0 & N1 & N2).
  split; [done|]. split.
  - intros d m Hd Hm. rewrite <- P in Hm. by apply N1.
  - intros Hne. destruct (N2 Hne) as (d & m & Hd & Hm & E). exists d, m. by rewrite <- P.
Qed.

Lemma consistentComparator_Permutation params h l l' :
  Permutation l l' → consistentComparator params h l → consistentComparator params h l'.
Proof.
  intros P [T O]. split.
  - intros a b c Ha Hb Hc. rewrite <- P in Ha, Hb, Hc. by apply T.
  - intros a b c Ha Hb. rewrite <- P in Ha, Hb. by apply O.
Qed.

(** X22: in an order that [computeDependsOnInstallationOrder] returns, the
    nodes stand by round and, within a round, as the comparator
    [fNodeStableSort] puts them, provided the comparator orders the nodes
    consistently: for any numbering of the rounds (depth 0 for a node
    without dependencies, otherwise one more than the deepest node that a
    dependency is equal to), a node that stands before another is in an
    earlier round, or in the same round and not after it for the
    comparator.  The order in which the builder found the nodes plays no
    part. *)
Theorem hard_order_is_by_round_then_comparator fuel params config h evs out depth i j a b :
  computeDependsOnInstallationOrder fuel params config = (h, evs, Returned out) →
  roundNumbering h out depth →
  consistentComparator params h out →
  out !! i = Some a → out !! j = Some b → i < j →
  byRoundThenComparator params h depth a b.
Proof.
  intros H N C Hi Hj Hij.
  destruct (computeDependsOnInstallationOrder_distinct _ _ _ _ _ _ H) as (_ & s & B & P).
  destruct (buildDependencyGraphFromConfig_Closed _ _ _ _ _ B) as (Cl & W & _).
  unfold computeDependsOnInstallationOrder in H. rewrite B in H. cbn [fst snd] in H.
  destruct (schedule params (heap s) (acc s) (events s)) as [evs' c] eqn:Sch.
  injection H as <- _ ->. unfold schedule in Sch.
  pose proof (bi_distinct _ (cl_inv _ Cl)) as D.
  apply (StronglySorted_lookup _ out) with (i := i) (j := j); [|done..].
  assert (∀ n d, n ∈ acc s → d ∈ dependsOn (heap s !!! n) →
                 ∃ m, m ∈ acc s ∧ fNodeEquality (heap s !!! m) (heap s !!! d) = true) as Cd.
  { intros n d. by apply Closed_returned. }
  eapply (rounds_sorted params (heap s) (acc s) depth D Cd
            (roundNumbering_Permutation _ _ _ _ P N)
            (consistentComparator_Permutation _ _ _ _ P C)
            (length (acc s)) 0 (acc s) []); [| | | |exact Sch].
  - by destruct D.
  - intros x. split; [intros Hx; split; [done|lia]|by intros [? _]].
  - intros x. split; [by intros ?%not_elem_of_nil|intros [_ ?]; lia].
  - constructor.
Qed.

Lemma sortsBefore_decide params h a b :
  sortsBefore params h a b
  ↔ match fNodeStableSort params (h !!! a) (h !!! b) with
    | Returned c => (c <=? 0)%Z
    | _ => false
    end = true.
Proof.
  unfold sortsBefore. destruct (fNodeStableSort _ _ _) as [c| |].
  - rewrite Z.leb_le. split; [by intros (z & [= <-] & L)|by eauto].
  - split; [by intros (z & [=] & _)|done].
  - split; [by intros (z & [=] & _)|done].
Qed.

Lemma abc_sortsBefore a b :
  a ∈ [2; 1; 0] → b ∈ [2; 1; 0] → sortsBefore Ex.abc Ex.abcHeap a b ↔ a ≤ b.
Proof.
  intros Ha Hb. rewrite sortsBefore_decide.
  repeat (apply elem_of_cons in Ha as [->|Ha]); [| | |exfalso; exact (not_elem_of_nil _ Ha)];
    (repeat (apply elem_of_cons in Hb as [->|Hb]); [| | |exfalso; exact (not_elem_of_nil _ Hb)]);
    vm_compute; split; intros H; first [reflexivity | discriminate H | lia | idtac];
    repeat (apply le_S_n in H); try exact (Nat.nle_succ_0 _ H); repeat constructor.
Defined.

Lemma abc_rounds :
  roundNumbering Ex.abcHeap [2; 1; 0] (fun n => 2 - n)
  ∧ consistentComparator Ex.abc Ex.abcHeap [2; 1; 0].
Proof.
  split.
  - intros n Hn.
    repeat (apply elem_of_cons in Hn as [->|Hn]); [| | |exfalso; exact (not_elem_of_nil _ Hn)].
    + split; [reflexivity|]. split.
      * intros d m Hd. exfalso. exact (not_elem_of_nil _ Hd).
      * intros N. exfalso. by apply N.
    + split; [intros [=]|]. split.
      * intros d m Hd Hm E. apply list_elem_of_singleton in Hd. subst d.
        repeat (apply elem_of_cons in Hm as [->|Hm]); [| | |exfalso; exact (not_elem_of_nil _ Hm)];
          vm_compute in E; first [discriminate E | vm_compute; lia].
      * intros _. exists 2, 2. split; [by left|]. split; [by left|]. split; reflexivity.
    + split; [intros [=]|]. split.
      * intros d m Hd Hm E. apply list_elem_of_singleton in Hd. subst d.
        repeat (apply elem_of_cons in Hm as [->|Hm]); [| | |exfalso; exact (not_elem_of_nil _ Hm)];
          vm_compute in E; first [discriminate E | vm_compute; lia].
      * intros _. exists 1, 1. split; [by left|]. split; [right; by left|]. split; reflexivity.
  - split.
    + intros a b c Ha Hb Hc. rewrite !abc_sortsBefore by assumption. lia.
    + intros a b c Ha Hb E L. rewrite abc_sortsBefore by assumption.
      destruct (le_lt_dec b a) as [H|H]; [exact H|exfalso].
      assert (sortsBefore Ex.abc Ex.abcHeap a b) as (z & Ez & Lz).
      { apply abc_sortsBefore; [assumption..|lia]. }
      rewrite E in Ez. injection Ez as <-. lia.
Defined.

Lemma hard_order_is_by_round_then_comparator_witness :
  (computeDependsOnInstallationOrder 10 Ex.abc Ex.noOverride).1.1 = Ex.abcHeap
  ∧ (computeDependsOnInstallationOrder 10 Ex.abc Ex.noOverride).2 = Returned [2; 1; 0]
  ∧ byRoundThenComparator Ex.abc Ex.abcHeap (fun n => 2 - n) 2 0.
Proof.
  split; [vm_compute; reflexivity|]. split; [vm_compute; reflexivity|].
  apply (hard_order_is_by_round_then_comparator 10 Ex.abc Ex.noOverride Ex.abcHeap
           (computeDependsOnInstallationOrder 10 Ex.abc Ex.noOverride).1.2
           [2; 1; 0] (fun n => 2 - n) 0 2 2 0).
  - vm_compute. reflexivity.
  - exact (proj1 abc_rounds).
  - exact (proj2 abc_rounds).
  - reflexivity.
  - reflexivity.
  - lia.
Defined.
